(** * pytdbot_sync: a shallow embedding of the client core

    The development follows [pytdbot_sync/client.py] and
    [pytdbot_sync/handlers/decorators.py]:

    - [Py]         the Python values and built-ins the client relies on
                   (JSON-like values, [str.removeprefix], [int(str)],
                   [list.insert], the stable [list.sort]);
    - [Registry]   [add_handler] / [remove_handler];
    - [Decorators] the [initializer] / [finalizer] decorators;
    - [Chain]      [_update_worker] and the three [__run_*] loops;
    - [Runtime]    the attributes of a [Client], TDLib behind it, and the
                   monad its methods run in;
    - [Calls]      [invoke], [get_retry_after_time] and the two retry policies;
    - [Auth]       [__handle_authorization_state] and its per-state steps;
    - [Dispatch]   [_process_update] and [__listen_loop].

    The properties follow the definitions, one module of facts per
    component ([PyFacts], [SortFacts], [RegistryFacts], [DecoratorsFacts],
    [ChainFacts], [CallsFacts], [AuthFacts], [DispatchFacts]).

    Python exceptions are values of [exn]; code that can raise returns in an
    error monad, code that talks to TDLib or to the operator threads an
    explicit world holding the answers still to come and the trace of what
    was done so far. *)

From Stdlib Require Import ZArith Lia Bool Ascii String.
From stdpp Require Import gmap strings list sorting pretty.

#[local] Set Warnings "-register-all".

(** ** Python values and built-ins *)
Module Py.

(** JSON-like values: what TDLib requests, responses and updates are made
    of once decoded ([dict], [list], [str], [int], [bool], [None]).
    Numbers are integers; a character of a text is a code point below
    256. *)
Inductive json : Type :=
| JNull
| JBool (b : bool)
| JInt (z : Z)
| JStr (s : string)
| JArr (l : list json)
| JObj (m : gmap string json).

Abbreviation dict := (gmap string json).

(** The exceptions the modelled code can see.  Modelled from the spec:
    [StopHandlers] (the stop signal) and [AuthorizationError] come from
    [pytdbot_sync/exception.py], which is not among the sources; both are
    taken to derive from [Exception].  [Exception name] is any other
    subclass of Python's [Exception], [BaseException name] a class that does
    not derive from it (for instance [SystemExit]). *)
Inductive exn : Type :=
| StopHandlers
| AuthorizationError (message : string)
| KeyError (key : string)
| TypeError (what : string)
| ValueError (what : string)
| RecursionError
| Exception (name : string)
| BaseException (name : string).

(** [except Exception] catches everything but the bare [BaseException]s. *)
Definition is_Exception (e : exn) : bool :=
  match e with
  | BaseException _ => false
  | _ => true
  end.

Definition is_StopHandlers (e : exn) : bool :=
  match e with
  | StopHandlers => true
  | _ => false
  end.

(** Truth value of an object, as [if x:] / [not x] compute it. *)
Definition truthy (v : json) : bool :=
  match v with
  | JNull => false
  | JBool b => b
  | JInt z => negb (z =? 0)%Z
  | JStr s => negb (String.eqb s EmptyString)
  | JArr l => negb (Nat.eqb (length l) 0)
  | JObj m => negb (Nat.eqb (size m) 0)
  end.

(** [v == s] for a string literal [s]. *)
Definition eq_str (v : json) (s : string) : bool :=
  match v with
  | JStr t => String.eqb t s
  | _ => false
  end.

(** [d[k]]: [KeyError] when the key is absent. *)
Definition getitem (d : dict) (k : string) : exn + json :=
  match d !! k with
  | Some v => inr v
  | None => inl (KeyError k)
  end.

(** [v[k]] for an arbitrary object [v]: only a [dict] can be subscripted by
    a string key. *)
Definition subscript (v : json) (k : string) : exn + json :=
  match v with
  | JObj d => getitem d k
  | _ => inl (TypeError "object is not subscriptable by str")
  end.

(** [k in v] for a string key [k]: key membership in a [dict], substring
    test in a [str], element test in a [list]; other objects are not
    containers. *)
Fixpoint is_substring (k s : string) : bool :=
  String.prefix k s ||
  match s with
  | EmptyString => false
  | String _ s' => is_substring k s'
  end.

Definition contains (v : json) (k : string) : exn + bool :=
  match v with
  | JObj d => inr (bool_decide (is_Some (d !! k)))
  | JStr s => inr (is_substring k s)
  | JArr l => inr (existsb (fun x => eq_str x k) l)
  | _ => inl (TypeError "argument is not iterable")
  end.

(** *** [str.removeprefix] *)

Fixpoint strip_prefix (p s : string) : option string :=
  match p, s with
  | EmptyString, _ => Some s
  | String a p', String b s' =>
      if Ascii.eqb a b then strip_prefix p' s' else None
  | String _ _, EmptyString => None
  end.

Definition removeprefix (s p : string) : string :=
  match strip_prefix p s with
  | Some rest => rest
  | None => s
  end.

(** *** [int(str)]

    [int] on a text of code points below 256 (a character of the model is
    one such code point): optional surrounding whitespace, an optional
    sign, then decimal digits that single underscores may separate, and no
    more than [int_max_str_digits] digits in all.  [None] stands for
    [ValueError]. *)

(** What [int] takes off at both ends: the ASCII blanks (tab, line feed,
    vertical tab, form feed, carriage return, space) and, of the other code
    points below 256, the two that are whitespace, NEXT LINE (133) and
    NO-BREAK SPACE (160).  The separators 28 to 31, which [str.strip] takes
    off, are no blanks for [int]. *)
Definition is_space (c : ascii) : bool :=
  let n := nat_of_ascii c in
  (Nat.leb 9 n && Nat.leb n 13) || Nat.eqb n 32 || Nat.eqb n 133
  || Nat.eqb n 160.

(** Below 256 the decimal digits are "0" to "9" alone. *)
Definition digit_of (c : ascii) : option Z :=
  let n := nat_of_ascii c in
  if Nat.leb 48 n && Nat.leb n 57 then Some (Z.of_nat (n - 48)) else None.

Fixpoint lstrip (s : string) : string :=
  match s with
  | String c s' => if is_space c then lstrip s' else s
  | EmptyString => EmptyString
  end.

Fixpoint rstrip (s : string) : string :=
  match s with
  | EmptyString => EmptyString
  | String c s' =>
      match rstrip s' with
      | EmptyString => if is_space c then EmptyString else String c EmptyString
      | r => String c r
      end
  end.

Definition strip (s : string) : string := rstrip (lstrip s).

(** [after_digit] tells whether the previous character was a digit: an
    underscore is accepted only there, and the text may end only there. *)
Fixpoint digits (acc : Z) (after_digit : bool) (s : string) : option Z :=
  match s with
  | EmptyString => if after_digit then Some acc else None
  | String c s' =>
      match digit_of c with
      | Some d => digits (10 * acc + d) true s'
      | None =>
          if Ascii.eqb c "_" && after_digit then digits acc false s' else None
      end
  end.

(** [sys.int_info.default_max_str_digits]: [int] refuses a text with more
    digits than this, leading zeros included; the sign, the blanks and the
    underscores do not count.  The client leaves the limit as the
    interpreter sets it. *)
Definition int_max_str_digits : N := 4300.

Fixpoint count_digits (s : string) : N :=
  match s with
  | EmptyString => 0
  | String c s' =>
      match digit_of c with
      | Some _ => N.succ (count_digits s')
      | None => count_digits s'
      end
  end.

Definition int (s : string) : option Z :=
  let t := strip s in
  if (int_max_str_digits <? count_digits t)%N then None
  else
    match t with
    | String "+" r => digits 0 false r
    | String "-" r => Z.opp <$> digits 0 false r
    | _ => digits 0 false t
    end.

(** *** [list.insert] and [list.sort] *)

(** [l.insert(i, x)]: a negative index counts from the end, and an index
    out of range is clamped to the nearest end. *)
Definition insert_at {A} (i : Z) (x : A) (l : list A) : list A :=
  let n := Z.of_nat (length l) in
  let j := if (i <? 0)%Z then Z.max 0 (i + n) else Z.min i n in
  take (Z.to_nat j) l ++ x :: drop (Z.to_nat j) l.

(** [l.sort(key=...)] is stable: elements whose keys compare equal keep
    their relative order.  [le_key a b] is [not (key b < key a)]; the
    result is the one stable arrangement, computed here by insertion. *)
Section Sort.
Context {A : Type} (le_key : A -> A -> bool).

Fixpoint sort_insert (x : A) (l : list A) : list A :=
  match l with
  | [] => [x]
  | y :: l' => if le_key x y then x :: l else y :: sort_insert x l'
  end.

Definition sort (l : list A) : list A := foldr sort_insert [] l.

(** The order the keys induce, as a relation. *)
Definition le_of : relation A := fun a b => le_key a b = true.
End Sort.

(** Code that can raise: [inl e] is the exception [e] propagating. *)
#[global] Instance exn_ret : MRet (sum exn) := fun A a => inr a.
#[global] Instance exn_bind : MBind (sum exn) := fun A B f m =>
  match m with
  | inl e => inl e
  | inr a => f a
  end.

End Py.

(** ** The handler registry *)
Module Registry.
Import Py.

(** Modelled from the spec: the classes [Filter] and [Handler]
    ([pytdbot_sync/filters.py], [pytdbot_sync/handlers/handler.py]) are not
    among the sources.  A handler has a callback, an event type (or one of
    the reserved phases "initializer" / "finalizer"), an optional predicate
    and an order that is an explicit position or [None] ("append").
    Callables are compared by identity, so they are represented by a name;
    what a callable does when called is given where it is called
    ([Chain]). *)
Record Filter : Type := { filter_func : nat }.

Record Handler : Type := {
  func : nat;
  update_type : string;
  filter_ : option Filter;
  position : option Z;
}.

(** [self._handlers]: a [dict] from update type to the list of its
    handlers.  Iteration order (insertion order of the keys) matters to
    [remove_handler], hence an association list with unique keys. *)
Definition handlers : Type := list (string * list Handler).

Definition initial : handlers := [("initializer", []); ("finalizer", [])].

Fixpoint get (k : string) (hs : handlers) : option (list Handler) :=
  match hs with
  | [] => None
  | (k', l) :: hs' => if String.eqb k k' then Some l else get k hs'
  end.

(** [hs[k] = l]: replaces the value of an existing key in place, a new key
    goes last. *)
Fixpoint set (k : string) (l : list Handler) (hs : handlers) : handlers :=
  match hs with
  | [] => [(k, l)]
  | (k', l') :: hs' =>
      if String.eqb k k' then (k', l) :: hs' else (k', l') :: set k l hs'
  end.

(** The order induced by [key=lambda x: (x.position is None, x.position)]:
    [sort_key_le a b] is [not (key b < key a)].  Two [None] positions give
    equal tuples, so [None] is never compared with [<]. *)
Definition sort_key_le (a b : Handler) : bool :=
  match position a, position b with
  | Some p, Some q => (p <=? q)%Z
  | Some _, None => true
  | None, Some _ => false
  | None, None => true
  end.

(** [add_handler].  The three [isinstance] guards raise [TypeError] before
    anything is touched; they are the types of the arguments here. *)
Definition add_handler (update_type : string) (func : nat)
    (filters : option Filter) (position : option Z) (hs : handlers) : handlers :=
  let h := {| func := func; update_type := update_type;
              filter_ := filters; position := position |} in
  let l := default [] (get update_type hs) in
  let l' := match position with
            | Some p => insert_at p h l
            | None => l ++ [h]
            end in
  set update_type (sort sort_key_le l') hs.

(** Where [add_handler] leaves a handler registered with the explicit
    position [p] in a list that was sorted.  [list.insert] puts it at the
    index [p], counted from the end when [p] is negative and clamped to
    the ends; the stable sort then moves it no further than the order asks:
    behind the handlers with a smaller position, before the handlers with
    a larger position or none, and among the handlers with the same
    position [p] to where [list.insert] put it. *)
Definition position_below (p : Z) (h : Handler) : bool :=
  match position h with
  | Some q => (q <? p)%Z
  | None => false
  end.

Definition position_up_to (p : Z) (h : Handler) : bool :=
  match position h with
  | Some q => (q <=? p)%Z
  | None => false
  end.

Definition insert_index (i : Z) (n : nat) : nat :=
  Z.to_nat (if (i <? 0)%Z then Z.max 0 (i + Z.of_nat n)
            else Z.min i (Z.of_nat n)).

Definition landing_from (j : nat) (p : Z) (l : list Handler) : nat :=
  Nat.max (length (List.filter (position_below p) l))
          (Nat.min j (length (List.filter (position_up_to p) l))).

Definition landing (p : Z) (l : list Handler) : nat :=
  landing_from (insert_index p (length l)) p l.

(** The inner loop of [remove_handler]: drop the first handler whose
    callback is [f], if there is one. *)
Fixpoint remove_first (f : nat) (l : list Handler) : option (list Handler) :=
  match l with
  | [] => None
  | h :: l' =>
      if Nat.eqb (func h) f then Some l' else cons h <$> remove_first f l'
  end.

Fixpoint remove_handler (f : nat) (hs : handlers) : bool * handlers :=
  match hs with
  | [] => (false, [])
  | (ty, l) :: hs' =>
      match remove_first f l with
      | Some l' => (true, (ty, sort sort_key_le l') :: hs')
      | None => let '(b, hs'') := remove_handler f hs' in (b, (ty, l) :: hs'')
      end
  end.

(** Sequences of registry calls. *)
Inductive op : Type :=
| Add (update_type : string) (func : nat) (filters : option Filter)
      (position : option Z)
| Remove (func : nat).

Definition apply_op (hs : handlers) (o : op) : handlers :=
  match o with
  | Add ty f flt pos => add_handler ty f flt pos hs
  | Remove f => snd (remove_handler f hs)
  end.

Definition run (ops : list op) : handlers := foldl apply_op initial ops.

(** What the ordering claims are about. *)
Definition key_le : relation Handler := le_of sort_key_le.

Definition all_sorted (hs : handlers) : Prop :=
  Forall (fun kl => StronglySorted key_le (snd kl)) hs.

(** The callbacks a sequence of calls registers, in the order of their
    registration, and the callbacks of the handlers of a list that were
    registered without position, in the order of the list. *)
Definition registered (ops : list op) : list nat :=
  omap (fun o => match o with
                 | Add _ f _ _ => Some f
                 | Remove _ => None
                 end) ops.

Fixpoint appended (l : list Handler) : list nat :=
  match l with
  | [] => []
  | h :: l' =>
      match position h with
      | None => func h :: appended l'
      | Some _ => appended l'
      end
  end.

(** The invariant behind registration order: the callbacks of the
    handlers without position are in increasing order in every list, and
    every handler of a list was registered by the sequence. *)
Definition numbered (ops : list op) (hs : handlers) : Prop :=
  forall ty l,
    get ty hs = Some l ->
    StronglySorted lt (appended l) /\
    Forall (fun h => func h ∈ registered ops) l.

(** *** Scenarios *)

(** Four handlers registered with positions 2, 0, [None], 1. *)
Definition four_registrations : list op :=
  [Add "updateNewMessage" 1 None (Some 2%Z);
   Add "updateNewMessage" 2 None (Some 0%Z);
   Add "updateNewMessage" 3 None None;
   Add "updateNewMessage" 4 None (Some 1%Z)].

Definition four_registered : list Handler :=
  [{| func := 2; update_type := "updateNewMessage"; filter_ := None;
      position := Some 0%Z |};
   {| func := 4; update_type := "updateNewMessage"; filter_ := None;
      position := Some 1%Z |};
   {| func := 1; update_type := "updateNewMessage"; filter_ := None;
      position := Some 2%Z |};
   {| func := 3; update_type := "updateNewMessage"; filter_ := None;
      position := None |}].

(** Callback 1, then callback 2, both at position [p]. *)
Definition two_at_position (p : Z) : list op :=
  [Add "updateNewMessage" 1 None (Some p);
   Add "updateNewMessage" 2 None (Some p)].

(** Three handlers at position 1, registered when nothing else is. *)
Definition three_at_position_1 : list op :=
  [Add "updateNewMessage" 1 None (Some 1%Z);
   Add "updateNewMessage" 2 None (Some 1%Z);
   Add "updateNewMessage" 3 None (Some 1%Z)].

(** *** What the calls keep *)

(** Whether some list of the registry holds a handler whose callback is
    [f], the update types of the registry in the order of its keys, and the
    update types a sequence of calls registers a handler for. *)
Definition has_callback (f : nat) (hs : handlers) : bool :=
  existsb (fun kl => existsb (fun h => Nat.eqb (func h) f) (snd kl)) hs.

Definition keys (hs : handlers) : list string := map fst hs.

Definition added_types (ops : list op) : list string :=
  omap (fun o => match o with
                 | Add ty _ _ _ => Some ty
                 | Remove _ => None
                 end) ops.

(** The number of handlers in the registry. *)
Definition handler_count (hs : handlers) : nat :=
  sum_list (map (fun kl => length (snd kl)) hs).

End Registry.

(** ** The decorators of [handlers/decorators.py] *)
Module Decorators.
Import Py Registry.

(** A function object: its identity and the [_handler] attribute a
    decorator may have left on it. *)
Record function : Type := {
  name : nat;
  _handler : option Handler;
}.

(** What a decorator can be reached through: a [Client] (whose registry is
    what matters here), a [Filter], or anything else, [None] included. *)
Inductive receiver : Type :=
| OfClient (hs : handlers)
| OfFilter (f : Filter)
| OfNothing.

Definition initializer (self : receiver) (filters : option Filter)
    (position : option Z) (f : function) : function * receiver :=
  match _handler f with
  | Some _ => (f, self)
  | None =>
      match self with
      | OfClient hs =>
          (f, OfClient (add_handler "initializer" (name f) filters position hs))
      | OfFilter flt =>
          ({| name := name f;
              _handler := Some {| func := name f; update_type := "initializer";
                                  filter_ := Some flt; position := position |} |},
           self)
      | OfNothing =>
          ({| name := name f;
              _handler := Some {| func := name f; update_type := "initializer";
                                  filter_ := filters; position := position |} |},
           self)
      end
  end.

Definition finalizer (self : receiver) (filters : option Filter)
    (position : option Z) (f : function) : function * receiver :=
  match _handler f with
  | Some _ => (f, self)
  | None =>
      match self with
      | OfClient hs =>
          (f, OfClient (add_handler "finalizer" (name f) filters position hs))
      | OfFilter flt =>
          ({| name := name f;
              _handler := Some {| func := name f; update_type := "initializer";
                                  filter_ := Some flt; position := position |} |},
           self)
      | OfNothing =>
          ({| name := name f;
              _handler := Some {| func := name f; update_type := "finalizer";
                                  filter_ := filters; position := position |} |},
           self)
      end
  end.

(** The body of the loop of [_load_plugins] for one attribute [obj] of a
    plugin module: a deferred handler is bound to the client now. *)
Definition load_plugin_object (obj : function) (hs : handlers) : handlers :=
  match _handler obj with
  | Some h => add_handler (update_type h) (func h) (filter_ h) (position h) hs
  | None => hs
  end.

(** The phase a registered callback runs in. *)
Definition registered_in (phase : string) (f : nat) (hs : handlers) : bool :=
  match get phase hs with
  | Some l => existsb (fun h => Nat.eqb (func h) f) l
  | None => false
  end.

(** [_load_plugins].  [modules] are the modules found under the plugin
    folder, in the sorted order of their paths: a module that fails to
    import is [None] (the failure is logged), one that imports is the list
    of its attributes, in the order of [dir].  The result is the registry
    and the two numbers the method logs at the end: the modules loaded and
    the handlers added. *)
Definition load_module (acc : handlers * nat) (objs : list function)
    : handlers * nat :=
  foldl (fun '(hs, handlers) obj =>
           match _handler obj with
           | Some _ => (load_plugin_object obj hs, S handlers)
           | None => (hs, handlers)
           end) acc objs.

Definition _load_plugins (modules : list (option (list function)))
    (hs : handlers) : handlers * nat * nat :=
  foldl (fun '(hs, count, handlers) module =>
           match module with
           | None => (hs, count, handlers)
           | Some objs =>
               let '(hs', handlers') := load_module (hs, handlers) objs in
               (hs', S count, handlers')
           end) (hs, 0, 0) modules.

(** *** Scenarios *)

(** Three plugin modules: the second one fails to import, the third one
    holds a function without handler between two decorated ones. *)
Definition three_plugins : list (option (list function)) :=
  [Some [fst (initializer OfNothing None None
                {| name := 1; _handler := None |})];
   None;
   Some [fst (finalizer OfNothing None (Some 0%Z)
                {| name := 2; _handler := None |});
         {| name := 3; _handler := None |};
         fst (finalizer OfNothing None (Some 0%Z)
                {| name := 4; _handler := None |})]].

End Decorators.

(** ** The handler chain *)
Module Chain.
Import Py Registry.

Inductive phase : Type := Pre | Main | Post.

(** What running a chain leaves behind: the callbacks called, in order, and
    the exceptions logged. *)
Inductive event : Type :=
| Called (ph : phase) (f : nat)
| LoggedFailure (ph : phase) (h : Handler)
| LoggedWorkerException (e : exn).

(** The registry after the calls [ops] were made on it, in order.  Both
    [add_handler] and [remove_handler] change the lists of the registry in
    place ([insert], [append], [remove], [sort]), so a loop that walks one
    of them sees what the calls did to it. *)
Definition after (hs : handlers) (ops : list op) : handlers :=
  foldl apply_op hs ops.

(** What calling a callable on [(client, update)] does.  It returns a value
    or raises.  On the way it may have called [add_handler] and
    [remove_handler] on the client it was given: [registry_calls], in
    order.  And it may have changed the update it was given, which is the
    one object that every callable of the chain gets: [update_after] is
    the update as the call leaves it. *)
Record effect : Type := {
  returned : exn + json;
  registry_calls : list op;
  update_after : dict;
}.

Section Chain.
(** What calling the callable [f] on [(client, update)] does when the
    registry is [hs]. *)
Context (call : nat -> dict -> handlers -> effect).

(** One iteration of the [for] loops of [__run_initializers],
    [__run_handlers] and [__run_finalizers], which are the same but for the
    list they walk and the text they log: the events it leaves, the
    exception it lets through ([StopHandlers] is raised again, other
    [Exception]s are logged), and the registry and the update
    afterwards. *)
Definition run_one (ph : phase) (h : Handler) (update : dict) (hs : handlers)
    : list event * option exn * handlers * dict :=
  let body : list event * (exn + json) * handlers * dict :=
    match filter_ h with
    | Some flt =>
        let tested := call (filter_func flt) update hs in
        let hs1 := after hs (registry_calls tested) in
        let update1 := update_after tested in
        match returned tested with
        | inl e => ([], inl e, hs1, update1)
        | inr v =>
            if truthy v then
              let called := call (func h) update1 hs1 in
              ([Called ph (func h)], returned called,
               after hs1 (registry_calls called), update_after called)
            else ([], inr JNull, hs1, update1)
        end
    | None =>
        let called := call (func h) update hs in
        ([Called ph (func h)], returned called,
         after hs (registry_calls called), update_after called)
    end in
  match body with
  | (evs, inr _, hs', update') => (evs, None, hs', update')
  | (evs, inl e, hs', update') =>
      if is_StopHandlers e then (evs, Some e, hs', update')
      else if is_Exception e
           then (evs ++ [LoggedFailure ph h], None, hs', update')
           else (evs, Some e, hs', update')
  end.

(** [for handler in self._handlers[key]]: the loop walks the list of the
    registry itself, not a copy.  Its iterator is an index into that list:
    the handler of an iteration is the one at the index in the list as it
    is then, and the loop ends when the index is past the end.  (The key is
    there when the loop starts, and no call takes a key away.)  [fuel]
    bounds the number of times the loop asks for a handler: a callback that
    registers a handler behind itself whenever it is called keeps the loop
    going for ever, and [None] is a loop that is still running when the
    fuel is spent. *)
Fixpoint run_list (fuel : nat) (ph : phase) (key : string) (i : nat)
    (update : dict) (hs : handlers)
    : option (list event * option exn * handlers * dict) :=
  match fuel with
  | O => None
  | S fuel' =>
      match default [] (get key hs) !! i with
      | None => Some ([], None, hs, update)
      | Some h =>
          match run_one ph h update hs with
          | (evs, Some e, hs', update') => Some (evs, Some e, hs', update')
          | (evs, None, hs', update') =>
              match run_list fuel' ph key (S i) update' hs' with
              | Some (evs', r, hs'', update'') =>
                  Some (evs ++ evs', r, hs'', update'')
              | None => None
              end
          end
      end
  end.

Definition __run_initializers (fuel : nat) (hs : handlers) (update : dict)
    : option (list event * option exn * handlers * dict) :=
  match get "initializer" hs with
  | Some _ => run_list fuel Pre "initializer" 0 update hs
  | None => Some ([], Some (KeyError "initializer"), hs, update)
  end.

(** [update_type = update["@type"]] is read once, when the loop starts. *)
Definition __run_handlers (fuel : nat) (hs : handlers) (update : dict)
    : option (list event * option exn * handlers * dict) :=
  match update !! "@type" with
  | Some (JStr update_type) =>
      match get update_type hs with
      | Some _ => run_list fuel Main update_type 0 update hs
      | None => Some ([], Some (KeyError update_type), hs, update)
      end
  | Some (JArr _) | Some (JObj _) =>
      Some ([], Some (TypeError "unhashable type"), hs, update)
  | Some _ => Some ([], Some (KeyError "update_type"), hs, update)
  | None => Some ([], Some (KeyError "@type"), hs, update)
  end.

Definition __run_finalizers (fuel : nat) (hs : handlers) (update : dict)
    : option (list event * option exn * handlers * dict) :=
  match get "finalizer" hs with
  | Some _ => run_list fuel Post "finalizer" 0 update hs
  | None => Some ([], Some (KeyError "finalizer"), hs, update)
  end.

(** [update["@type"] in self._handlers]: the keys are strings, and a
    [dict] or a [list] cannot be hashed. *)
Definition type_registered (ty : json) (hs : handlers) : exn + bool :=
  match ty with
  | JStr s => inr (bool_decide (is_Some (get s hs)))
  | JArr _ | JObj _ => inl (TypeError "unhashable type")
  | _ => inr false
  end.

(** The local echo test of [_update_worker]; [and] evaluates its operands
    from left to right and stops at the first false one. *)
Definition is_local_echo (update : dict) : exn + bool :=
  ty ← getitem update "@type";
  if eq_str ty "updateNewMessage" then
    message ← getitem update "message";
    is_outgoing ← subscript message "is_outgoing";
    if truthy is_outgoing then contains message "sending_state" else inr false
  else inr false.

(** The [try] / [except StopHandlers] / [finally] of [_update_worker]: the
    pre-phase, the main phase unless the pre-phase let something through,
    then in any case the post-phase.  What the post-phase lets through
    replaces what was on its way; the stop signal of the first two phases
    is dropped. *)
Definition run_phases (fuel : nat) (hs : handlers) (update : dict)
    : option (list event * option exn * handlers * dict) :=
  match __run_initializers fuel hs update with
  | None => None
  | Some (evs1, r1, hs1, update1) =>
      match (match r1 with
             | None => __run_handlers fuel hs1 update1
             | Some e => Some ([], Some e, hs1, update1)
             end) with
      | None => None
      | Some (evs2, r2, hs2, update2) =>
          let pending :=
            match r2 with
            | Some e => if is_StopHandlers e then None else Some e
            | None => None
            end in
          match __run_finalizers fuel hs2 update2 with
          | None => None
          | Some (evs3, r3, hs3, update3) =>
              Some (evs1 ++ evs2 ++ evs3,
                    match r3 with
                    | Some e => Some e
                    | None => pending
                    end, hs3, update3)
          end
      end
  end.

(** [_update_worker].  [self.update_class(self, update)] wraps the update
    in an object that is subscripted like the [dict] it wraps.  The result
    is what the worker logged and called, the exception that leaves it if
    one does, and the registry and the update afterwards. *)
Definition _update_worker (fuel : nat) (is_running : bool) (hs : handlers)
    (update : dict) : option (list event * option exn * handlers * dict) :=
  if is_running then
    let body : option (list event * option exn * handlers * dict) :=
      match update !! "@type" with
      | None => Some ([], None, hs, update)
      | Some ty =>
          match type_registered ty hs with
          | inl e => Some ([], Some e, hs, update)
          | inr false => Some ([], None, hs, update)
          | inr true =>
              match is_local_echo update with
              | inl e => Some ([], Some e, hs, update)
              | inr true => Some ([], None, hs, update)
              | inr false => run_phases fuel hs update
              end
          end
      end in
    match body with
    | Some (evs, Some e, hs', update') =>
        if is_Exception e
        then Some (evs ++ [LoggedWorkerException e], None, hs', update')
        else Some (evs, Some e, hs', update')
    | Some (evs, None, hs', update') => Some (evs, None, hs', update')
    | None => None
    end
  else Some ([], None, hs, update).

End Chain.

(** What a run of the worker left behind, when it ended. *)
Definition events (r : option (list event * option exn * handlers * dict))
    : list event :=
  match r with
  | Some (evs, _, _, _) => evs
  | None => []
  end.

(** The callbacks a chain called in a given phase. *)
Definition phase_eqb (a b : phase) : bool :=
  match a, b with
  | Pre, Pre | Main, Main | Post, Post => true
  | _, _ => false
  end.

Fixpoint called (ph : phase) (evs : list event) : list nat :=
  match evs with
  | [] => []
  | Called ph' f :: evs' =>
      if phase_eqb ph ph' then f :: called ph evs' else called ph evs'
  | _ :: evs' => called ph evs'
  end.

(** Callables that leave the registry and the update alone, and what such
    callables do while the registry is [hs]. *)
Definition quiet (call : nat -> dict -> handlers -> effect) : Prop :=
  forall f update hs,
    registry_calls (call f update hs) = [] /\
    update_after (call f update hs) = update.

Definition at_registry (call : nat -> dict -> handlers -> effect)
    (hs : handlers) (f : nat) (update : dict) : exn + json :=
  returned (call f update hs).

(** A callable that returns or raises and does nothing else. *)
Definition quietly (behaviour : nat -> dict -> exn + json)
    (f : nat) (update : dict) (hs : handlers) : effect :=
  {| returned := behaviour f update; registry_calls := [];
     update_after := update |}.

(** *** The chain over a snapshot

    The chain as the spec describes it ("registry lists are copied ...
    before a chain walks them, so a handler added mid-dispatch never
    affects a chain already in progress"): every loop walks the list it
    found when it started, and a callable only returns or raises.  The code
    walks the lists of the registry themselves ([run_list]); the two agree
    for callables that leave the registry and the update alone. *)
Section Snapshot.
Context (call : nat -> dict -> exn + json).

Definition snapshot_one (ph : phase) (h : Handler) (update : dict)
    : list event * option exn :=
  let body : list event * (exn + json) :=
    match filter_ h with
    | Some flt =>
        match call (filter_func flt) update with
        | inl e => ([], inl e)
        | inr v =>
            if truthy v then ([Called ph (func h)], call (func h) update)
            else ([], inr JNull)
        end
    | None => ([Called ph (func h)], call (func h) update)
    end in
  match body with
  | (evs, inr _) => (evs, None)
  | (evs, inl e) =>
      if is_StopHandlers e then (evs, Some e)
      else if is_Exception e then (evs ++ [LoggedFailure ph h], None)
      else (evs, Some e)
  end.

Fixpoint snapshot_list (ph : phase) (l : list Handler) (update : dict)
    : list event * option exn :=
  match l with
  | [] => ([], None)
  | h :: l' =>
      match snapshot_one ph h update with
      | (evs, Some e) => (evs, Some e)
      | (evs, None) =>
          let '(evs', r) := snapshot_list ph l' update in (evs ++ evs', r)
      end
  end.

Definition snapshot_initializers (hs : handlers) (update : dict)
    : list event * option exn :=
  match get "initializer" hs with
  | Some l => snapshot_list Pre l update
  | None => ([], Some (KeyError "initializer"))
  end.

Definition snapshot_handlers (hs : handlers) (update : dict)
    : list event * option exn :=
  match update !! "@type" with
  | Some (JStr update_type) =>
      match get update_type hs with
      | Some l => snapshot_list Main l update
      | None => ([], Some (KeyError update_type))
      end
  | Some (JArr _) | Some (JObj _) => ([], Some (TypeError "unhashable type"))
  | Some _ => ([], Some (KeyError "update_type"))
  | None => ([], Some (KeyError "@type"))
  end.

Definition snapshot_finalizers (hs : handlers) (update : dict)
    : list event * option exn :=
  match get "finalizer" hs with
  | Some l => snapshot_list Post l update
  | None => ([], Some (KeyError "finalizer"))
  end.

Definition snapshot_worker (is_running : bool) (hs : handlers) (update : dict)
    : list event * option exn :=
  if is_running then
    let body : list event * option exn :=
      match update !! "@type" with
      | None => ([], None)
      | Some ty =>
          match type_registered ty hs with
          | inl e => ([], Some e)
          | inr false => ([], None)
          | inr true =>
              match is_local_echo update with
              | inl e => ([], Some e)
              | inr true => ([], None)
              | inr false =>
                  let '(evs1, r1) := snapshot_initializers hs update in
                  let '(evs2, r2) :=
                    match r1 with
                    | None => snapshot_handlers hs update
                    | Some e => ([], Some e)
                    end in
                  let pending :=
                    match r2 with
                    | Some e => if is_StopHandlers e then None else Some e
                    | None => None
                    end in
                  let '(evs3, r3) := snapshot_finalizers hs update in
                  (evs1 ++ evs2 ++ evs3,
                   match r3 with
                   | Some e => Some e
                   | None => pending
                   end)
              end
          end
      end in
    match body with
    | (evs, Some e) =>
        if is_Exception e then (evs ++ [LoggedWorkerException e], None)
        else (evs, Some e)
    | (evs, None) => (evs, None)
    end
  else ([], None).

(** A handler is applicable to an update when it has no predicate or its
    predicate returns a true value. *)
Definition applicable (h : Handler) (update : dict) : bool :=
  match filter_ h with
  | Some flt =>
      match call (filter_func flt) update with
      | inr v => truthy v
      | inl _ => false
      end
  | None => true
  end.

(** A handler raises the stop signal on an update when its predicate or its
    callback does. *)
Definition raises_stop (ph : phase) (h : Handler) (update : dict) : bool :=
  match snd (snapshot_one ph h update) with
  | Some e => is_StopHandlers e
  | None => false
  end.

(** An iteration that lets nothing through: the loop goes on. *)
Definition passes (ph : phase) (h : Handler) (update : dict) : bool :=
  match snd (snapshot_one ph h update) with
  | Some _ => false
  | None => true
  end.

End Snapshot.

(** What a loop or the body of the worker may let through: an exception
    raised by a callback or a predicate, or an [Exception] of the worker's
    own (the [KeyError] of a missing key). *)
Definition caught_or_raised (call : nat -> dict -> handlers -> effect)
    (r : option exn) : Prop :=
  forall e, r = Some e ->
            is_Exception e = true \/
            exists f update hs, returned (call f update hs) = inl e.

(** The handlers a phase walks for an update: the list of the phase, or
    the list of the update's type. *)
Definition handlers_of (ph : phase) (hs : handlers) (update : dict)
    : list Handler :=
  match ph with
  | Pre => default [] (get "initializer" hs)
  | Main =>
      match update !! "@type" with
      | Some (JStr ty) => default [] (get ty hs)
      | _ => []
      end
  | Post => default [] (get "finalizer" hs)
  end.

(** *** Scenarios *)


(** Callback 1 raises the stop signal, every other callback returns. *)
Definition stop_in_1 (f : nat) (update : dict) : exn + json :=
  match f with
  | 1 => inl StopHandlers
  | _ => inr JNull
  end.


(** Callback 1 raises a [ValueError], every other callback returns. *)
Definition value_error_in_1 (f : nat) (update : dict) : exn + json :=
  match f with
  | 1 => inl (ValueError "invalid literal")
  | _ => inr JNull
  end.

Definition handler (ty : string) (f : nat) : Handler :=
  {| func := f; update_type := ty; filter_ := None; position := None |}.

(** A main-phase handler for "updateUser" followed by another one, and two
    post-phase handlers. *)
Definition one_main_two_finalizers : handlers :=
  run [Add "updateUser" 1 None None; Add "updateUser" 4 None None;
       Add "finalizer" 2 None None; Add "finalizer" 3 None None].

(** A pre-phase handler followed by another one, a main-phase handler for
    "updateUser" and a post-phase handler. *)
Definition two_initializers : handlers :=
  run [Add "initializer" 1 None None; Add "initializer" 2 None None;
       Add "updateUser" 3 None None; Add "finalizer" 4 None None].

Definition update_user : dict := {["@type" := JStr "updateUser"]}.

Definition update_chat_title : dict := {["@type" := JStr "updateChatTitle"]}.

Definition local_echo : dict :=
  {["@type" := JStr "updateNewMessage";
    "message" := JObj {["is_outgoing" := JBool true;
                        "sending_state" := JObj ∅]}]}.

(** A "new message" event that lost its message. *)
Definition new_message_without_message : dict :=
  {["@type" := JStr "updateNewMessage"]}.

End Chain.

(** ** The client object and its environment *)
Module Runtime.
Import Py.

(** Modelled from the spec: the class [Result] ([pytdbot_sync/types]) is not
    among the sources.  It is the spec's Call Future: a correlation key
    [id], the request payload it was created for (with the key attached
    under "@extra"), and the outcome once there is one, which is either a
    success payload or a structured (code, message) error. *)
Inductive outcome : Type :=
| Success (payload : dict)
| Error (code : Z) (message : string).

Record Result : Type := {
  id : string;
  request : dict;
  result : option outcome;
}.

Definition is_error (r : Result) : bool :=
  match result r with
  | Some (Error _ _) => true
  | _ => false
  end.

(** [Result.set_result(message)]: an "error" message is a failure, any
    other message a success. *)
Definition outcome_of (message : dict) : outcome :=
  match message !! "@type", message !! "code", message !! "message" with
  | Some (JStr "error"), Some (JInt code), Some (JStr text) => Error code text
  | _, _, _ => Success message
  end.

Definition set_result (message : dict) (r : Result) : Result :=
  {| id := id r; request := request r; result := Some (outcome_of message) |}.

(** The correlation key attached to an outgoing request. *)
Definition attach (key : string) (request : dict) : dict :=
  <["@extra" := JObj {["id" := JStr key]}]> request.

(** The [n]-th key the client generates; keys are never reused. *)
Definition key (n : nat) : string := "id" +:+ pretty n.

(** What is handed to the worker pool. *)
Inductive task : Type :=
| HandleAuthorizationState (update : dict)
| UpdateWorker (update : dict).

(** Log records of level info and above; debug records are left out. *)
Inductive log : Type :=
| Sleeping (retry_after : Z) (caused_by : json)
| CouldntLoadChat (chat_id : json)
| UnexpectedUpdate (update : dict)
| OptionError (option : json) (message : json)
| AuthorizationStateChanged (state : string)
| ListenLoopException (e : exn).

(** What the operator is asked on the terminal ([input], [getpass]) and
    what is printed there; the values formatted into the texts are kept as
    arguments. *)
Inductive prompt : Type :=
| PhoneOrToken
| IsCorrect (user_input : string)
| EmailAddress
| EmailCode
| LoginCode (code_type : json)
| FirstName
| LastName
| Password (can_recover : bool)
| ConfirmRecovery
| RecoveryCode (pattern : json).

Inductive printed : Type :=
| ErrorMessage (message : string)
| Welcome
| PasswordHint (hint : json)
| CannotRecover.

Inductive event : Type :=
| Sent (request : dict)
| Slept (seconds : Z)
| Logged (l : log)
| Printed (p : printed)
| Asked (p : prompt)
| Submitted (t : task)
| Resolved (r : Result)
| WorkersShutdown.

(** The constructor arguments that are only read. *)
Record Config : Type := {
  token : option string;
  use_message_database : bool;
  td_options : option (list (string * json));
  tdlib_parameters : dict;
  sleep_threshold : Z;
}.



(** The attributes of a [Client] that change, and TDLib behind it.
    Modelled from the spec: the transport ([pytdbot_sync/tdjson.py]) is an
    opaque send / receive channel; [_tdjson k] is the answer TDLib gives to
    the request sent under the correlation key [k]. *)
Record Client : Type := {
  config : Config;
  _tdjson : string -> outcome;
  is_running : bool;
  is_authenticated : bool;
  _results : gmap string Result;
  authorization_state : json;
  __authorization : json;
  __login : bool;
  __is_closing : bool;
  workers_shutdown : bool;
  next_id : nat;
  trace : list event;
}.

Definition emit (ev : event) (c : Client) : Client :=
  {| config := config c; _tdjson := _tdjson c; is_running := is_running c;
     is_authenticated := is_authenticated c;
     _results := _results c; authorization_state := authorization_state c;
     __authorization := __authorization c; __login := __login c;
     __is_closing := __is_closing c; workers_shutdown := workers_shutdown c;
     next_id := next_id c; trace := trace c ++ [ev] |}.

Definition with_results (t : gmap string Result) (c : Client) : Client :=
  {| config := config c; _tdjson := _tdjson c; is_running := is_running c;
     is_authenticated := is_authenticated c;
     _results := t; authorization_state := authorization_state c;
     __authorization := __authorization c; __login := __login c;
     __is_closing := __is_closing c; workers_shutdown := workers_shutdown c;
     next_id := next_id c; trace := trace c |}.

Definition with_next_id (n : nat) (c : Client) : Client :=
  {| config := config c; _tdjson := _tdjson c; is_running := is_running c;
     is_authenticated := is_authenticated c;
     _results := _results c; authorization_state := authorization_state c;
     __authorization := __authorization c; __login := __login c;
     __is_closing := __is_closing c; workers_shutdown := workers_shutdown c;
     next_id := n; trace := trace c |}.

Definition with_is_running (b : bool) (c : Client) : Client :=
  {| config := config c; _tdjson := _tdjson c; is_running := b;
     is_authenticated := is_authenticated c;
     _results := _results c; authorization_state := authorization_state c;
     __authorization := __authorization c; __login := __login c;
     __is_closing := __is_closing c; workers_shutdown := workers_shutdown c;
     next_id := next_id c; trace := trace c |}.

Definition with_authorization (state payload : json) (c : Client) : Client :=
  {| config := config c; _tdjson := _tdjson c; is_running := is_running c;
     is_authenticated := is_authenticated c;
     _results := _results c; authorization_state := state;
     __authorization := payload; __login := __login c;
     __is_closing := __is_closing c; workers_shutdown := workers_shutdown c;
     next_id := next_id c; trace := trace c |}.

(** [__stop_client]. *)
Definition __stop_client (c : Client) : Client :=
  {| config := config c; _tdjson := _tdjson c; is_running := false;
     is_authenticated := false;
     _results := _results c; authorization_state := authorization_state c;
     __authorization := __authorization c; __login := __login c;
     __is_closing := __is_closing c; workers_shutdown := true;
     next_id := next_id c; trace := trace c ++ [WorkersShutdown] |}.

(** Methods of the client: state passing, with exceptions. *)
Definition M (A : Type) : Type := Client -> (exn + A) * Client.

#[global] Instance M_ret : MRet M := fun A a c => (inr a, c).
#[global] Instance M_bind : MBind M := fun A B f m c =>
  match m c with
  | (inl e, c') => (inl e, c')
  | (inr a, c') => f a c'
  end.

Definition raise {A} (e : exn) : M A := fun c => (inl e, c).
Definition lift {A} (r : exn + A) : M A := fun c => (r, c).
Definition tell (ev : event) : M unit := fun c => (inr tt, emit ev c).
Definition read {A} (f : Client -> A) : M A := fun c => (inr (f c), c).

(** [self.__send(request)]. *)
Definition __send (request : dict) : M unit := tell (Sent request).

(** [time.sleep(seconds)] refuses a negative length. *)
Definition sleep (seconds : Z) : M unit :=
  if (seconds <? 0)%Z then raise (ValueError "sleep length must be non-negative")
  else tell (Slept seconds).

(** [self.workers.submit(...)]: an executor that was shut down refuses new
    work with a [RuntimeError]. *)
Definition submit (t : task) : M unit := fun c =>
  if workers_shutdown c then (inl (Exception "RuntimeError"), c)
  else (inr tt, emit (Submitted t) c).

(** [Result(request)]: a fresh key, attached to the payload, no outcome
    yet. *)
Definition new_Result (payload : dict) : M Result := fun c =>
  let k := key (next_id c) in
  (inr {| id := k; request := attach k payload; result := None |},
   with_next_id (S (next_id c)) c).

(** [result.reset()]: the same logical request under a new key, pending
    again. *)
Definition reset (r : Result) : M Result := fun c =>
  let k := key (next_id c) in
  (inr {| id := k; request := attach k (request r); result := None |},
   with_next_id (S (next_id c)) c).

(** [self._results[result.id] = result]. *)
Definition register (r : Result) : M unit := fun c =>
  (inr tt, with_results (<[id r := r]> (_results c)) c).

(** [result.wait()]: the caller blocks until the receiver has taken the
    future out of the pending table and given it TDLib's answer. *)
Definition wait (r : Result) : M Result := fun c =>
  (inr {| id := id r; request := request r; result := Some (_tdjson c (id r)) |},
   with_results (delete (id r) (_results c)) c).

(** The three lines [self._results[result.id] = result],
    [self.__send(result.request)], [result.wait()] that [invoke] runs for
    every request it issues: the future as the caller finds it afterwards,
    and the client then. *)
Definition answered (r : Result) (c : Client) : Result :=
  {| id := id r; request := request r; result := Some (_tdjson c (id r)) |}.

Definition after_exchange (r : Result) (c : Client) : Client :=
  with_results (delete (id r) (<[id r := r]> (_results c)))
    (emit (Sent (request r)) c).

(** [c'] is [c] some steps of a method later: same configuration, same
    TDLib, same authorization attributes, keys only consumed, trace only
    extended. *)
Definition extends (c c' : Client) : Prop :=
  config c' = config c /\ _tdjson c' = _tdjson c /\
  is_running c' = is_running c /\
  authorization_state c' = authorization_state c /\
  __authorization c' = __authorization c /\
  __login c' = __login c /\
  (next_id c <= next_id c')%nat /\
  exists evs, trace c' = trace c ++ evs.

Definition framed {A} (m : M A) : Prop :=
  forall c r c', m c = (r, c') -> extends c c'.

End Runtime.

(** ** Calls and the retry policies *)
Module Calls.
Import Py Runtime.

Definition _retry_after_prefex : string := "Too Many Requests: retry after ".

(** [get_retry_after_time]: [int] raising [ValueError] is caught and gives
    0. *)
Definition get_retry_after_time (error_message : string) : Z :=
  match int (removeprefix error_message _retry_after_prefex) with
  | Some n => n
  | None => 0
  end.

(** The payloads built by [getChat] and [getMessage]
    ([methods/tdlibfunctions.py]) before they delegate to [invoke]. *)
Definition getChat_data (chat_id : json) : dict :=
  {["@type" := JStr "getChat"; "chat_id" := chat_id]}.

Definition getMessage_data (chat_id message_id : json) : dict :=
  {["@type" := JStr "getMessage"; "chat_id" := chat_id;
    "message_id" := message_id]}.

(** The message the stale-chat policy loads: [reply_to_message_id] when the
    request has that key, else [message_id] when it has that one, else 0. *)
Definition referenced_message (request : dict) : json :=
  match request !! "reply_to_message_id" with
  | Some v => v
  | None =>
      match request !! "message_id" with
      | Some v => v
      | None => JInt 0
      end
  end.

(** [message_id > 0].  Only numbers are ordered against 0. *)
Definition gt_0 (v : json) : exn + bool :=
  match v with
  | JInt z => inr (0 <? z)%Z
  | JBool b => inr b
  | _ => inl (TypeError "'>' not supported")
  end.

(** [invoke].  [getChat] and [getMessage] call [invoke] again; [depth] is
    the number of nested activations of [invoke] the interpreter still
    allows, and [RecursionError] is what it raises beyond. *)
Fixpoint invoke (depth : nat) (payload : dict) : M Result :=
  match depth with
  | O => raise RecursionError
  | S depth' =>
      result ← new_Result payload;
      register result;;
      __send (request result);;
      result ← wait result;
      match Runtime.result result with
      | Some (Error code message) =>
          use_message_database ← read (fun c => use_message_database (config c));
          sleep_threshold ← read (fun c => sleep_threshold (config c));
          if (code =? 429)%Z then
            let retry_after := get_retry_after_time message in
            if (retry_after <=? sleep_threshold)%Z then
              result ← reset result;
              caused_by ← lift (getitem (request result) "@type");
              tell (Logged (Sleeping retry_after caused_by));;
              sleep retry_after;;
              register result;;
              __send (request result);;
              wait result
            else mret result
          else if negb use_message_database
                  && ((code =? 400)%Z
                      && String.eqb message "Chat not found"
                      && bool_decide (is_Some (request result !! "chat_id")))
          then
            chat_id ← lift (getitem (request result) "chat_id");
            load_chat ← invoke depth' (getChat_data chat_id);
            if negb (is_error load_chat) then
              let message_id := referenced_message (request result) in
              positive ← lift (gt_0 message_id);
              (if positive : bool
               then invoke depth' (getMessage_data chat_id message_id);; mret tt
               else mret tt);;
              result ← reset result;
              register result;;
              __send (request result);;
              wait result
            else
              tell (Logged (CouldntLoadChat chat_id));;
              mret result
          else mret result
      | _ => mret result
      end
  end.

Definition getChat (depth : nat) (chat_id : json) : M Result :=
  invoke depth (getChat_data chat_id).

Definition getMessage (depth : nat) (chat_id message_id : json) : M Result :=
  invoke depth (getMessage_data chat_id message_id).

(** [call_method] with the keyword arguments in [kwargs]. *)
Definition call_method (depth : nat) (method : string) (kwargs : dict)
    : M Result :=
  invoke depth (<["@type" := JStr method]> kwargs).

(** A request going out under the next key ([Result(request)] or
    [result.reset()], then the three lines of an exchange): the future the
    caller holds afterwards, and the client then. *)
Definition issued (payload : dict) (c : Client) : Result :=
  {| id := key (next_id c); request := attach (key (next_id c)) payload;
     result := Some (_tdjson c (key (next_id c))) |}.

Definition after_issuing (payload : dict) (c : Client) : Client :=
  after_exchange
    {| id := key (next_id c); request := attach (key (next_id c)) payload;
       result := None |}
    (with_next_id (S (next_id c)) c).

(** Requests sent for a given TDLib method, in a trace. *)
Definition sent_for (method : string) (evs : list event) : list dict :=
  omap (fun ev =>
          match ev with
          | Sent r => if eq_str (default JNull (r !! "@type")) method
                      then Some r else None
          | _ => None
          end) evs.

(** *** Scenarios *)

Definition example_config (threshold : Z) : Config :=
  {| token := None; use_message_database := false; td_options := None;
     tdlib_parameters := ∅; sleep_threshold := threshold |}.

(** A running client that is logging in, with nothing pending. *)
Definition example_client (threshold : Z) (tdjson : string -> outcome)
    : Client :=
  {| config := example_config threshold; _tdjson := tdjson;
     is_running := true; is_authenticated := false; _results := ∅;
     authorization_state := JNull; __authorization := JNull;
     __login := true; __is_closing := false; workers_shutdown := false;
     next_id := 0; trace := [] |}.

(** TDLib rate-limits the first request and accepts every other one. *)
Definition flood_then_ok (k : string) : outcome :=
  if String.eqb k (key 0)
  then Error 429 "Too Many Requests: retry after 3"
  else Success ∅.

(** TDLib does not know the chat of the first request and accepts every
    other request. *)
Definition stale_then_ok (k : string) : outcome :=
  if String.eqb k (key 0) then Error 400 "Chat not found" else Success ∅.

(** TDLib answers the first two requests with "Chat not found" and the
    third with another error. *)
Definition stale_then_failing (k : string) : outcome :=
  if String.eqb k (key 0) || String.eqb k (key 1)
  then Error 400 "Chat not found"
  else Error 500 "Internal error".

(** TDLib knows no chat at all. *)
Definition always_stale (k : string) : outcome :=
  Error 400 "Chat not found".

(** TDLib does not know the chat of the first request and fails every
    other request with an error of its own. *)
Definition stale_then_refused (k : string) : outcome :=
  if String.eqb k (key 0) then Error 400 "Chat not found"
  else Error 500 "Internal Server Error".

Definition send_message : dict :=
  {["@type" := JStr "sendMessage"; "chat_id" := JInt 42]}.

Definition forward_message : dict :=
  {["@type" := JStr "forwardMessage"; "chat_id" := JInt 42;
    "reply_to_message_id" := JInt 0; "message_id" := JInt 7]}.

Definition edit_message : dict :=
  {["@type" := JStr "editMessageText"; "chat_id" := JInt 42;
    "message_id" := JInt 7]}.

(** *** The answers [invoke] acts upon *)

(** The guards of the two retry policies, on the answer to the first
    request. *)
Definition is_rate_limit (o : outcome) : bool :=
  match o with
  | Error code _ => (code =? 429)%Z
  | Success _ => false
  end.

Definition is_stale_chat (cfg : Config) (payload : dict) (o : outcome) : bool :=
  match o with
  | Error code message =>
      negb (use_message_database cfg)
      && ((code =? 400)%Z
          && String.eqb message "Chat not found"
          && bool_decide (is_Some (payload !! "chat_id")))
  | Success _ => false
  end.

(** No key the client has yet to generate is in the pending table. *)
Definition fresh (c : Client) : Prop :=
  forall n, (next_id c <= n)%nat -> _results c !! key n = None.

(** TDLib fails every request with an error of its own. *)
Definition always_failing (k : string) : outcome :=
  Error 500 "Internal Server Error".

(** A message that replies to nothing, with [None] for the id. *)
Definition reply_to_none : dict :=
  {["@type" := JStr "sendMessage"; "chat_id" := JInt 42;
    "reply_to_message_id" := JNull]}.

End Calls.

(** ** The authorization state machine *)
Module Auth.
Import Py Runtime Calls.

(** Methods that talk to the operator: the lines still to be read from the
    terminal are threaded next to the client.  Reading when no line is left
    raises [EOFError]. *)
Definition IO (A : Type) : Type :=
  list string -> Client -> (exn + A) * Client * list string.

Definition EOFError : exn := Exception "EOFError".

(** [s.lower()]: below 256 the capital letters are "A" to "Z" and the
    code points 192 to 222 but for the multiplication sign (215); each has
    its small letter 32 further on. *)
Definition lower_char (a : ascii) : ascii :=
  let n := nat_of_ascii a in
  if (Nat.leb 65 n && Nat.leb n 90)
     || (Nat.leb 192 n && Nat.leb n 222 && negb (Nat.eqb n 215))
  then ascii_of_nat (n + 32) else a.

Fixpoint lower (s : string) : string :=
  match s with
  | EmptyString => EmptyString
  | String a s' => String (lower_char a) (lower s')
  end.

Definition is_yes (y_n : string) : bool :=
  String.eqb (lower y_n) "y" || String.eqb (lower y_n) "yes".

(** [print(res["message"])] for a failed call. *)
Definition print_error (res : Result) (c : Client) : Client :=
  match result res with
  | Some (Error _ message) => emit (Printed (ErrorMessage message)) c
  | _ => c
  end.

Definition error_message (res : Result) : string :=
  match result res with
  | Some (Error _ message) => message
  | _ => EmptyString
  end.

Section Auth.
(** The depth of nested [invoke] activations still allowed (see
    [Calls.invoke]). *)
Context (depth : nat).

(** [_set_options]: one [setOption] request per configured option, sent
    without a future. *)
Fixpoint send_options (l : list (string * json)) : M unit :=
  match l with
  | [] => mret tt
  | (k, v) :: l' =>
      data ← match v with
             | JStr _ => mret {["@type" := JStr "optionValueString"; "value" := v]}
             | JInt _ => mret {["@type" := JStr "optionValueInteger"; "value" := v]}
             | JBool _ => mret {["@type" := JStr "optionValueBoolean"; "value" := v]}
             | _ => raise (ValueError "unsupported option type")
             end;
      __send {["@type" := JStr "setOption"; "name" := JStr k;
               "value" := JObj data;
               "@extra" := JObj {["option" := JStr k; "value" := v;
                                  "id" := JStr EmptyString]}]};;
      send_options l'
  end.

Definition _set_options : M unit :=
  td_options ← read (fun c => td_options (config c));
  match td_options with
  | Some l => send_options l
  | None => mret tt
  end.

(** [set_td_paramaters]: the keyword arguments computed from the
    constructor arguments are [tdlib_parameters]. *)
Definition set_td_paramaters : M unit :=
  cfg ← read config;
  res ← invoke depth
          (<["@type" := JStr "setTdlibParameters"]>
             (<["use_message_database" := JBool (use_message_database cfg)]>
                (tdlib_parameters cfg)));
  if is_error res then raise (AuthorizationError (error_message res))
  else mret tt.

Definition checkAuthenticationBotToken_data (token : string) : dict :=
  {["@type" := JStr "checkAuthenticationBotToken"; "token" := JStr token]}.

Definition setAuthenticationPhoneNumber_data (phone_number : string) : dict :=
  {["@type" := JStr "setAuthenticationPhoneNumber";
    "phone_number" := JStr phone_number; "settings" := JNull]}.

(** [checkAuthenticationBotToken] when the text has a colon, else
    [setAuthenticationPhoneNumber]. *)
Definition submit_phone_or_token (text : string) : M Result :=
  if is_substring ":" text
  then invoke depth (checkAuthenticationBotToken_data text)
  else invoke depth (setAuthenticationPhoneNumber_data text).

Fixpoint phone_number_loop (lines : list string) (c : Client)
    : (exn + unit) * Client * list string :=
  if is_running c then
    match lines with
    | [] => (inl EOFError, emit (Asked PhoneOrToken) c, [])
    | user_input :: lines1 =>
        let c1 := emit (Asked PhoneOrToken) c in
        if negb (String.eqb user_input EmptyString) then
          match lines1 with
          | [] => (inl EOFError, emit (Asked (IsCorrect user_input)) c1, [])
          | y_n :: lines2 =>
              let c2 := emit (Asked (IsCorrect user_input)) c1 in
              if String.eqb y_n EmptyString || is_yes y_n then
                match submit_phone_or_token user_input c2 with
                | (inl e, c3) => (inl e, c3, lines2)
                | (inr res, c3) =>
                    if is_error res
                    then phone_number_loop lines2 (print_error res c3)
                    else (inr tt, c3, lines2)
                end
              else phone_number_loop lines2 c2
          end
        else phone_number_loop lines1 c1
    end
  else (inr tt, c, lines).

Definition __handle_authorization_state_wait_phone_number : IO unit :=
  fun lines c =>
  if negb (eq_str (authorization_state c) "authorizationStateWaitPhoneNumber")
  then (inr tt, c, lines)
  else
    match token (config c) with
    | None => phone_number_loop lines c
    | Some tk =>
        match submit_phone_or_token tk c with
        | (inl e, c') => (inl e, c', lines)
        | (inr res, c') =>
            if is_error res
            then (inl (AuthorizationError (error_message res)), c', lines)
            else (inr tt, c', lines)
        end
    end.

(** The loop shared by the email address, email code and login code
    steps: ask one line, submit it, print the error and ask again until a
    submission is accepted. *)
Fixpoint ask_and_submit (p : prompt) (data : string -> dict)
    (lines : list string) (c : Client) : (exn + unit) * Client * list string :=
  if is_running c then
    match lines with
    | [] => (inl EOFError, emit (Asked p) c, [])
    | answer :: lines' =>
        match invoke depth (data answer) (emit (Asked p) c) with
        | (inl e, c') => (inl e, c', lines')
        | (inr res, c') =>
            if is_error res
            then ask_and_submit p data lines' (print_error res c')
            else (inr tt, c', lines')
        end
    end
  else (inr tt, c, lines).

Definition setAuthenticationEmailAddress_data (email_address : string) : dict :=
  {["@type" := JStr "setAuthenticationEmailAddress";
    "email_address" := JStr email_address]}.

Definition __handle_authorization_state_wait_email_address : IO unit :=
  fun lines c =>
  if eq_str (authorization_state c) "authorizationStateWaitEmailAddress"
  then (inr tt, c, lines)
  else ask_and_submit EmailAddress setAuthenticationEmailAddress_data lines c.

Definition checkAuthenticationEmailCode_data (code : string) : dict :=
  {["@type" := JStr "checkAuthenticationEmailCode";
    "code" := JObj {["@type" := JStr "emailAddressAuthenticationCode";
                     "code" := JStr code]}]}.

Definition __handle_authorization_state_wait_email_code : IO unit :=
  fun lines c =>
  if negb (eq_str (authorization_state c) "authorizationStateWaitEmailCode")
  then (inr tt, c, lines)
  else ask_and_submit EmailCode checkAuthenticationEmailCode_data lines c.

Definition code_type_text (code_type : json) : json :=
  if eq_str code_type "authenticationCodeTypeTelegramMessage" then JStr "Telegram app"
  else if eq_str code_type "authenticationCodeTypeSms" then JStr "SMS"
  else if eq_str code_type "authenticationCodeTypeCall" then JStr "phone call"
  else if eq_str code_type "authenticationCodeTypeFlashCall" then JStr "phone flush call"
  else if eq_str code_type "authenticationCodeTypeMissedCall" then JStr "phone missed call"
  else if eq_str code_type "authenticationCodeTypeFragment" then JStr "fragment.com SMS"
  else code_type.

Definition checkAuthenticationCode_data (code : string) : dict :=
  {["@type" := JStr "checkAuthenticationCode"; "code" := JStr code]}.

Definition __handle_authorization_state_wait_code : IO unit :=
  fun lines c =>
  if negb (eq_str (authorization_state c) "authorizationStateWaitCode")
  then (inr tt, c, lines)
  else
    match (code_info ← subscript (__authorization c) "code_info";
           type ← subscript code_info "type";
           subscript type "@type") with
    | inl e => (inl e, c, lines)
    | inr code_type =>
        ask_and_submit (LoginCode (code_type_text code_type))
          checkAuthenticationCode_data lines c
    end.

Definition registerUser_data (first_name last_name : string) : dict :=
  {["@type" := JStr "registerUser"; "first_name" := JStr first_name;
    "last_name" := JStr last_name]}.

Fixpoint registration_loop (lines : list string) (c : Client)
    : (exn + unit) * Client * list string :=
  if is_running c then
    match lines with
    | [] => (inl EOFError, emit (Asked FirstName) c, [])
    | first_name :: lines1 =>
        let c1 := emit (Asked FirstName) c in
        match lines1 with
        | [] => (inl EOFError, emit (Asked LastName) c1, [])
        | last_name :: lines2 =>
            match invoke depth (registerUser_data first_name last_name)
                    (emit (Asked LastName) c1) with
            | (inl e, c2) => (inl e, c2, lines2)
            | (inr res, c2) =>
                if is_error res
                then registration_loop lines2 (print_error res c2)
                else (inr tt, c2, lines2)
            end
        end
    end
  else (inr tt, c, lines).

Definition __handle_authorization_state_wait_registration : IO unit :=
  fun lines c =>
  if negb (eq_str (authorization_state c) "authorizationStateWaitRegistration")
  then (inr tt, c, lines)
  else registration_loop lines c.

Definition checkAuthenticationPassword_data (password : json) : dict :=
  {["@type" := JStr "checkAuthenticationPassword"; "password" := password]}.

Definition checkAuthenticationPasswordRecoveryCode_data (code : string) : dict :=
  {["@type" := JStr "checkAuthenticationPasswordRecoveryCode";
    "recovery_code" := JStr code]}.

Definition recoverAuthenticationPassword_data (code : string) : dict :=
  {["@type" := JStr "recoverAuthenticationPassword";
    "recovery_code" := JStr code; "new_password" := JNull;
    "new_hint" := JNull]}.

(** The inner [while True] loop of the recovery sub-flow; it is left by
    [return] or by an exception only. *)
Fixpoint recovery_code_loop (lines : list string) (c : Client)
    : (exn + unit) * Client * list string :=
  match subscript (__authorization c) "recovery_email_address_pattern" with
  | inl e => (inl e, c, lines)
  | inr pattern =>
      match lines with
      | [] => (inl EOFError, emit (Asked (RecoveryCode pattern)) c, [])
      | recovery_code :: lines' =>
          match invoke depth
                  (checkAuthenticationPasswordRecoveryCode_data recovery_code)
                  (emit (Asked (RecoveryCode pattern)) c) with
          | (inl e, c1) => (inl e, c1, lines')
          | (inr res, c1) =>
              if is_error res
              then recovery_code_loop lines' (print_error res c1)
              else
                match invoke depth
                        (recoverAuthenticationPassword_data recovery_code) c1 with
                | (inl e, c2) => (inl e, c2, lines')
                | (inr recover_res, c2) =>
                    if is_error recover_res
                    then (inl (AuthorizationError (error_message recover_res)),
                          c2, lines')
                    else (inr tt, c2, lines')
                end
          end
      end
  end.

(** The loop of the password step.  [password] is the one-element tuple the
    source builds around what [getpass] returns (an array once encoded), so
    the comparison with the empty string is the source's. *)
Fixpoint password_loop (lines : list string) (c : Client)
    : (exn + unit) * Client * list string :=
  if is_running c then
    match subscript (__authorization c) "has_recovery_email_address" with
    | inl e => (inl e, c, lines)
    | inr can_recover =>
        match lines with
        | [] => (inl EOFError, emit (Asked (Password (truthy can_recover))) c, [])
        | line :: lines1 =>
            let c1 := emit (Asked (Password (truthy can_recover))) c in
            let password := JArr [JStr line] in
            if eq_str password EmptyString then
              if truthy can_recover then
                match lines1 with
                | [] => (inl EOFError, emit (Asked ConfirmRecovery) c1, [])
                | y_n :: lines2 =>
                    let c2 := emit (Asked ConfirmRecovery) c1 in
                    if is_yes y_n then
                      match invoke depth
                              {["@type" := JStr "requestAuthenticationPasswordRecovery"]}
                              c2 with
                      | (inl e, c3) => (inl e, c3, lines2)
                      | (inr res, c3) =>
                          if is_error res
                          then (inl (AuthorizationError (error_message res)),
                                c3, lines2)
                          else recovery_code_loop lines2 c3
                      end
                    else password_loop lines2 c2
                end
              else password_loop lines1 (emit (Printed CannotRecover) c1)
            else
              match invoke depth (checkAuthenticationPassword_data password) c1 with
              | (inl e, c2) => (inl e, c2, lines1)
              | (inr res, c2) =>
                  if is_error res
                  then password_loop lines1 (print_error res c2)
                  else (inr tt, c2, lines1)
              end
        end
    end
  else (inr tt, c, lines).

Definition __handle_authorization_state_wait_password : IO unit :=
  fun lines c =>
  if negb (eq_str (authorization_state c) "authorizationStateWaitPassword")
  then (inr tt, c, lines)
  else
    match subscript (__authorization c) "password_hint" with
    | inl e => (inl e, c, lines)
    | inr hint =>
        password_loop lines
          (if truthy hint then emit (Printed (PasswordHint hint)) c else c)
    end.

(** Running a method that does not read the terminal. *)
Definition no_input {A} (m : M A) : IO A :=
  fun lines c => let '(r, c') := m c in (r, c', lines).

(** [__handle_authorization_state]. *)
Definition __handle_authorization_state (update : dict) : IO unit :=
  fun lines c =>
  match getitem update "@type" with
  | inl e => (inl e, c, lines)
  | inr ty =>
  if eq_str ty "updateAuthorizationState" then
    let old_authorization_state := authorization_state c in
    match (payload ← getitem update "authorization_state";
           state ← subscript payload "@type";
           mret (state, payload)) with
    | inl e => (inl e, c, lines)
    | inr (state, payload) =>
        let c := with_authorization state payload c in
        match state with
        | JStr s =>
            let c := emit (Logged (AuthorizationStateChanged
                                     (removeprefix s "authorizationState"))) c in
            if __login c then
              if eq_str state "authorizationStateWaitTdlibParameters" then
                no_input (_set_options;; set_td_paramaters) lines c
              else if eq_str state "authorizationStateWaitPhoneNumber" then
                __handle_authorization_state_wait_phone_number lines
                  (emit (Printed Welcome) c)
              else if eq_str state "authorizationStateWaitEmailAddress" then
                __handle_authorization_state_wait_email_address lines c
              else if eq_str state "authorizationStateWaitEmailCode" then
                __handle_authorization_state_wait_email_code lines c
              else if eq_str state "authorizationStateWaitCode" then
                __handle_authorization_state_wait_code lines c
              else if eq_str state "authorizationStateWaitRegistration" then
                __handle_authorization_state_wait_registration lines c
              else if negb (eq_str old_authorization_state
                              "authorizationStateWaitPassword")
                      && eq_str state "authorizationStateWaitPassword" then
                __handle_authorization_state_wait_password lines c
              else if eq_str state "authorizationStateClosed"
                      && negb (__is_closing c) then
                (inr tt, __stop_client c, lines)
              else (inr tt, c, lines)
            else (inr tt, c, lines)
        | _ => (inl (Exception "AttributeError"), c, lines)
        end
    end
  else (inr tt, c, lines)
  end.

End Auth.

(** What a step did on the terminal and on the wire. *)
Definition asked (evs : list event) : list prompt :=
  omap (fun ev => match ev with Asked p => Some p | _ => None end) evs.

Definition sent (evs : list event) : list dict :=
  omap (fun ev => match ev with Sent r => Some r | _ => None end) evs.

(** *** Scenarios *)

(** An "updateAuthorizationState" update for the state [state], whose
    payload has the fields [fields] besides. *)
Definition authorization_update (state : string) (fields : dict) : dict :=
  {["@type" := JStr "updateAuthorizationState";
    "authorization_state" := JObj (<["@type" := JStr state]> fields)]}.

Definition password_fields : dict :=
  {["password_hint" := JStr EmptyString;
    "has_recovery_email_address" := JBool false]}.

(** TDLib accepts every request. *)
Definition accepting (k : string) : outcome := Success ∅.

(** A running client that is logging in and whose last authorization
    state was [state]. *)
Definition client_in (state : json) : Client :=
  with_authorization state JNull (example_client 0 accepting).

(** What a step printed on the terminal. *)
Definition printed_on (evs : list event) : list printed :=
  omap (fun ev => match ev with Printed p => Some p | _ => None end) evs.

(** The request [_set_options] sends for one option: the name of the type
    of a supported value, the request built around it, and the requests of
    a list of options. *)
Definition option_value_type (v : json) : option string :=
  match v with
  | JStr _ => Some "optionValueString"
  | JInt _ => Some "optionValueInteger"
  | JBool _ => Some "optionValueBoolean"
  | _ => None
  end.

Definition setOption_request (k : string) (v : json) (value_type : string)
    : dict :=
  {["@type" := JStr "setOption"; "name" := JStr k;
    "value" := JObj {["@type" := JStr value_type; "value" := v]};
    "@extra" := JObj {["option" := JStr k; "value" := v;
                       "id" := JStr EmptyString]}]}.

Definition option_requests (l : list (string * json)) : list dict :=
  omap (fun kv => setOption_request (fst kv) (snd kv)
                    <$> option_value_type (snd kv)) l.

(** *** More scenarios *)

(** A running client that is logging in, whose last authorization state
    was [state] with the payload [payload], in front of the TDLib
    [tdjson]. *)
Definition logging_in (state : string) (payload : dict)
    (tdjson : string -> outcome) : Client :=
  with_authorization (JStr state) (JObj payload) (example_client 0 tdjson).

(** The same client, constructed with the token [tk] and the options
    [options]. *)
Definition configured (tk : option string)
    (options : option (list (string * json))) (c : Client) : Client :=
  {| config := {| token := tk;
                  use_message_database := use_message_database (config c);
                  td_options := options;
                  tdlib_parameters := tdlib_parameters (config c);
                  sleep_threshold := sleep_threshold (config c) |};
     _tdjson := _tdjson c; is_running := is_running c;
     is_authenticated := is_authenticated c; _results := _results c;
     authorization_state := authorization_state c;
     __authorization := __authorization c; __login := __login c;
     __is_closing := __is_closing c; workers_shutdown := workers_shutdown c;
     next_id := next_id c; trace := trace c |}.

(** TDLib refuses every request as unauthorized. *)
Definition refusing (k : string) : outcome := Error 401 "Unauthorized".

(** TDLib finds the first two submissions invalid and accepts the
    third. *)
Definition invalid_twice (k : string) : outcome :=
  if String.eqb k (key 0) || String.eqb k (key 1)
  then Error 400 "PHONE_CODE_INVALID"
  else Success ∅.

(** The payload of WaitPassword for an account that has a recovery email
    address. *)
Definition recoverable_password_fields : dict :=
  {["password_hint" := JStr EmptyString;
    "has_recovery_email_address" := JBool true;
    "recovery_email_address_pattern" := JStr "a***@example.com"]}.

End Auth.

(** ** The dispatcher *)
Module Dispatch.
Import Py Runtime.

(** The handlers [_process_update] runs in line, on the receiver thread. *)
Inductive inline_handler : Type :=
| MessageSucceeded
| MessageFailed
| ConnectionState
| UpdateOption
| UpdateUser.

(** [x in self._results]: the keys are strings; a [dict] or a [list] cannot
    be hashed. *)
Definition pending (x : json) (t : gmap string Result) : exn + option Result :=
  match x with
  | JStr k => inr (t !! k)
  | JArr _ | JObj _ => inl (TypeError "unhashable type")
  | _ => inr None
  end.

Section Dispatch.
(** What the in-line handlers do with an update is left open: the
    dispatcher only calls them. *)
Context (inline : inline_handler -> dict -> M unit).

Definition _process_update (update : dict) : M unit :=
  let update := if bool_decide (is_Some (update !! "@client_id"))
                then delete "@client_id" update else update in
  match update !! "@type" with
  | None => tell (Logged (UnexpectedUpdate update))
  | Some ty =>
      match update !! "@extra" with
      | Some extra =>
          key ← lift (subscript extra "id");
          t ← read _results;
          found ← lift (pending key t);
          match found, key with
          | Some r, JStr k => fun c =>
              (inr tt, emit (Resolved (set_result update r))
                         (with_results (delete k (_results c)) c))
          | _, _ =>
              if eq_str ty "error" then
                is_option ← lift (contains extra "option");
                if is_option : bool then
                  option ← lift (subscript extra "option");
                  message ← lift (getitem update "message");
                  tell (Logged (OptionError option message))
                else mret tt
              else mret tt
          end
      | None =>
          (if eq_str ty "updateAuthorizationState"
           then submit (HandleAuthorizationState update)
           else if eq_str ty "updateMessageSendSucceeded"
           then inline MessageSucceeded update
           else if eq_str ty "updateMessageSendFailed"
           then inline MessageFailed update
           else if eq_str ty "updateConnectionState"
           then inline ConnectionState update
           else if eq_str ty "updateOption"
           then inline UpdateOption update
           else if eq_str ty "updateUser"
           then inline UpdateUser update
           else mret tt);;
          submit (UpdateWorker update)
      end
  end.

(** [__listen_loop] on the messages [__receive] returns ([None] when the
    poll timed out).  The result tells whether the loop is still polling
    once they are consumed; it has stopped as soon as [is_running] is false
    or an exception came out of [_process_update]. *)
Fixpoint listen (incoming : list (option dict)) (c : Client) : bool * Client :=
  match incoming with
  | [] => (true, c)
  | received :: incoming' =>
      if is_running c then
        match received with
        | None => listen incoming' c
        | Some update =>
            match _process_update update c with
            | (inr _, c') => listen incoming' c'
            | (inl e, c') =>
                (false,
                 with_is_running false
                   (if is_Exception e
                    then emit (Logged (ListenLoopException e)) c' else c'))
            end
        end
      else (false, with_is_running false c)
  end.

Definition __listen_loop (incoming : list (option dict)) (c : Client)
    : bool * Client :=
  listen incoming (with_is_running true c).

End Dispatch.

(** The futures resolved and the work handed to the pool, in a trace. *)
Definition resolved (evs : list event) : list Result :=
  omap (fun ev => match ev with Resolved r => Some r | _ => None end) evs.

Definition submitted (evs : list event) : list task :=
  omap (fun ev => match ev with Submitted t => Some t | _ => None end) evs.

(** *** Scenarios *)

(** In-line handlers that do nothing. *)
Definition idle_handlers (h : inline_handler) (update : dict) : M unit :=
  mret tt.

(** A message without "@type" that echoes the key of a pending call. *)
Definition untyped_message : dict :=
  {["@client_id" := JInt 1; "@extra" := JObj {["id" := JStr (key 0)]}]}.

Definition pending_call : Result :=
  {| id := key 0; request := attach (key 0) Calls.send_message;
     result := None |}.

(** A running client with one call pending under the first key. *)
Definition client_with_pending_call : Client :=
  with_results {[key 0 := pending_call]}
    (with_next_id 1 (Calls.example_client 0 Calls.flood_then_ok)).

(** The update types [_process_update] has an in-line handler for. *)
Definition has_inline (ty : json) : bool :=
  eq_str ty "updateMessageSendSucceeded"
  || eq_str ty "updateMessageSendFailed"
  || eq_str ty "updateConnectionState"
  || eq_str ty "updateOption"
  || eq_str ty "updateUser".

(** *** More scenarios *)

(** TDLib's answer to the pending call. *)
Definition response : dict :=
  {["@type" := JStr "message"; "id" := JInt 7; "@client_id" := JInt 1;
    "@extra" := JObj {["id" := JStr (key 0)]}]}.

(** The error TDLib answers to a [setOption] request of [_set_options]. *)
Definition option_error : dict :=
  {["@type" := JStr "error"; "code" := JInt 400;
    "message" := JStr "Option can't be set";
    "@extra" := JObj {["option" := JStr "online"; "value" := JBool true;
                       "id" := JStr EmptyString]}]}.

Definition update_new_chat : dict :=
  {["@type" := JStr "updateNewChat"; "chat" := JObj {["id" := JInt 42]}]}.

(** An answer whose "@extra" lost its key. *)
Definition response_without_id : dict :=
  {["@type" := JStr "ok"; "@extra" := JObj ∅]}.

End Dispatch.

(** * Properties *)

(** ** Built-ins *)
Module PyFacts.
Import Py.

Lemma strip_prefix_Some p s r : strip_prefix p s = Some r <-> s = p +:+ r.
Proof.
  revert s; induction p as [|a p IH]; intros s; simpl.
  - split; [intros [= ->]; reflexivity | intros ->; reflexivity].
  - destruct s as [|b s]; [split; discriminate|].
    destruct (Ascii.eqb_spec a b) as [->|Hab].
    + rewrite IH. split; [intros ->; reflexivity | intros [= ->]; reflexivity].
    + split; [discriminate | intros [= -> _]; contradiction].
Qed.

Lemma append_cancel p a b : p +:+ a = p +:+ b -> a = b.
Proof.
  induction p as [|x p IH]; cbn; intros H; [exact H|].
  injection H as H. auto.
Qed.

Lemma removeprefix_present p r : removeprefix (p +:+ r) p = r.
Proof.
  unfold removeprefix.
  destruct (strip_prefix p (p +:+ r)) as [r'|] eqn:E.
  - apply strip_prefix_Some in E. symmetry. eapply append_cancel, E.
  - assert (H : strip_prefix p (p +:+ r) = Some r) by (by apply strip_prefix_Some).
    congruence.
Qed.


(** *** [int] reads what [str] writes *)

(** The digits of a number, as [str] writes them ([pretty] is the decimal
    notation of a number, without sign for a natural number, with a leading
    "-" for a negative integer). *)
Lemma digit_of_pretty_N_char (y : N) :
  (y < 10)%N -> digit_of (pretty_N_char y) = Some (Z.of_N y).
Proof.
  intros Hy.
  assert (H : (y = 0 \/ y = 1 \/ y = 2 \/ y = 3 \/ y = 4 \/ y = 5 \/ y = 6
               \/ y = 7 \/ y = 8 \/ y = 9)%N) by lia.
  repeat (destruct H as [->|H]; [reflexivity|]). by subst.
Qed.

Lemma digit_not_space c d : digit_of c = Some d -> is_space c = false.
Proof.
  intros H.
  destruct c as [[|] [|] [|] [|] [|] [|] [|] [|]];
    try reflexivity; vm_compute in H; discriminate.
Qed.


Lemma append_assoc (a b c : string) : (a +:+ b) +:+ c = a +:+ (b +:+ c).
Proof.
  induction a as [|x a IH]; [done|].
  change (String x ((a +:+ b) +:+ c) = String x (a +:+ (b +:+ c))).
  by rewrite IH.
Qed.

Lemma append_nil_r (a : string) : a +:+ EmptyString = a.
Proof.
  induction a as [|x a IH]; [done|].
  change (String x (a +:+ EmptyString) = String x a). by rewrite IH.
Qed.

Lemma pretty_N_go_app (x : N) : forall s,
  pretty_N_go x s = pretty_N_go x EmptyString +:+ s.
Proof.
  induction (N.lt_wf_0 x) as [x _ IH]. intros s.
  destruct (N.eq_0_gt_0_cases x) as [->|Hx]; [done|].
  rewrite (pretty_N_go_step x s), (pretty_N_go_step x EmptyString) by done.
  rewrite IH by (by apply N.div_lt).
  rewrite (IH (x `div` 10)%N (N.div_lt x 10 Hx eq_refl) (String _ EmptyString)).
  by rewrite append_assoc.
Qed.

Lemma digits_pretty_N_go (x : N) : forall s b,
  digits 0 b (pretty_N_go x EmptyString +:+ s)
  = digits (Z.of_N x) (b || (0 <? x)%N) s.
Proof.
  induction (N.lt_wf_0 x) as [x _ IH]. intros s b.
  destruct (N.eq_0_gt_0_cases x) as [->|Hx].
  { cbn. by rewrite orb_false_r. }
  rewrite <- pretty_N_go_app, pretty_N_go_step by done.
  rewrite pretty_N_go_app, IH by (by apply N.div_lt).
  cbn [digits].
  rewrite digit_of_pretty_N_char by (by apply N.mod_lt).
  apply N.ltb_lt in Hx. rewrite Hx, orb_true_r. f_equal.
  pose proof (N.div_mod x 10 ltac:(done)). lia.
Qed.

Lemma lstrip_pretty_N_go (x : N) : forall s,
  lstrip s = s -> lstrip (pretty_N_go x s) = pretty_N_go x s.
Proof.
  induction (N.lt_wf_0 x) as [x _ IH]. intros s Hs.
  destruct (N.eq_0_gt_0_cases x) as [->|Hx]; [done|].
  rewrite pretty_N_go_step by done. apply IH; [by apply N.div_lt|].
  cbn. by erewrite digit_not_space
    by (apply digit_of_pretty_N_char; by apply N.mod_lt).
Qed.

Lemma rstrip_pretty_N_go (x : N) : forall s,
  rstrip s = s -> rstrip (pretty_N_go x s) = pretty_N_go x s.
Proof.
  induction (N.lt_wf_0 x) as [x _ IH]. intros s Hs.
  destruct (N.eq_0_gt_0_cases x) as [->|Hx]; [done|].
  rewrite pretty_N_go_step by done. apply IH; [by apply N.div_lt|].
  cbn. rewrite Hs. destruct s; [|done].
  by erewrite digit_not_space
    by (apply digit_of_pretty_N_char; by apply N.mod_lt).
Qed.

Lemma pretty_N_go_head (x : N) : forall s,
  (0 < x)%N ->
  exists c r d, pretty_N_go x s = String c r /\ digit_of c = Some d.
Proof.
  induction (N.lt_wf_0 x) as [x _ IH]. intros s Hx.
  rewrite pretty_N_go_step by done.
  destruct (N.eq_0_gt_0_cases (x `div` 10)) as [->|Hy].
  - do 3 eexists. split; [done|].
    apply digit_of_pretty_N_char. by apply N.mod_lt.
  - apply IH; [by apply N.div_lt | done].
Qed.

Lemma rstrip_cons c s :
  rstrip (String c s)
  = match rstrip s with
    | EmptyString => if is_space c then EmptyString else String c EmptyString
    | r => String c r
    end.
Proof. reflexivity. Qed.

(** *** The digits [int] counts *)

Lemma count_digits_app (a b : string) :
  count_digits (a +:+ b) = (count_digits a + count_digits b)%N.
Proof.
  induction a as [|c a IH]; [done|].
  change (count_digits (String c (a +:+ b))
          = (count_digits (String c a) + count_digits b)%N).
  cbn [count_digits]. destruct (digit_of c); lia.
Qed.




(** A number has at most [n] digits exactly when it is below [10 ^ n]. *)
Lemma count_digits_pretty_N_go (x : N) : forall n,
  (count_digits (pretty_N_go x EmptyString) <= n <-> x < 10 ^ n)%N.
Proof.
  induction (N.lt_wf_0 x) as [x _ IH]. intros n.
  destruct (N.eq_0_gt_0_cases x) as [->|Hx].
  { change (pretty_N_go 0 EmptyString) with EmptyString. cbn [count_digits].
    split; intros _; [|lia].
    apply N.neq_0_lt_0, N.pow_nonzero. done. }
  rewrite pretty_N_go_step, pretty_N_go_app, count_digits_app by done.
  cbn [count_digits].
  rewrite digit_of_pretty_N_char by (by apply N.mod_lt).
  destruct (N.eq_0_gt_0_cases n) as [->|Hn].
  { change (10 ^ 0)%N with 1%N. lia. }
  replace n with (N.succ (N.pred n)) by lia.
  rewrite N.pow_succ_r'.
  specialize (IH (x `div` 10)%N (N.div_lt x 10 Hx eq_refl) (N.pred n)).
  pose proof (N.div_mod x 10 ltac:(done)) as Hdiv.
  pose proof (N.mod_lt x 10 ltac:(done)) as Hmod.
  generalize dependent (10 ^ N.pred n)%N. intros q IH.
  split.
  - intros H. assert (x `div` 10 < q)%N by (apply IH; lia). lia.
  - intros H. assert (x `div` 10 < q)%N as Hq%IH
      by (apply N.Div0.div_lt_upper_bound; exact H).
    lia.
Qed.



(** A text that starts with a digit has no sign to take off. *)
Lemma int_unsigned c r d :
  digit_of c = Some d -> strip (String c r) = String c r ->
  (count_digits (String c r) <= int_max_str_digits)%N ->
  int (String c r) = digits 0 false (String c r).
Proof.
  intros Hc Hs Hn. unfold int. rewrite Hs.
  apply N.ltb_ge in Hn. rewrite Hn.
  destruct c as [[|] [|] [|] [|] [|] [|] [|] [|]];
    try reflexivity; vm_compute in Hc; discriminate.
Qed.

Lemma int_pretty_pos (p : positive) :
  strip (pretty_N_go (Npos p) EmptyString) = pretty_N_go (Npos p) EmptyString /\
  digits 0 false (pretty_N_go (Npos p) EmptyString) = Some (Zpos p).
Proof.
  split.
  - unfold strip. by rewrite lstrip_pretty_N_go, rstrip_pretty_N_go.
  - rewrite <- (append_nil_r (pretty_N_go _ _)) at 1.
    by rewrite digits_pretty_N_go.
Qed.

(** The digits of [str(z)] are those of the absolute value of [z]. *)
Lemma strip_pretty (z : Z) :
  z <> 0%Z ->
  strip (pretty z) = pretty z /\
  count_digits (pretty z)
  = count_digits (pretty_N_go (Z.abs_N z) EmptyString).
Proof.
  destruct z as [|p|p]; [done| |]; intros _.
  - change (pretty (Zpos p)) with (pretty_N_go (Npos p) EmptyString).
    split; [apply int_pretty_pos | done].
  - change (pretty (Zneg p))
      with (String "-" (pretty_N_go (Npos p) EmptyString)).
    split; [|done].
    destruct (int_pretty_pos p) as [Hs _]. unfold strip in Hs.
    rewrite lstrip_pretty_N_go in Hs by done.
    destruct (pretty_N_go_head (Npos p) EmptyString) as (c & r & d & E & Hc);
      [done|].
    rewrite E in *. unfold strip.
    change (lstrip (String "-" (String c r))) with (String "-" (String c r)).
    by rewrite rstrip_cons, Hs.
Qed.

Lemma abs_below_pow (z : Z) (n : N) :
  (Z.abs z < 10 ^ Z.of_N n)%Z <-> (Z.abs_N z < 10 ^ n)%N.
Proof.
  rewrite <- (N2Z.inj_abs_N z).
  change 10%Z with (Z.of_N 10). rewrite <- N2Z.inj_pow. lia.
Qed.

(** [int] reads back what [str] wrote, as long as the number has no more
    digits than [int] accepts. *)
Lemma int_pretty (z : Z) :
  (Z.abs z < 10 ^ 4300)%Z -> int (pretty z) = Some z.
Proof.
  intros Hz. destruct (Z.eq_dec z 0%Z) as [->|Hnz]; [reflexivity|].
  destruct (strip_pretty z Hnz) as [Hs Hn].
  assert (Hc : (count_digits (pretty z) <= int_max_str_digits)%N).
  { rewrite Hn. apply count_digits_pretty_N_go.
    by apply (abs_below_pow z 4300). }
  destruct z as [|p|p]; [done| |].
  - change (pretty (Zpos p)) with (pretty_N_go (Npos p) EmptyString) in *.
    destruct (int_pretty_pos p) as [_ Hd].
    destruct (pretty_N_go_head (Npos p) EmptyString) as (c & r & d & E & Hd');
      [done|].
    rewrite E in *. by rewrite (int_unsigned c r d).
  - unfold int. rewrite Hs. apply N.ltb_ge in Hc. rewrite Hc.
    change (pretty (Zneg p))
      with (String "-" (pretty_N_go (Npos p) EmptyString)).
    destruct (int_pretty_pos p) as [_ Hd].
    change (Z.opp <$> digits 0 false (pretty_N_go (Npos p) EmptyString)
            = Some (Zneg p)).
    by rewrite Hd.
Qed.

(** Beyond that, [int] raises. *)
Lemma int_pretty_large (z : Z) :
  (10 ^ 4300 <= Z.abs z)%Z -> int (pretty z) = None.
Proof.
  intros Hz.
  assert (Hnz : z <> 0%Z).
  { intros ->. change (Z.abs 0) with 0%Z in Hz.
    pose proof (Z.pow_pos_nonneg 10 4300 eq_refl) as Hpos.
    generalize dependent (10 ^ 4300)%Z. lia. }
  destruct (strip_pretty z Hnz) as [Hs Hn].
  unfold int. rewrite Hs, Hn.
  destruct (N.ltb_spec int_max_str_digits
              (count_digits (pretty_N_go (Z.abs_N z) EmptyString)))
    as [_|Hle]; [done|].
  apply count_digits_pretty_N_go, (abs_below_pow z 4300) in Hle.
  change (Z.of_N 4300) with 4300%Z in Hle.
  generalize dependent (10 ^ 4300)%Z. lia.
Qed.


End PyFacts.

(** ** The stable sort *)
Module SortFacts.
Import Py.

Section SortFacts.
Context {A : Type} (le_key : A -> A -> bool).
Context (le_total : forall a b, le_key a b = false -> le_key b a = true).
Context (le_trans : forall a b c,
            le_key a b = true -> le_key b c = true -> le_key a c = true).

Local Abbreviation R := (le_of le_key).

(** Where [sort_insert] puts an element: after the elements that are
    strictly before it, in front of the first one that is not. *)
Lemma sort_insert_split x l :
  exists l1 l2,
    l = l1 ++ l2 /\ sort_insert le_key x l = l1 ++ x :: l2 /\
    Forall (fun y => le_key x y = false) l1.
Proof.
  induction l as [|y l IH]; cbn.
  - exists [], []. auto.
  - destruct (le_key x y) eqn:E.
    + exists [], (y :: l). auto.
    + destruct IH as (l1 & l2 & -> & -> & H).
      exists (y :: l1), l2. auto.
Qed.

Lemma sort_insert_perm x l : sort_insert le_key x l ≡ₚ x :: l.
Proof.
  destruct (sort_insert_split x l) as (l1 & l2 & -> & -> & _).
  by rewrite Permutation_middle.
Qed.

Lemma sort_cons x l : sort le_key (x :: l) = sort_insert le_key x (sort le_key l).
Proof. reflexivity. Qed.

Lemma sort_perm l : sort le_key l ≡ₚ l.
Proof.
  induction l as [|x l IH]; [done|].
  by rewrite sort_cons, sort_insert_perm, IH.
Qed.

Lemma sort_insert_sorted x l :
  StronglySorted R l -> StronglySorted R (sort_insert le_key x l).
Proof.
  induction l as [|y l IH]; cbn; intros Hl.
  - repeat constructor.
  - apply StronglySorted_cons in Hl as [Hy Hl].
    destruct (le_key x y) eqn:E.
    + apply StronglySorted_cons. split.
      * constructor; [exact E|].
        eapply Forall_impl; [exact Hy|]. intros z Hz. eapply le_trans; eauto.
      * by apply StronglySorted_cons.
    + apply StronglySorted_cons. split; [|auto].
      rewrite sort_insert_perm. constructor; [|exact Hy].
      by apply le_total.
Qed.

Lemma sort_sorted l : StronglySorted R (sort le_key l).
Proof.
  induction l as [|x l IH]; [constructor|].
  rewrite sort_cons. by apply sort_insert_sorted.
Qed.

(** Sorting a sorted list changes nothing. *)
Lemma sort_id l : StronglySorted R l -> sort le_key l = l.
Proof.
  induction l as [|x l IH]; [done|]. intros Hl.
  apply StronglySorted_cons in Hl as [Hx Hl]. rewrite sort_cons, (IH Hl).
  destruct Hx as [|y l' Hxy _]; cbn; [done|]. by rewrite Hxy.
Qed.

(** Stability, in the form the registry needs: elements that were in
    sorted order before keep their relative order. *)
Lemma sublist_sort l l' :
  StronglySorted R l -> l `sublist_of` l' -> l `sublist_of` sort le_key l'.
Proof.
  intros Hl Hsub.
  induction Hsub as [|x l l' Hsub IH|x l l' Hsub IH]; rewrite ?sort_cons.
  - constructor.
  - apply StronglySorted_cons in Hl as [Hx Hl].
    specialize (IH Hl).
    destruct (sort_insert_split x (sort le_key l')) as (s1 & s2 & E & -> & Hs1).
    rewrite E in IH.
    apply sublist_app_r in IH as (k1 & k2 & -> & Hk1 & Hk2).
    assert (k1 = []) as ->.
    { destruct k1 as [|z k1]; [done|].
      apply Forall_app in Hx as [Hx _]. apply Forall_cons in Hx as [Hz _].
      apply sublist_cons_l in Hk1 as (t1 & t2 & -> & _).
      apply Forall_app in Hs1 as [_ Hs1]. apply Forall_cons in Hs1 as [Hz' _].
      unfold le_of in Hz. congruence. }
    cbn. apply sublist_inserts_l. by constructor.
  - etransitivity; [exact (IH Hl)|].
    destruct (sort_insert_split x (sort le_key l')) as (s1 & s2 & -> & -> & _).
    apply sublist_app; [done|]. by constructor.
Qed.

End SortFacts.

(** Taking elements out of a sorted list leaves it sorted. *)
Lemma sublist_sorted {A} (R : relation A) l l' :
  StronglySorted R l' -> l `sublist_of` l' -> StronglySorted R l.
Proof.
  intros Hl' Hsub. induction Hsub as [|x l l' Hsub IH|x l l' Hsub IH].
  - constructor.
  - apply StronglySorted_cons in Hl' as [Hx Hl'].
    apply StronglySorted_cons. split; [|auto].
    rewrite Forall_forall in Hx |- *. intros z Hz.
    eapply Hx, elem_of_sublist; eauto.
  - apply StronglySorted_cons in Hl' as [_ Hl']. auto.
Qed.

End SortFacts.

(** ** The handler registry *)
Module RegistryFacts.
Import Py Registry SortFacts.

Lemma sort_key_le_total a b : sort_key_le a b = false -> sort_key_le b a = true.
Proof.
  unfold sort_key_le. destruct (position a), (position b); try done.
  intros H. apply Z.leb_le. apply Z.leb_gt in H. lia.
Qed.

Lemma sort_key_le_trans a b c :
  sort_key_le a b = true -> sort_key_le b c = true -> sort_key_le a c = true.
Proof.
  unfold sort_key_le. destruct (position a), (position b), (position c);
    try done.
  rewrite !Z.leb_le. lia.
Qed.

Lemma sorted_sort l : StronglySorted key_le (sort sort_key_le l).
Proof. apply sort_sorted; [apply sort_key_le_total | apply sort_key_le_trans]. Qed.

Lemma sort_sorted_id l : StronglySorted key_le l -> sort sort_key_le l = l.
Proof. apply sort_id. Qed.

(** *** The registry as a dictionary *)

Lemma get_set k l hs : get k (set k l hs) = Some l.
Proof.
  induction hs as [|[k' l'] hs IH]; cbn.
  - by rewrite String.eqb_refl.
  - destruct (String.eqb k k') eqn:E; cbn; by rewrite E.
Qed.

Lemma get_set_ne k k' l hs : k <> k' -> get k' (set k l hs) = get k' hs.
Proof.
  intros Hne. induction hs as [|[k'' l''] hs IH]; cbn.
  - destruct (String.eqb_spec k' k); congruence.
  - destruct (String.eqb_spec k k'') as [->|]; cbn.
    + destruct (String.eqb_spec k' k''); congruence.
    + by rewrite IH.
Qed.

Lemma get_elem_of k l hs : get k hs = Some l -> (k, l) ∈ hs.
Proof.
  induction hs as [|[k' l'] hs IH]; cbn; [done|].
  destruct (String.eqb_spec k k') as [->|].
  - intros [= ->]. left.
  - intros H. right. auto.
Qed.

Lemma all_sorted_get k l hs :
  all_sorted hs -> get k hs = Some l -> StronglySorted key_le l.
Proof.
  intros Hs Hg. apply get_elem_of in Hg.
  unfold all_sorted in Hs. rewrite Forall_forall in Hs.
  exact (Hs _ Hg).
Qed.

Lemma all_sorted_set k l hs :
  all_sorted hs -> StronglySorted key_le l -> all_sorted (set k l hs).
Proof.
  unfold all_sorted. intros Hs Hl.
  induction hs as [|[k' l'] hs IH]; cbn.
  - by repeat constructor.
  - apply Forall_cons in Hs as [H1 H2].
    destruct (String.eqb k k'); constructor; auto.
Qed.

(** *** [list.insert] and the inner loop of [remove_handler] *)

Lemma insert_at_sublist {A} i (x : A) l : l `sublist_of` insert_at i x l.
Proof.
  unfold insert_at. cbv zeta.
  generalize (Z.to_nat (if (i <? 0)%Z then Z.max 0 (i + Z.of_nat (length l))
                         else Z.min i (Z.of_nat (length l)))).
  intros j. rewrite <- (take_drop j l) at 1.
  apply sublist_app; [done|]. by constructor.
Qed.

Lemma insert_at_perm {A} i (x : A) l : insert_at i x l ≡ₚ x :: l.
Proof.
  unfold insert_at.
  rewrite <- Permutation_middle. by rewrite take_drop.
Qed.

Lemma remove_first_sublist f l l' :
  remove_first f l = Some l' -> l' `sublist_of` l.
Proof.
  revert l'. induction l as [|h l IH]; cbn; intros l'; [done|].
  destruct (Nat.eqb (func h) f).
  - intros [= ->]. by constructor.
  - destruct (remove_first f l) as [l''|]; cbn; [|done].
    intros [= <-]. constructor. auto.
Qed.

(** A list that contains [l] in order and is [l] with [x] added is [l]
    with [x] put somewhere. *)
Lemma sublist_same_length {A} (l k : list A) :
  l `sublist_of` k -> length l = length k -> l = k.
Proof.
  induction 1 as [|x l k Hsub IH|x l k Hsub IH]; cbn; intros Hlen.
  - reflexivity.
  - f_equal. apply IH. lia.
  - apply sublist_length in Hsub. lia.
Qed.

Lemma sublist_perm_split {A} (x : A) (l l' : list A) :
  l `sublist_of` l' -> l' ≡ₚ x :: l ->
  exists l1 l2, l = l1 ++ l2 /\ l' = l1 ++ x :: l2.
Proof.
  induction 1 as [|y l k Hsub IH|y l k Hsub IH]; intros Hperm.
  - apply Permutation_nil_l in Hperm. discriminate.
  - rewrite Permutation_swap in Hperm. apply Permutation_cons_inv in Hperm.
    destruct (IH Hperm) as (l1 & l2 & -> & ->).
    by exists (y :: l1), l2.
  - assert (l = k) as ->.
    { apply sublist_same_length; [done|].
      apply Permutation_length in Hperm. cbn in Hperm. lia. }
    assert (y = x) as ->.
    { apply Permutation_singleton_inj.
      eapply (Permutation_app_inv_r k). exact Hperm. }
    by exists [], k.
Qed.

(** *** The invariant *)

Lemma add_handler_sorted ty f flt pos hs :
  all_sorted hs -> all_sorted (add_handler ty f flt pos hs).
Proof. intros Hs. apply all_sorted_set; [done | apply sorted_sort]. Qed.

Lemma remove_handler_sorted f hs :
  all_sorted hs -> all_sorted (snd (remove_handler f hs)).
Proof.
  unfold all_sorted. induction hs as [|[ty l] hs IH]; cbn; [done|].
  intros Hs. apply Forall_cons in Hs as [H1 H2].
  destruct (remove_first f l) as [l'|]; cbn.
  - constructor; [apply sorted_sort | done].
  - specialize (IH H2). destruct (remove_handler f hs) as [b hs'].
    by constructor.
Qed.

Lemma run_snoc ops o : run (ops ++ [o]) = apply_op (run ops) o.
Proof. unfold run. by rewrite foldl_app. Qed.

Lemma run_sorted ops : all_sorted (run ops).
Proof.
  induction ops as [|o ops IH] using rev_ind.
  - repeat constructor.
  - rewrite run_snoc. destruct o; cbn.
    + by apply add_handler_sorted.
    + by apply remove_handler_sorted.
Qed.

(** *** What one call does to the list of an update type *)

Lemma add_handler_append ty f flt hs l :
  all_sorted hs -> get ty hs = Some l ->
  get ty (add_handler ty f flt None hs)
  = Some (l ++ [{| func := f; update_type := ty; filter_ := flt;
                   position := None |}]).
Proof.
  intros Hs Hg. unfold add_handler. rewrite get_set, Hg. cbn.
  f_equal. apply sort_sorted_id.
  apply StronglySorted_app. repeat split.
  - intros a b _ Hb. apply list_elem_of_singleton in Hb as ->.
    unfold key_le, le_of, sort_key_le. cbn. by destruct (position a).
  - eapply all_sorted_get; eauto.
  - repeat constructor.
Qed.

Lemma add_handler_positioned ty f flt p hs l :
  all_sorted hs -> get ty hs = Some l ->
  exists l1 l2,
    l = l1 ++ l2 /\
    get ty (add_handler ty f flt (Some p) hs)
    = Some (l1 ++ {| func := f; update_type := ty; filter_ := flt;
                     position := Some p |} :: l2).
Proof.
  intros Hs Hg. unfold add_handler. rewrite get_set, Hg. cbn.
  set (h := {| func := f; update_type := ty; filter_ := flt;
               position := Some p |}).
  destruct (sublist_perm_split h l (sort sort_key_le (insert_at p h l)))
    as (l1 & l2 & E1 & E2).
  - apply sublist_sort; [eapply all_sorted_get; eauto|].
    apply insert_at_sublist.
  - by rewrite sort_perm, insert_at_perm.
  - exists l1, l2. by rewrite E2.
Qed.

(** *** Where a positioned handler lands *)

Lemma insert_at_index {A} (i : Z) (x : A) (l : list A) :
  insert_at i x l
  = take (insert_index i (length l)) l ++ x :: drop (insert_index i (length l)) l.
Proof. reflexivity. Qed.

Lemma filter_none {A} (P : A -> bool) (l : list A) :
  Forall (fun y => P y = false) l -> List.filter P l = [].
Proof.
  induction 1 as [|y l Hy _ IH]; [done|]. cbn. by rewrite Hy.
Qed.

(** In a sorted list, nothing behind a handler comes before it in the
    order: when the head is not below [p], nothing is; when the head is
    above [p], everything is. *)
Lemma sorted_head_not_below p x l :
  StronglySorted key_le (x :: l) -> position_below p x = false ->
  Forall (fun y => position_below p y = false) (x :: l).
Proof.
  intros Hs Hx. apply StronglySorted_cons in Hs as [Hall _].
  constructor; [exact Hx|].
  eapply Forall_impl; [exact Hall|]. intros y Hy.
  unfold key_le, le_of, sort_key_le in Hy. unfold position_below in *.
  destruct (position x), (position y); try done.
  apply Z.leb_le in Hy. apply Z.ltb_ge in Hx. apply Z.ltb_ge. lia.
Qed.

Lemma sorted_head_above p x h l :
  StronglySorted key_le (x :: l) -> position h = Some p ->
  sort_key_le x h = false ->
  Forall (fun y => position_up_to p y = false) (x :: l).
Proof.
  intros Hs Hh Hx. apply StronglySorted_cons in Hs as [Hall _].
  unfold sort_key_le in Hx. rewrite Hh in Hx.
  assert (Hx' : position_up_to p x = false).
  { unfold position_up_to. by destruct (position x). }
  constructor; [exact Hx'|].
  eapply Forall_impl; [exact Hall|]. intros y Hy.
  unfold key_le, le_of, sort_key_le in Hy. unfold position_up_to in *.
  destruct (position x), (position y); try done.
  apply Z.leb_le in Hy. apply Z.leb_gt in Hx'. apply Z.leb_gt. lia.
Qed.

Lemma up_to_none_below_none p l :
  Forall (fun y => position_up_to p y = false) l ->
  Forall (fun y => position_below p y = false) l.
Proof.
  intros Hall. eapply Forall_impl; [exact Hall|].
  intros y. unfold position_up_to, position_below.
  destruct (position y); [|done].
  intros H. apply Z.leb_gt in H. apply Z.ltb_ge. lia.
Qed.

(** What is not behind anything goes first. *)
Lemma sort_insert_first x l :
  Forall (fun y => sort_key_le x y = true) l ->
  sort_insert sort_key_le x l = x :: l.
Proof. destruct 1 as [|y l Hy _]; [done|]. cbn. by rewrite Hy. Qed.

(** [sort_insert] into a sorted list: behind the handlers with a smaller
    position. *)
Lemma sort_insert_landing h p s :
  StronglySorted key_le s -> position h = Some p ->
  sort_insert sort_key_le h s
  = take (length (List.filter (position_below p) s)) s
    ++ h :: drop (length (List.filter (position_below p) s)) s.
Proof.
  intros Hs Hh. induction s as [|y s IH]; [done|].
  cbn [sort_insert]. destruct (sort_key_le h y) eqn:E.
  - rewrite (filter_none (position_below p) (y :: s)); [done|].
    apply sorted_head_not_below; [done|].
    unfold sort_key_le in E. rewrite Hh in E. unfold position_below.
    destruct (position y); [|done].
    apply Z.leb_le in E. apply Z.ltb_ge. lia.
  - assert (Hy : position_below p y = true).
    { unfold sort_key_le in E. rewrite Hh in E. unfold position_below.
      destruct (position y); [|done].
      apply Z.leb_gt in E. by apply Z.ltb_lt. }
    cbn [List.filter]. rewrite Hy. cbn [length take drop app].
    f_equal. apply IH. by apply StronglySorted_cons in Hs as [_ Hs].
Qed.

(** The handler put at the index [j] of a sorted list, and the list sorted
    again. *)
Lemma sort_landing h p : forall l j,
  StronglySorted key_le l -> position h = Some p ->
  sort sort_key_le (take j l ++ h :: drop j l)
  = take (landing_from j p l) l ++ h :: drop (landing_from j p l) l.
Proof.
  induction l as [|x l IH]; intros j Hs Hh.
  { by destruct j. }
  pose proof Hs as Hs'. apply StronglySorted_cons in Hs' as [Hall Hl].
  destruct j as [|j].
  - cbn [take drop app]. rewrite sort_cons, (sort_sorted_id _ Hs).
    rewrite (sort_insert_landing h p _ Hs Hh).
    unfold landing_from. by rewrite Nat.min_0_l, Nat.max_0_r.
  - cbn [take drop app]. rewrite sort_cons, (IH j Hl Hh).
    destruct (sort_key_le x h) eqn:E.
    + rewrite sort_insert_first.
      2:{ apply Forall_app. split.
          - eapply Forall_impl;
              [eapply Forall_take; exact Hall | by intros y Hy].
          - constructor; [exact E|].
            eapply Forall_impl;
              [eapply Forall_drop; exact Hall | by intros y Hy]. }
      assert (Hup : position_up_to p x = true).
      { unfold sort_key_le in E. rewrite Hh in E. unfold position_up_to.
        by destruct (position x). }
      assert (Hk : landing_from (S j) p (x :: l) = S (landing_from j p l)).
      { unfold landing_from. cbn [List.filter]. rewrite Hup.
        destruct (position_below p x) eqn:Hb; cbn [length]; [lia|].
        pose proof (sorted_head_not_below p x l Hs Hb) as Hnone.
        apply Forall_cons in Hnone as [_ Hnone].
        rewrite (filter_none _ _ Hnone). cbn [length]. lia. }
      by rewrite Hk.
    + pose proof (sorted_head_above p x h l Hs Hh E) as Hnone.
      assert (Hk : landing_from (S j) p (x :: l) = 0).
      { unfold landing_from.
        rewrite (filter_none _ _ Hnone),
          (filter_none _ _ (up_to_none_below_none p _ Hnone)).
        cbn [length]. lia. }
      assert (Hk' : landing_from j p l = 0).
      { apply Forall_cons in Hnone as [_ Hnone]. unfold landing_from.
        rewrite (filter_none _ _ Hnone),
          (filter_none _ _ (up_to_none_below_none p _ Hnone)).
        cbn [length]. lia. }
      rewrite Hk, Hk'.
      change (sort_insert sort_key_le x (h :: l) = h :: x :: l).
      cbn [sort_insert]. rewrite E. by rewrite sort_insert_first.
Qed.

(** In a sorted list the handlers at position [p] are behind those with
    a smaller position and among those with a position up to [p]; so a
    new handler at position [p] goes before such a handler exactly when
    [list.insert] put it before. *)
Lemma position_bounds p : forall l i a,
  StronglySorted key_le l -> l !! i = Some a -> position a = Some p ->
  (length (List.filter (position_below p) l) <= i
   < length (List.filter (position_up_to p) l))%nat.
Proof.
  induction l as [|x l IH]; intros i a Hs Ha Hp; [done|].
  pose proof Hs as Hs'. apply StronglySorted_cons in Hs' as [Hall Hl].
  destruct i as [|i]; cbn in Ha.
  - injection Ha as ->.
    assert (Hb : position_below p a = false).
    { unfold position_below. rewrite Hp. apply Z.ltb_irrefl. }
    rewrite (filter_none _ _ (sorted_head_not_below p a l Hs Hb)).
    cbn [List.filter]. unfold position_up_to at 1. rewrite Hp, Z.leb_refl.
    cbn [length]. lia.
  - specialize (IH i a Hl Ha Hp).
    assert (Hup : position_up_to p x = true).
    { rewrite Forall_forall in Hall.
      pose proof (Hall a (list_elem_of_lookup_2 _ _ _ Ha)) as Hxa.
      unfold key_le, le_of, sort_key_le in Hxa. rewrite Hp in Hxa.
      unfold position_up_to. by destruct (position x). }
    cbn [List.filter]. rewrite Hup.
    destruct (position_below p x); cbn [length]; lia.
Qed.

Lemma landing_among_equals p l i a :
  StronglySorted key_le l -> l !! i = Some a -> position a = Some p ->
  (i < landing p l)%nat <-> (i < insert_index p (length l))%nat.
Proof.
  intros Hs Ha Hp. pose proof (position_bounds p l i a Hs Ha Hp).
  unfold landing, landing_from. lia.
Qed.

Lemma add_handler_landing ty f flt p hs l :
  all_sorted hs -> get ty hs = Some l ->
  get ty (add_handler ty f flt (Some p) hs)
  = Some (take (landing p l) l
          ++ {| func := f; update_type := ty; filter_ := flt;
                position := Some p |} :: drop (landing p l) l).
Proof.
  intros Hs Hg. unfold add_handler. rewrite get_set, Hg. cbn [default].
  rewrite insert_at_index. f_equal.
  apply sort_landing; [eapply all_sorted_get; eauto | done].
Qed.

Lemma remove_handler_sublist f hs ty l l' :
  all_sorted hs -> get ty hs = Some l ->
  get ty (snd (remove_handler f hs)) = Some l' -> l' `sublist_of` l.
Proof.
  unfold all_sorted.
  induction hs as [|[k m] hs IH]; cbn; [done|].
  intros Hs. apply Forall_cons in Hs as [H1 H2]. cbn in H1.
  destruct (remove_first f m) as [m'|] eqn:Em; cbn.
  - destruct (String.eqb ty k).
    + intros [= <-] [= <-].
      apply remove_first_sublist in Em.
      rewrite sort_sorted_id; [done|].
      eapply sublist_sorted; eauto.
    + intros E1 E2. rewrite E1 in E2. by injection E2 as ->.
  - specialize (IH H2). destruct (remove_handler f hs) as [b hs']. cbn in *.
    destruct (String.eqb ty k); [|auto].
    intros E1 E2. rewrite E1 in E2. by injection E2 as ->.
Qed.


(** *** Registration order of the handlers without position *)

Lemma appended_app l1 l2 : appended (l1 ++ l2) = appended l1 ++ appended l2.
Proof.
  induction l1 as [|h l1 IH]; cbn; [done|].
  destruct (position h); cbn; by rewrite IH.
Qed.

Lemma appended_sublist l l' :
  l `sublist_of` l' -> appended l `sublist_of` appended l'.
Proof.
  induction 1 as [|h l l' Hsub IH|h l l' Hsub IH]; cbn.
  - constructor.
  - destruct (position h); [done|]. by constructor.
  - destruct (position h); [done|]. by constructor.
Qed.

Lemma appended_elem_of f l : f ∈ appended l -> exists h, h ∈ l /\ func h = f.
Proof.
  induction l as [|h l IH]; cbn; [by intros ?%elem_of_nil|].
  destruct (position h).
  - intros (h' & ? & ?)%IH. exists h'. split; [by right | done].
  - intros [->|(h' & ? & ?)%IH]%elem_of_cons.
    + exists h. split; [left | done].
    + exists h'. split; [by right | done].
Qed.

Lemma get_after_remove f hs ty l' :
  get ty (snd (remove_handler f hs)) = Some l' -> exists l, get ty hs = Some l.
Proof.
  induction hs as [|[k m] hs IH]; cbn; [done|].
  destruct (remove_first f m) as [m'|]; cbn.
  - destruct (String.eqb ty k); eauto.
  - destruct (remove_handler f hs) as [b hs']. cbn in *.
    destruct (String.eqb ty k); eauto.
Qed.

Lemma run_numbered ops :
  StronglySorted lt (registered ops) -> numbered ops (run ops).
Proof.
  induction ops as [|o ops IH] using rev_ind; intros Hreg ty l Hg.
  - assert (l = []) as ->.
    { revert Hg. cbn.
      repeat (destruct (String.eqb _ _); [by intros [= <-]|]). done. }
    split; constructor.
  - unfold registered in Hreg. rewrite omap_app in Hreg.
    fold (registered ops) in Hreg. rewrite run_snoc in Hg.
    pose proof (run_sorted ops) as Hs.
    destruct o as [ty0 f flt pos|f]; cbn in Hreg, Hg.
    + apply StronglySorted_app in Hreg as (Hlt & Hreg & _).
      specialize (IH Hreg).
      assert (Hin : forall g, g ∈ registered ops ->
                              g ∈ registered (ops ++ [Add ty0 f flt pos])).
      { intros g Hgin. unfold registered. rewrite omap_app.
        apply elem_of_app. by left. }
      assert (Hf : f ∈ registered (ops ++ [Add ty0 f flt pos])).
      { unfold registered. rewrite omap_app. apply elem_of_app. right. left. }
      destruct (String.eqb_spec ty0 ty) as [->|Hne].
      * set (h := {| func := f; update_type := ty; filter_ := flt;
                     position := pos |}) in *.
        assert (H0 : exists l0,
                   StronglySorted key_le l0 /\
                   StronglySorted lt (appended l0) /\
                   Forall (fun x => func x ∈ registered ops) l0 /\
                   default [] (get ty (run ops)) = l0).
        { destruct (get ty (run ops)) as [l0|] eqn:E0.
          - exists l0. destruct (IH ty l0 E0). repeat split; auto.
            eapply all_sorted_get; eauto.
          - exists []. repeat split; constructor. }
        destruct H0 as (l0 & K0 & A0 & F0 & D0).
        assert (Hnew : forall g, g ∈ appended l0 -> g < f).
        { intros g (x & Hx & <-)%appended_elem_of.
          rewrite Forall_forall in F0. apply (Hlt (func x) f); [auto | left]. }
        unfold add_handler in Hg. rewrite get_set, D0 in Hg.
        cbv zeta in Hg. fold h in Hg.
        injection Hg as <-. destruct pos as [p|]; cbv iota beta.
        -- destruct (sublist_perm_split h l0
                       (sort sort_key_le (insert_at p h l0)))
             as (l1 & l2 & -> & ->).
           { apply sublist_sort; [done | apply insert_at_sublist]. }
           { by rewrite sort_perm, insert_at_perm. }
           rewrite appended_app in A0 |- *. cbn. split; [exact A0|].
           apply Forall_app in F0 as [F1 F2].
           apply Forall_app. split; [|constructor; [exact Hf|]];
             (eapply Forall_impl; [eassumption | cbn; auto]).
        -- rewrite sort_sorted_id.
           2:{ apply StronglySorted_app. repeat split; [|done|repeat constructor].
               intros a b _ ->%list_elem_of_singleton.
               unfold key_le, le_of, sort_key_le. cbn. by destruct (position a). }
           rewrite appended_app. cbn. split.
           ++ apply StronglySorted_app. repeat split; [|done|repeat constructor].
              intros a b Ha ->%list_elem_of_singleton. auto.
           ++ apply Forall_app. split; [|by repeat constructor].
              eapply Forall_impl; [eassumption | cbn; auto].
      * unfold add_handler in Hg. rewrite get_set_ne in Hg by done.
        destruct (IH ty l Hg) as [IH1 IH2]. split; [done|].
        eapply Forall_impl; [eassumption | cbn; auto].
    + rewrite app_nil_r in Hreg. specialize (IH Hreg).
      assert (Hreg' : registered (ops ++ [Remove f]) = registered ops).
      { unfold registered. rewrite omap_app. cbn. by rewrite app_nil_r. }
      rewrite Hreg'.
      destruct (get_after_remove _ _ _ _ Hg) as [l0 Hg0].
      pose proof (remove_handler_sublist f (run ops) ty l0 l Hs Hg0 Hg) as Hsub.
      destruct (IH ty l0 Hg0) as [IH1 IH2]. split.
      * eapply sublist_sorted; [exact IH1 | by apply appended_sublist].
      * rewrite Forall_forall in IH2 |- *. intros x Hx.
        eapply IH2, elem_of_sublist; eauto.
Qed.

Lemma sorted_lookup (l : list Handler) i j a b :
  StronglySorted key_le l -> (i < j)%nat ->
  l !! i = Some a -> l !! j = Some b -> key_le a b.
Proof.
  intros Hl. revert i j.
  induction Hl as [|x l Hl IH Hx]; intros i j Hij Ha Hb; [done|].
  destruct j as [|j]; [lia|]. cbn in Hb.
  destruct i as [|i]; cbn in Ha.
  - injection Ha as ->. rewrite Forall_forall in Hx.
    eapply Hx, list_elem_of_lookup_2, Hb.
  - eapply (IH i j); eauto. lia.
Qed.

(** C5, as amended.  After every sequence of [add_handler] and
    [remove_handler] calls the list of each event type (or phase) is sorted
    ascending by explicit position, with the position-[None] handlers after
    all the explicitly positioned ones.  A handler registered without
    position goes after every handler of the list, and a removal only
    takes handlers out: handlers without position stay in registration
    order (with the callbacks numbered in the order of their registration,
    those of the handlers without position are in increasing order).  A
    handler registered with the position [p] leaves the others in their
    order and lands at the index [landing p l]: behind the handlers with a
    smaller position, before those with a larger position or none, and
    among the handlers with the same position [p] at the index where
    [list.insert] put it, so before the handlers that were at that index
    or behind it and after those that were before it.  Four handlers
    registered with positions 2, 0, [None], 1 end up ordered
    0, 1, 2, [None]; a handler registered at position 1 after three others
    at position 1 ends up second of the four. *)
Theorem handlers_stay_sorted (ops : list op) (ty : string) (l : list Handler) :
  get ty (run ops) = Some l ->
  StronglySorted key_le l /\
  (forall i j a b,
     (i < j)%nat -> l !! i = Some a -> l !! j = Some b ->
     match position a, position b with
     | Some p, Some q => (p <= q)%Z
     | None, Some _ => False
     | _, None => True
     end) /\
  (forall f flt,
     get ty (add_handler ty f flt None (run ops))
     = Some (l ++ [{| func := f; update_type := ty; filter_ := flt;
                      position := None |}])) /\
  (forall f flt p,
     get ty (add_handler ty f flt (Some p) (run ops))
     = Some (take (landing p l) l
             ++ {| func := f; update_type := ty; filter_ := flt;
                   position := Some p |} :: drop (landing p l) l) /\
     landing p l
     = Nat.max (length (List.filter (position_below p) l))
               (Nat.min (insert_index p (length l))
                        (length (List.filter (position_up_to p) l))) /\
     (forall i a, l !! i = Some a -> position a = Some p ->
                  (i < landing p l)%nat <-> (i < insert_index p (length l))%nat)) /\
  (forall f l',
     get ty (snd (remove_handler f (run ops))) = Some l' ->
     l' `sublist_of` l) /\
  (StronglySorted lt (registered ops) -> StronglySorted lt (appended l)) /\
  map position <$> get "updateNewMessage" (run four_registrations)
  = Some [Some 0%Z; Some 1%Z; Some 2%Z; None] /\
  map func <$> get "updateNewMessage"
                 (run (three_at_position_1
                       ++ [Add "updateNewMessage" 4 None (Some 1%Z)]))
  = Some [1; 4; 3; 2]%nat.
Proof.
  intros Hg. pose proof (run_sorted ops) as Hs.
  assert (Hl : StronglySorted key_le l) by (eapply all_sorted_get; eauto).
  split; [exact Hl|]. split.
  { intros i j a b Hij Ha Hb.
    pose proof (sorted_lookup l i j a b Hl Hij Ha Hb) as H.
    unfold key_le, le_of, sort_key_le in H.
    destruct (position a), (position b); try done. by apply Z.leb_le. }
  split; [intros f flt; by apply add_handler_append|].
  split.
  { intros f flt p. split; [by apply add_handler_landing|].
    split; [reflexivity|].
    intros i a Ha Hp. by apply (landing_among_equals p l i a). }
  split; [intros f l'; by apply remove_handler_sublist|].
  split; [intros Hreg; exact (proj1 (run_numbered ops Hreg ty l Hg))|].
  split; by vm_compute.
Qed.

(** C5 at work on the four registrations 2, 0, [None], 1. *)
Lemma handlers_stay_sorted_witness :
  get "updateNewMessage" (run four_registrations) = Some four_registered /\
  StronglySorted key_le four_registered /\
  map func four_registered = [2; 4; 1; 3]%nat.
Proof.
  assert (H : get "updateNewMessage" (run four_registrations)
              = Some four_registered) by (by vm_compute).
  split; [exact H|]. split; [|reflexivity].
  exact (proj1 (handlers_stay_sorted four_registrations "updateNewMessage"
                  four_registered H)).
Defined.

(** C5 as stated fails for equal explicit positions: of two handlers
    registered at position 0, the one registered second comes first. *)
Lemma equal_positions_counterexample :
  ~ (forall p : Z,
       map func <$> get "updateNewMessage" (run (two_at_position p))
       = Some [1; 2]%nat).
Proof. intros H. specialize (H 0%Z). vm_compute in H. discriminate H. Qed.

(** *** The keys of the registry *)

Lemma get_is_Some k hs : is_Some (get k hs) <-> k ∈ keys hs.
Proof.
  unfold keys. induction hs as [|[k' l] hs IH]; cbn.
  - split; [by intros [? ?] | by intros ?%elem_of_nil].
  - rewrite elem_of_cons. destruct (String.eqb_spec k k') as [->|Hne].
    + split; [by left | by eexists].
    + rewrite IH. split; [by right | by intros [?|?]].
Qed.

Lemma get_None k hs : get k hs = None <-> k ∉ keys hs.
Proof.
  rewrite <- get_is_Some. apply eq_None_not_Some.
Qed.

Lemma set_present k l l0 hs :
  get k hs = Some l0 -> keys (set k l hs) = keys hs.
Proof.
  unfold keys. induction hs as [|[k' l'] hs IH]; cbn; [done|].
  destruct (String.eqb k k'); cbn; [done|].
  intros H. by rewrite IH.
Qed.

Lemma set_absent k l hs : get k hs = None -> set k l hs = hs ++ [(k, l)].
Proof.
  induction hs as [|[k' l'] hs IH]; cbn; [done|].
  destruct (String.eqb k k'); [done|].
  intros H. by rewrite IH.
Qed.

Lemma set_same k l hs : get k hs = Some l -> set k l hs = hs.
Proof.
  induction hs as [|[k' l'] hs IH]; cbn; [done|].
  destruct (String.eqb_spec k k') as [->|].
  - by intros [= ->].
  - intros H. by rewrite IH.
Qed.

Lemma add_handler_keys ty f flt pos hs :
  keys (add_handler ty f flt pos hs)
  = match get ty hs with
    | Some _ => keys hs
    | None => keys hs ++ [ty]
    end.
Proof.
  unfold add_handler. cbv zeta. destruct (get ty hs) as [l|] eqn:E.
  - by erewrite set_present.
  - rewrite set_absent by done. unfold keys. by rewrite map_app.
Qed.

Lemma remove_handler_keys f hs : keys (snd (remove_handler f hs)) = keys hs.
Proof.
  unfold keys. induction hs as [|[ty l] hs IH]; cbn; [done|].
  destruct (remove_first f l); cbn; [done|].
  destruct (remove_handler f hs) as [b hs']. cbn in *. by rewrite IH.
Qed.

Lemma run_keys ops ty :
  ty ∈ keys (run ops) <-> ty ∈ "initializer" :: "finalizer" :: added_types ops.
Proof.
  induction ops as [|o ops IH] using rev_ind; [done|].
  rewrite run_snoc. unfold added_types. rewrite omap_app.
  fold (added_types ops). rewrite !app_comm_cons, elem_of_app, <- IH.
  destruct o as [ty0 f flt pos|f]; cbn.
  - rewrite add_handler_keys. destruct (get ty0 (run ops)) as [l|] eqn:E.
    + split; [by left|]. intros [?| ->%list_elem_of_singleton]; [done|].
      apply get_is_Some. by eexists.
    + by rewrite elem_of_app.
  - rewrite remove_handler_keys. split; [by left|].
    by intros [?|?%elem_of_nil].
Qed.

(** *** The inner loop of [remove_handler], precisely *)

Lemma remove_first_None f l :
  remove_first f l = None <-> existsb (fun h => Nat.eqb (func h) f) l = false.
Proof.
  induction l as [|h l IH]; cbn; [done|].
  destruct (Nat.eqb (func h) f); cbn; [done|].
  rewrite <- IH. by destruct (remove_first f l).
Qed.

Lemma remove_first_split f l l' :
  remove_first f l = Some l' ->
  exists l1 h l2,
    l = l1 ++ h :: l2 /\ func h = f /\
    Forall (fun x => func x <> f) l1 /\ l' = l1 ++ l2.
Proof.
  revert l'. induction l as [|h l IH]; cbn; intros l'; [done|].
  destruct (Nat.eqb_spec (func h) f) as [E|Hne].
  - intros [= <-]. by exists [], h, l.
  - destruct (remove_first f l) as [l''|]; cbn; [|done].
    intros [= <-]. destruct (IH l'' eq_refl) as (l1 & x & l2 & -> & ? & ? & ->).
    exists (h :: l1), x, l2. repeat split; auto.
Qed.

Lemma remove_first_middle f l1 h l2 :
  Forall (fun x => func x <> f) l1 -> func h = f ->
  remove_first f (l1 ++ h :: l2) = Some (l1 ++ l2).
Proof.
  intros Hl1 Hh. induction Hl1 as [|x l1 Hx Hl1 IH]; cbn.
  - apply Nat.eqb_eq in Hh. by rewrite Hh.
  - apply Nat.eqb_neq in Hx. by rewrite Hx, IH.
Qed.

Lemma existsb_Forall_ne f (l : list Handler) :
  existsb (fun h => Nat.eqb (func h) f) l = false <->
  Forall (fun x => func x <> f) l.
Proof.
  induction l as [|h l IH]; cbn.
  - split; [constructor | done].
  - rewrite orb_false_iff, IH, Forall_cons, Nat.eqb_neq. done.
Qed.

Lemma remove_handler_fst f hs : fst (remove_handler f hs) = has_callback f hs.
Proof.
  unfold has_callback. induction hs as [|[ty l] hs IH]; cbn; [done|].
  destruct (remove_first f l) as [l'|] eqn:E; cbn.
  - destruct (existsb _ l) eqn:E'; [done|].
    apply remove_first_None in E'. congruence.
  - apply remove_first_None in E. rewrite E. cbn.
    destruct (remove_handler f hs) as [b hs']. exact IH.
Qed.

Lemma remove_handler_absent f hs :
  has_callback f hs = false -> remove_handler f hs = (false, hs).
Proof.
  unfold has_callback. induction hs as [|[ty l] hs IH]; cbn; [done|].
  intros [E1 E2]%orb_false_iff. apply remove_first_None in E1.
  by rewrite E1, (IH E2).
Qed.

Lemma remove_handler_split f hs :
  fst (remove_handler f hs) = true ->
  exists before ty l1 h l2 after,
    hs = before ++ (ty, l1 ++ h :: l2) :: after /\
    func h = f /\
    has_callback f before = false /\
    Forall (fun x => func x <> f) l1 /\
    snd (remove_handler f hs)
    = before ++ (ty, sort sort_key_le (l1 ++ l2)) :: after.
Proof.
  induction hs as [|[ty l] hs IH]; cbn; [done|].
  destruct (remove_first f l) as [l'|] eqn:E; cbn.
  - intros _. destruct (remove_first_split _ _ _ E) as (l1 & h & l2 & -> & ? & ? & ->).
    by exists [], ty, l1, h, l2, hs.
  - destruct (remove_handler f hs) as [b hs'] eqn:E'. cbn in *.
    intros Hb. destruct (IH Hb) as (before & ty' & l1 & h & l2 & after
                                    & -> & ? & Hbefore & ? & ->).
    exists ((ty, l) :: before), ty', l1, h, l2, after.
    repeat split; auto.
    unfold has_callback in *. cbn. rewrite Hbefore.
    apply remove_first_None in E. by rewrite E.
Qed.

Lemma remove_handler_set f k L L' hs :
  has_callback f hs = false -> remove_first f L = Some L' ->
  remove_handler f (set k L hs) = (true, set k (sort sort_key_le L') hs).
Proof.
  unfold has_callback. intros Hhs HL.
  induction hs as [|[k' l'] hs IH]; cbn.
  - by rewrite HL.
  - cbn in Hhs. apply orb_false_iff in Hhs as [E1 E2].
    apply remove_first_None in E1.
    destruct (String.eqb k k'); cbn.
    + by rewrite HL.
    + by rewrite E1, (IH E2).
Qed.

Lemma has_callback_get f k l hs :
  has_callback f hs = false -> get k hs = Some l ->
  Forall (fun x => func x <> f) l.
Proof.
  intros Hhs Hg. apply get_elem_of in Hg. apply existsb_Forall_ne.
  unfold has_callback in Hhs.
  destruct (existsb _ l) eqn:E; [|done].
  assert (existsb (fun kl => existsb (fun h => Nat.eqb (func h) f) (snd kl)) hs
          = true) as H; [|congruence].
  apply existsb_exists. exists (k, l). split; [|done].
  by apply list_elem_of_In.
Qed.

(** X1.  [remove_handler] returns [True] exactly when some list of the
    registry holds a handler with that callback, and a call that returns
    [False] leaves the registry as it was: every update type, every list
    and the order of every list. *)
Theorem remove_handler_reports (f : nat) (hs : handlers) :
  fst (remove_handler f hs) = has_callback f hs /\
  (has_callback f hs = false -> snd (remove_handler f hs) = hs).
Proof.
  split; [apply remove_handler_fst|].
  intros E. by rewrite remove_handler_absent.
Qed.

(** X2.  A removal that returns [True] takes out one handler and no more:
    the first handler with that callback in the first list (in the order in
    which the update types were first registered) that has one.  The lists
    before it had none, the handlers before it in its own list have other
    callbacks, and every other handler of the registry, later handlers with
    the same callback included, stays where it was. *)
Theorem remove_handler_takes_the_first (ops : list op) (f : nat) :
  fst (remove_handler f (run ops)) = true ->
  exists before ty l1 h l2 after,
    run ops = before ++ (ty, l1 ++ h :: l2) :: after /\
    func h = f /\
    has_callback f before = false /\
    Forall (fun x => func x <> f) l1 /\
    snd (remove_handler f (run ops)) = before ++ (ty, l1 ++ l2) :: after.
Proof.
  intros Hb.
  destruct (remove_handler_split _ _ Hb)
    as (before & ty & l1 & h & l2 & after & E & ? & ? & ? & E').
  exists before, ty, l1, h, l2, after. repeat split; auto.
  rewrite E'. do 3 f_equal. apply sort_sorted_id.
  pose proof (run_sorted ops) as Hs. rewrite E in Hs.
  unfold all_sorted in Hs. apply Forall_app in Hs as [_ Hs].
  apply Forall_cons in Hs as [Hs _]. cbn in Hs.
  eapply sublist_sorted; [exact Hs|].
  apply sublist_app; [done|]. by constructor.
Qed.

(** Callback 2 of the four registrations is the first of its list. *)
Lemma remove_handler_takes_the_first_witness :
  exists before ty l1 h l2 after,
    run four_registrations = before ++ (ty, l1 ++ h :: l2) :: after /\
    func h = 2 /\
    has_callback 2 before = false /\
    Forall (fun x => func x <> 2) l1 /\
    snd (remove_handler 2 (run four_registrations))
    = before ++ (ty, l1 ++ l2) :: after.
Proof. apply (remove_handler_takes_the_first four_registrations 2). reflexivity. Defined.

(** X3.  [add_handler] touches the list of its own update type only.  That
    list gets the new handler and keeps every handler it had, each once,
    whatever the position (negative, or beyond the end of the list); an
    update type seen for the first time becomes the last key of the
    registry, and the list of every other update type is the one it was. *)
Theorem add_handler_touches_one_list (ty : string) (f : nat)
    (flt : option Filter) (pos : option Z) (hs : handlers) :
  (exists l',
     get ty (add_handler ty f flt pos hs) = Some l' /\
     l' ≡ₚ {| func := f; update_type := ty; filter_ := flt; position := pos |}
           :: default [] (get ty hs)) /\
  (forall ty', ty' <> ty -> get ty' (add_handler ty f flt pos hs) = get ty' hs) /\
  keys (add_handler ty f flt pos hs)
  = match get ty hs with
    | Some _ => keys hs
    | None => keys hs ++ [ty]
    end.
Proof.
  split; [|split].
  - unfold add_handler. cbv zeta. rewrite get_set. eexists. split; [done|].
    rewrite sort_perm. destruct pos as [p|].
    + apply insert_at_perm.
    + by rewrite Permutation_app_comm.
  - intros ty' Hne. unfold add_handler. by apply get_set_ne.
  - apply add_handler_keys.
Qed.

(** X4.  Registering a callback that no handler of the registry has and
    removing it again gives back the registry as it was, at whatever
    position the handler was registered.  What stays behind is the key of
    an update type that was registered for the first time, with an empty
    list. *)
Theorem add_then_remove (ops : list op) (ty : string) (f : nat)
    (flt : option Filter) (pos : option Z) :
  has_callback f (run ops) = false ->
  remove_handler f (add_handler ty f flt pos (run ops))
  = (true, match get ty (run ops) with
           | Some _ => run ops
           | None => run ops ++ [(ty, [])]
           end).
Proof.
  intros Hf. pose proof (run_sorted ops) as Hs.
  set (h := {| func := f; update_type := ty; filter_ := flt; position := pos |}).
  set (l := default [] (get ty (run ops))).
  assert (Hl : StronglySorted key_le l /\ Forall (fun x => func x <> f) l).
  { subst l. destruct (get ty (run ops)) as [l|] eqn:E; cbn.
    - split; [eapply all_sorted_get; eauto | eapply has_callback_get; eauto].
    - split; constructor. }
  destruct Hl as [Hl1 Hl2].
  assert (Hsplit : exists l1 l2,
             l = l1 ++ l2 /\
             sort sort_key_le (match pos with
                               | Some p => insert_at p h l
                               | None => l ++ [h]
                               end) = l1 ++ h :: l2).
  { apply sublist_perm_split.
    - apply sublist_sort; [done|]. destruct pos as [p|].
      + apply insert_at_sublist.
      + by apply sublist_inserts_r.
    - rewrite sort_perm. destruct pos as [p|].
      + apply insert_at_perm.
      + by rewrite Permutation_app_comm. }
  destruct Hsplit as (l1 & l2 & El & Es).
  unfold add_handler. cbv zeta. fold h l. rewrite Es.
  rewrite (remove_handler_set f ty _ (l1 ++ l2)); [|done|].
  2:{ apply remove_first_middle; [|done].
      rewrite El in Hl2. by apply Forall_app in Hl2 as [? _]. }
  rewrite <- El, sort_sorted_id by done. f_equal.
  subst l. destruct (get ty (run ops)) as [l|] eqn:E; cbn.
  - by apply set_same.
  - by apply set_absent.
Qed.

(** Callback 9 registered on top of the four registrations, at the front,
    and removed again. *)
Lemma add_then_remove_witness :
  remove_handler 9 (add_handler "updateNewMessage" 9 None (Some 0%Z)
                      (run four_registrations))
  = (true, run four_registrations).
Proof.
  exact (add_then_remove four_registrations "updateNewMessage" 9 None
           (Some 0%Z) eq_refl).
Defined.

(** X5.  The update types of the registry are the two phases "initializer"
    and "finalizer" and the update types some [add_handler] call named, and
    nothing else: no removal ever takes a key away, even when it empties a
    list. *)
Theorem update_types_persist (ops : list op) (ty : string) :
  is_Some (get ty (run ops)) <->
  ty = "initializer" \/ ty = "finalizer" \/ ty ∈ added_types ops.
Proof.
  rewrite get_is_Some, run_keys, !elem_of_cons. done.
Qed.

(** *** Counting handlers *)

Lemma handler_count_set k l hs :
  handler_count (set k l hs) + length (default [] (get k hs))
  = handler_count hs + length l.
Proof.
  unfold handler_count. induction hs as [|[k' l'] hs IH]; cbn; [lia|].
  destruct (String.eqb k k'); cbn; lia.
Qed.

Lemma length_get_le k hs l :
  get k hs = Some l -> length l <= handler_count hs.
Proof.
  unfold handler_count. induction hs as [|[k' l'] hs IH]; cbn; [done|].
  destruct (String.eqb k k').
  - intros [= ->]. lia.
  - intros H. specialize (IH H). lia.
Qed.

Lemma handler_count_add ty f flt pos hs :
  handler_count (add_handler ty f flt pos hs) = S (handler_count hs).
Proof.
  unfold add_handler. cbv zeta.
  pose proof (handler_count_set ty
                (sort sort_key_le
                   match pos with
                   | Some p =>
                       insert_at p
                         {| func := f; update_type := ty; filter_ := flt;
                            position := pos |} (default [] (get ty hs))
                   | None =>
                       default [] (get ty hs)
                       ++ [{| func := f; update_type := ty; filter_ := flt;
                              position := pos |}]
                   end) hs) as H.
  rewrite (Permutation_length (sort_perm _ _)) in H.
  destruct pos as [p|].
  - rewrite (Permutation_length (insert_at_perm _ _ _)) in H. cbn in H. lia.
  - rewrite length_app in H. cbn in H. lia.
Qed.

End RegistryFacts.

(** ** The decorators *)
Module DecoratorsFacts.
Import Py Registry Decorators SortFacts RegistryFacts.

Lemma registered_in_add_same ty f flt pos hs :
  registered_in ty f (add_handler ty f flt pos hs) = true.
Proof.
  unfold registered_in, add_handler. rewrite get_set.
  apply existsb_exists.
  exists {| func := f; update_type := ty; filter_ := flt; position := pos |}.
  split; [|apply Nat.eqb_refl].
  apply list_elem_of_In.
  rewrite sort_perm. destruct pos as [p|].
  - rewrite insert_at_perm. left.
  - apply elem_of_app. right. left.
Qed.

Lemma registered_in_add_other ty ty' f flt pos hs :
  ty <> ty' ->
  registered_in ty' f (add_handler ty f flt pos hs) = registered_in ty' f hs.
Proof. intros H. unfold registered_in, add_handler. by rewrite get_set_ne. Qed.

(** C8 fails on the code.  A callback decorated with [finalizer] through a
    [Filter] gets a deferred handler bound to the "initializer" phase: once
    a client loads it, the callback is registered as a pre-phase handler and
    the post-phase list is what it was.  The other deferred path of the
    same decorator, with no receiver, binds to "finalizer". *)
Theorem finalizer_through_filter (flt : Filter) (filters : option Filter)
    (pos : option Z) (n : nat) (hs : handlers) :
  let f := {| name := n; _handler := None |} in
  let deferred := fst (finalizer (OfFilter flt) filters pos f) in
  _handler deferred
  = Some {| func := n; update_type := "initializer"; filter_ := Some flt;
            position := pos |} /\
  registered_in "initializer" n (load_plugin_object deferred hs) = true /\
  registered_in "finalizer" n (load_plugin_object deferred hs)
  = registered_in "finalizer" n hs /\
  _handler (fst (finalizer OfNothing filters pos f))
  = Some {| func := n; update_type := "finalizer"; filter_ := filters;
            position := pos |} /\
  _handler (fst (initializer (OfFilter flt) filters pos f))
  = _handler deferred.
Proof.
  intros f deferred. split; [reflexivity|].
  split; [apply registered_in_add_same|].
  split; [by apply registered_in_add_other|].
  split; reflexivity.
Qed.

(** X6.  Decorating with no receiver and loading the plugin later
    registers what decorating through the client registers at once, in
    either phase; a function that already carries a handler is returned
    as it is by both decorators, whatever they are reached through, and
    nothing is registered for it; and loading a function that no decorator
    touched registers nothing. *)
Theorem deferred_registration (self : receiver) (filters : option Filter)
    (pos : option Z) (n : nat) (hs : handlers) :
  let f := {| name := n; _handler := None |} in
  snd (initializer (OfClient hs) filters pos f)
  = OfClient (load_plugin_object (fst (initializer OfNothing filters pos f)) hs)
  /\
  snd (finalizer (OfClient hs) filters pos f)
  = OfClient (load_plugin_object (fst (finalizer OfNothing filters pos f)) hs)
  /\
  (forall g, is_Some (_handler g) ->
             initializer self filters pos g = (g, self) /\
             finalizer self filters pos g = (g, self)) /\
  load_plugin_object f hs = hs.
Proof.
  intros f. repeat split; try reflexivity.
  all: destruct H as [h Hh]; unfold initializer, finalizer; by rewrite Hh.
Qed.

(** *** Loading plugins *)

Lemma load_module_eq objs : forall hs n,
  load_module (hs, n) objs
  = (foldl (fun hs obj => load_plugin_object obj hs) hs objs,
     n + length (omap _handler objs)).
Proof.
  unfold load_module.
  induction objs as [|obj objs IH]; intros hs n; cbn [foldl].
  - cbn. by rewrite Nat.add_0_r.
  - change (omap _handler (obj :: objs))
      with (match _handler obj with
            | Some h => h :: omap _handler objs
            | None => omap _handler objs
            end).
    destruct (_handler obj) as [h|] eqn:E; rewrite IH.
    + cbn [length]. f_equal. lia.
    + replace (load_plugin_object obj hs) with hs; [done|].
      unfold load_plugin_object. by rewrite E.
Qed.

Lemma load_objects_count objs : forall hs,
  handler_count (foldl (fun hs obj => load_plugin_object obj hs) hs objs)
  = handler_count hs + length (omap _handler objs).
Proof.
  induction objs as [|obj objs IH]; intros hs; cbn [foldl].
  - cbn. lia.
  - change (omap _handler (obj :: objs))
      with (match _handler obj with
            | Some h => h :: omap _handler objs
            | None => omap _handler objs
            end).
    rewrite IH. unfold load_plugin_object.
    destruct (_handler obj) as [h|]; [|done].
    rewrite handler_count_add. cbn. lia.
Qed.

Lemma load_objects_sorted objs : forall hs,
  all_sorted hs ->
  all_sorted (foldl (fun hs obj => load_plugin_object obj hs) hs objs).
Proof.
  induction objs as [|obj objs IH]; intros hs Hs; cbn [foldl]; [done|].
  apply IH. unfold load_plugin_object.
  destruct (_handler obj) as [h|]; [by apply add_handler_sorted | done].
Qed.

(** X7.  Loading plugins binds every deferred handler of every module
    that imports, in the order of the modules and of their attributes; a
    module that fails to import is skipped and stops nothing.  The two
    numbers logged are the number of modules that imported and the number
    of handlers added, the registry has that many handlers more than
    before, and its lists are still sorted. *)
Theorem plugins_are_loaded (modules : list (option (list function)))
    (hs : handlers) :
  let objs := concat (omap id modules) in
  let loaded := foldl (fun hs obj => load_plugin_object obj hs) hs objs in
  _load_plugins modules hs
  = (loaded, length (omap id modules), length (omap _handler objs)) /\
  handler_count loaded = handler_count hs + length (omap _handler objs) /\
  (all_sorted hs -> all_sorted loaded).
Proof.
  intros objs loaded.
  split; [|split; [apply load_objects_count | apply load_objects_sorted]].
  unfold loaded, objs, _load_plugins. clear objs loaded.
  assert (H : forall count n,
             foldl (fun '(hs, count, handlers) module =>
                      match module with
                      | None => (hs, count, handlers)
                      | Some objs =>
                          let '(hs', handlers') :=
                            load_module (hs, handlers) objs in
                          (hs', S count, handlers')
                      end) (hs, count, n) modules
             = (foldl (fun hs obj => load_plugin_object obj hs) hs
                  (concat (omap id modules)),
                count + length (omap id modules),
                n + length (omap _handler (concat (omap id modules)))));
    [|exact (H 0 0)].
  revert hs. induction modules as [|[m|] modules IH]; intros hs count n.
  - cbn. by rewrite !Nat.add_0_r.
  - cbn [foldl]. rewrite load_module_eq, IH.
    change (omap id (Some m :: modules)) with (m :: omap id modules).
    cbn [concat length]. rewrite foldl_app, omap_app, length_app.
    f_equal; [f_equal|]; lia.
  - cbn [foldl]. apply IH.
Qed.

(** X7 at work: of three plugin modules the second fails to import; the
    two others bring three handlers. *)
Lemma plugins_are_loaded_witness :
  _load_plugins three_plugins initial
  = (run [Add "initializer" 1 None None; Add "finalizer" 2 None (Some 0%Z);
          Add "finalizer" 4 None (Some 0%Z)], 2, 3).
Proof. exact (proj1 (plugins_are_loaded three_plugins initial)). Defined.

End DecoratorsFacts.

(** ** The handler chain *)
Module ChainFacts.
Import Py Registry Chain.

(** *** The chain over a snapshot *)

Section SnapshotFacts.
Context (call : nat -> dict -> exn + json).

Lemma called_app ph evs evs' :
  called ph (evs ++ evs') = called ph evs ++ called ph evs'.
Proof.
  induction evs as [|[ph' f| |] evs IH]; cbn; auto.
  destruct (phase_eqb ph ph'); cbn; by rewrite IH.
Qed.

Lemma phase_eqb_refl ph : phase_eqb ph ph = true.
Proof. by destruct ph. Qed.

(** What one iteration calls: the callback of the handler, when the
    handler is applicable; nothing in another phase. *)
Lemma called_snapshot_one ph ph' h update :
  called ph' (fst (snapshot_one call ph h update)) =
  if phase_eqb ph' ph && applicable call h update then [func h] else [].
Proof.
  unfold snapshot_one, applicable.
  destruct (filter_ h) as [flt|].
  - destruct (call (filter_func flt) update) as [e|v].
    + rewrite andb_false_r.
      destruct (is_StopHandlers e); [done|]. by destruct (is_Exception e).
    + destruct (truthy v); [|by rewrite andb_false_r].
      rewrite andb_true_r.
      destruct (call (func h) update) as [e|w]; cbn.
      * destruct (is_StopHandlers e); cbn;
          [by destruct (phase_eqb ph' ph)|].
        destruct (is_Exception e); cbn; by destruct (phase_eqb ph' ph).
      * by destruct (phase_eqb ph' ph).
  - rewrite andb_true_r.
    destruct (call (func h) update) as [e|w]; cbn.
    + destruct (is_StopHandlers e); cbn; [by destruct (phase_eqb ph' ph)|].
      destruct (is_Exception e); cbn; by destruct (phase_eqb ph' ph).
    + by destruct (phase_eqb ph' ph).
Qed.

(** A loop calls nothing in another phase than its own. *)
Lemma called_other_phase ph ph' l update :
  phase_eqb ph' ph = false ->
  called ph' (fst (snapshot_list call ph l update)) = [].
Proof.
  intros Hne. induction l as [|h l IH]; [done|]. cbn.
  pose proof (called_snapshot_one ph ph' h update) as Hh. rewrite Hne in Hh.
  destruct (snapshot_one call ph h update) as [evs [e|]]; [exact Hh|].
  destruct (snapshot_list call ph l update) as [evs' r]. cbn in *.
  by rewrite called_app, Hh, IH.
Qed.

(** A loop whose iterations all pass walks the whole list. *)
Lemma snapshot_list_all_pass ph l update :
  forallb (fun h => passes call ph h update) l = true ->
  snd (snapshot_list call ph l update) = None /\
  forall ph',
    called ph' (fst (snapshot_list call ph l update)) =
    if phase_eqb ph' ph
    then map func (List.filter (fun h => applicable call h update) l)
    else [].
Proof.
  induction l as [|h l IH]; cbn.
  - intros _. split; [done|]. intros ph'. by destruct (phase_eqb ph' ph).
  - intros H. apply andb_true_iff in H as [Hh Hl].
    destruct (IH Hl) as [IH1 IH2].
    pose proof (called_snapshot_one ph) as Hc.
    unfold passes in Hh.
    destruct (snapshot_one call ph h update) as [evs [e|]] eqn:E; [done|].
    destruct (snapshot_list call ph l update) as [evs' r]. cbn in *.
    split; [done|]. intros ph'. rewrite called_app, IH2.
    specialize (Hc ph' h update). rewrite E in Hc. cbn in Hc. rewrite Hc.
    destruct (phase_eqb ph' ph); cbn; [|done].
    by destruct (applicable call h update).
Qed.

(** A loop stops at the first iteration that lets an exception through:
    what comes after it in the list plays no role. *)
Lemma snapshot_list_stops ph before h after update :
  forallb (fun h => passes call ph h update) before = true ->
  passes call ph h update = false ->
  snd (snapshot_list call ph (before ++ h :: after) update)
  = snd (snapshot_one call ph h update) /\
  forall ph',
    called ph' (fst (snapshot_list call ph (before ++ h :: after) update)) =
    if phase_eqb ph' ph
    then map func
           (List.filter (fun h => applicable call h update) (before ++ [h]))
    else [].
Proof.
  intros Hb Hh.
  induction before as [|b before IH]; cbn.
  - pose proof (called_snapshot_one ph) as Hc.
    unfold passes in Hh.
    destruct (snapshot_one call ph h update) as [evs [e|]] eqn:E; [|done].
    cbn. split; [done|]. intros ph'.
    specialize (Hc ph' h update). rewrite E in Hc. cbn in Hc. rewrite Hc.
    destruct (phase_eqb ph' ph); cbn; [|done].
    by destruct (applicable call h update).
  - cbn in Hb. apply andb_true_iff in Hb as [Hb1 Hb2].
    destruct (IH Hb2) as [IH1 IH2].
    pose proof (called_snapshot_one ph) as Hc.
    unfold passes in Hb1.
    destruct (snapshot_one call ph b update) as [evs [e|]] eqn:E; [done|].
    destruct (snapshot_list call ph (before ++ h :: after) update) as [evs' r].
    cbn in *. split; [done|]. intros ph'. rewrite called_app, IH2.
    specialize (Hc ph' b update). rewrite E in Hc. cbn in Hc. rewrite Hc.
    destruct (phase_eqb ph' ph); cbn; [|done].
    by destruct (applicable call b update).
Qed.

Lemma raises_stop_not_passes ph h update :
  raises_stop call ph h update = true -> passes call ph h update = false.
Proof.
  unfold raises_stop, passes.
  by destruct (snd (snapshot_one call ph h update)).
Qed.

Lemma called_logged ph evs e :
  called ph (evs ++ [LoggedWorkerException e]) = called ph evs.
Proof. rewrite called_app. cbn. by rewrite app_nil_r. Qed.

(** The outer [except Exception] of [snapshot_worker] calls nothing. *)
Lemma called_except ph (body : list event * option exn) :
  called ph (fst match body with
                 | (evs, Some e) =>
                     if is_Exception e
                     then (evs ++ [LoggedWorkerException e], None)
                     else (evs, Some e)
                 | (evs, None) => (evs, None)
                 end)
  = called ph (fst body).
Proof.
  destruct body as [evs [e|]]; [|done].
  destruct (is_Exception e); [apply called_logged | done].
Qed.

(** The callbacks called by [snapshot_worker] are those of its three
    loops. *)
Lemma worker_called hs update ty mains :
  update !! "@type" = Some (JStr ty) ->
  get ty hs = Some mains ->
  is_local_echo update = inr false ->
  forall ph,
    called ph (fst (snapshot_worker call true hs update)) =
    called ph (fst (snapshot_initializers call hs update)) ++
    match snd (snapshot_initializers call hs update) with
    | None => called ph (fst (snapshot_handlers call hs update))
    | Some _ => []
    end ++
    called ph (fst (snapshot_finalizers call hs update)).
Proof.
  intros Hty Hg Hecho ph. unfold snapshot_worker.
  rewrite Hty. cbn [type_registered]. rewrite Hg.
  rewrite bool_decide_eq_true_2 by eauto. rewrite Hecho.
  etransitivity; [apply called_except|].
  destruct (snapshot_initializers call hs update) as [evs1 r1].
  destruct (snapshot_finalizers call hs update) as [evs3 r3].
  cbn [fst snd].
  destruct r1 as [e1|].
  - cbn [fst]. by rewrite !called_app.
  - destruct (snapshot_handlers call hs update) as [evs2 r2].
    cbn [fst]. by rewrite !called_app.
Qed.


End SnapshotFacts.

Lemma is_local_echo_error update e :
  is_local_echo update = inl e -> is_Exception e = true.
Proof.
  unfold is_local_echo, getitem, subscript, contains.
  destruct (update !! "@type") as [ty|]; cbn; [|by intros [= <-]].
  destruct (eq_str ty "updateNewMessage"); [|done].
  destruct (update !! "message") as [message|]; cbn; [|by intros [= <-]].
  destruct message; cbn; try by intros [= <-].
  unfold getitem. destruct (m !! "is_outgoing") as [v|]; cbn;
    [|by intros [= <-]].
  by destruct (truthy v).
Qed.

Lemma type_registered_error ty hs e :
  type_registered ty hs = inl e -> is_Exception e = true.
Proof. destruct ty; cbn; try done; by intros [= <-]. Qed.

Section SnapshotWorker.
Context (call : nat -> dict -> exn + json).

Lemma snapshot_one_raised ph h update e :
  snd (snapshot_one call ph h update) = Some e ->
  (exists f, call f update = inl e) /\
  (is_StopHandlers e = true \/ is_Exception e = false).
Proof.
  unfold snapshot_one.
  assert (H : forall evs (r : exn + json),
             (forall e', r = inl e' -> exists f, call f update = inl e') ->
             snd match r with
                 | inr _ => (evs, None)
                 | inl e' =>
                     if is_StopHandlers e' then (evs, Some e')
                     else if is_Exception e'
                          then (evs ++ [LoggedFailure ph h], None)
                          else (evs, Some e')
                 end = Some e ->
             (exists f, call f update = inl e) /\
             (is_StopHandlers e = true \/ is_Exception e = false)).
  { intros evs [e'|v] Hr; [|done].
    destruct (is_StopHandlers e') eqn:E1; cbn.
    - intros [= <-]. split; [by apply Hr | by left].
    - destruct (is_Exception e') eqn:E2; cbn; [done|].
      intros [= <-]. split; [by apply Hr | by right]. }
  destruct (filter_ h) as [flt|].
  - destruct (call (filter_func flt) update) as [e'|v] eqn:E.
    + apply (H [] (inl e')). intros ? [= <-]. eauto.
    + destruct (truthy v).
      * apply H. intros e' He'. eauto.
      * done.
  - apply H. intros e' He'. eauto.
Qed.

Lemma snapshot_list_raised ph l update e :
  snd (snapshot_list call ph l update) = Some e ->
  (exists f, call f update = inl e) /\
  (is_StopHandlers e = true \/ is_Exception e = false).
Proof.
  induction l as [|h l IH]; cbn; [done|].
  pose proof (snapshot_one_raised ph h update) as Hh.
  destruct (snapshot_one call ph h update) as [evs [e'|]]; cbn in *.
  - intros [= <-]. by apply Hh.
  - destruct (snapshot_list call ph l update) as [evs' r]. exact IH.
Qed.

(** What leaves the chain over a snapshot is no [Exception], and was
    raised by a callable on the update. *)
Lemma snapshot_worker_raised is_running hs update e :
  snd (snapshot_worker call is_running hs update) = Some e ->
  is_Exception e = false /\ exists f, call f update = inl e.
Proof.
  set (raised := fun r : option exn =>
         forall e', r = Some e' ->
                    is_Exception e' = true \/ exists f, call f update = inl e').
  assert (H : forall body : list event * option exn,
             raised (snd body) ->
             snd match body with
                 | (evs, Some e') =>
                     if is_Exception e'
                     then (evs ++ [LoggedWorkerException e'], None)
                     else (evs, Some e')
                 | (evs, None) => (evs, None)
                 end = Some e ->
             is_Exception e = false /\ exists f, call f update = inl e).
  { intros [evs [e'|]] Hb; [|done].
    destruct (is_Exception e') eqn:E; cbn; [done|]. intros [= <-].
    split; [done|]. destruct (Hb e' eq_refl); [congruence | done]. }
  assert (HL : forall ph l, raised (snd (snapshot_list call ph l update))).
  { intros ph l e' He'. right. by apply snapshot_list_raised in He' as [? _]. }
  unfold snapshot_worker. destruct is_running; [|done]. apply H.
  destruct (update !! "@type") as [ty|] eqn:Hty; [|done].
  destruct (type_registered ty hs) as [e0|[]] eqn:Hreg; cbn; [| |done].
  { intros ? [= <-]. left. eapply type_registered_error; eauto. }
  destruct (is_local_echo update) as [e0|[]] eqn:Hecho; cbn; [|done|].
  { intros ? [= <-]. left. eapply is_local_echo_error; eauto. }
  assert (P1 : raised (snd (snapshot_initializers call hs update))).
  { unfold snapshot_initializers. destruct (get "initializer" hs); [done|].
    intros ? [= <-]. by left. }
  assert (P2 : raised (snd (snapshot_handlers call hs update))).
  { unfold snapshot_handlers. rewrite Hty.
    destruct ty; try (intros ? [= <-]; by left).
    destruct (get s hs); [done|]. intros ? [= <-]. by left. }
  assert (P3 : raised (snd (snapshot_finalizers call hs update))).
  { unfold snapshot_finalizers. destruct (get "finalizer" hs); [done|].
    intros ? [= <-]. by left. }
  destruct (snapshot_initializers call hs update) as [evs1 r1].
  destruct (snapshot_handlers call hs update) as [evs2 r2].
  destruct (snapshot_finalizers call hs update) as [evs3 r3].
  cbn in *.
  destruct r1 as [e1|]; cbn.
  - destruct r3 as [e3|]; cbn; [exact P3|].
    destruct (is_StopHandlers e1); [done | exact P1].
  - destruct r3 as [e3|]; cbn; [exact P3|].
    destruct r2 as [e2|]; [|done].
    destruct (is_StopHandlers e2); [done | exact P2].
Qed.

(** *** What a loop calls *)

Lemma passes_failure ph h update :
  (forall f e, call f update = inl e ->
               is_Exception e = true /\ is_StopHandlers e = false) ->
  passes call ph h update = true.
Proof.
  intros Hcall. unfold passes.
  destruct (snd (snapshot_one call ph h update)) as [e|] eqn:E; [|done].
  apply snapshot_one_raised in E as [[f Hf] He].
  destruct (Hcall f e Hf) as [H1 H2]. destruct He; congruence.
Qed.

Lemma all_pass_failure ph l update :
  (forall f e, call f update = inl e ->
               is_Exception e = true /\ is_StopHandlers e = false) ->
  forallb (fun h => passes call ph h update) l = true.
Proof.
  intros Hcall. apply forallb_forall. intros h _. by apply passes_failure.
Qed.

Lemma called_snapshot_list_sublist ph ph' l update :
  called ph' (fst (snapshot_list call ph l update))
  `sublist_of` (if phase_eqb ph' ph then map func l else []).
Proof.
  induction l as [|h l IH]; cbn.
  - by destruct (phase_eqb ph' ph).
  - pose proof (called_snapshot_one call ph ph' h update) as Hh.
    destruct (snapshot_one call ph h update) as [evs [e|]]; cbn in *.
    + rewrite Hh. destruct (phase_eqb ph' ph); cbn; [|done].
      destruct (applicable call h update).
      * constructor. apply sublist_nil_l.
      * apply sublist_nil_l.
    + destruct (snapshot_list call ph l update) as [evs' r]. cbn in *.
      rewrite called_app, Hh. destruct (phase_eqb ph' ph); cbn; [|done].
      destruct (applicable call h update); cbn; by constructor.
Qed.

Lemma called_phases_sublist hs update ph :
  called ph (fst (snapshot_initializers call hs update))
  `sublist_of` (if phase_eqb ph Pre then map func (handlers_of Pre hs update)
                else []) /\
  called ph (fst (snapshot_handlers call hs update))
  `sublist_of` (if phase_eqb ph Main then map func (handlers_of Main hs update)
                else []) /\
  called ph (fst (snapshot_finalizers call hs update))
  `sublist_of` (if phase_eqb ph Post then map func (handlers_of Post hs update)
                else []).
Proof.
  unfold snapshot_initializers, snapshot_handlers, snapshot_finalizers, handlers_of.
  split; [|split].
  - destruct (get "initializer" hs); cbn;
      [apply called_snapshot_list_sublist | apply sublist_nil_l].
  - destruct (update !! "@type") as [[| | |ty| |]|]; cbn;
      try apply sublist_nil_l.
    destruct (get ty hs); cbn;
      [apply called_snapshot_list_sublist | apply sublist_nil_l].
  - destruct (get "finalizer" hs); cbn;
      [apply called_snapshot_list_sublist | apply sublist_nil_l].
Qed.

(** The worker when the chain runs and no loop lets anything through. *)
Lemma worker_all_pass hs update ty inits mains finals :
  update !! "@type" = Some (JStr ty) ->
  is_local_echo update = inr false ->
  get "initializer" hs = Some inits ->
  get ty hs = Some mains ->
  get "finalizer" hs = Some finals ->
  snd (snapshot_list call Pre inits update) = None ->
  snd (snapshot_list call Main mains update) = None ->
  snd (snapshot_list call Post finals update) = None ->
  snd (snapshot_worker call true hs update) = None.
Proof.
  intros Hty Hecho Hi Hm Hf R1 R2 R3. unfold snapshot_worker.
  rewrite Hty. cbn [type_registered]. rewrite Hm.
  rewrite bool_decide_eq_true_2 by eauto. rewrite Hecho.
  unfold snapshot_initializers, snapshot_handlers, snapshot_finalizers.
  rewrite Hi, Hf, Hty, Hm.
  destruct (snapshot_list call Pre inits update) as [evs1 r1].
  destruct (snapshot_list call Main mains update) as [evs2 r2].
  destruct (snapshot_list call Post finals update) as [evs3 r3].
  cbn in *. by subst.
Qed.

Lemma failures_do_not_stop_the_chain_snapshot (hs : handlers) (update : dict)
    (ty : string) (inits mains finals : list Handler) :
  update !! "@type" = Some (JStr ty) ->
  is_local_echo update = inr false ->
  get "initializer" hs = Some inits ->
  get ty hs = Some mains ->
  get "finalizer" hs = Some finals ->
  (forall f e, call f update = inl e ->
               is_Exception e = true /\ is_StopHandlers e = false) ->
  let applicable_in l :=
    map func (List.filter (fun x => applicable call x update) l) in
  let evs := fst (snapshot_worker call true hs update) in
  snd (snapshot_worker call true hs update) = None /\
  called Pre evs = applicable_in inits /\
  called Main evs = applicable_in mains /\
  called Post evs = applicable_in finals.
Proof.
  intros Hty Hecho Hi Hm Hf Hcall applicable_in evs.
  pose proof (worker_called call hs update ty _ Hty Hm Hecho) as Hc.
  unfold snapshot_initializers, snapshot_handlers, snapshot_finalizers in Hc.
  rewrite Hi, Hf, Hty, Hm in Hc.
  destruct (snapshot_list_all_pass call Pre inits update
              (all_pass_failure Pre inits update Hcall)) as [I1 I2].
  destruct (snapshot_list_all_pass call Main mains update
              (all_pass_failure Main mains update Hcall)) as [M1 M2].
  destruct (snapshot_list_all_pass call Post finals update
              (all_pass_failure Post finals update Hcall)) as [F1 F2].
  rewrite I1 in Hc.
  split; [by eapply worker_all_pass|].
  unfold evs. rewrite !Hc, !I2, !M2, !F2. cbn. by rewrite !app_nil_r.
Qed.

Lemma stop_in_pre_phase_snapshot (hs : handlers) (update : dict) (ty : string)
    (before after mains finals : list Handler) (i : Handler) :
  update !! "@type" = Some (JStr ty) ->
  is_local_echo update = inr false ->
  get "initializer" hs = Some (before ++ i :: after) ->
  get ty hs = Some mains ->
  get "finalizer" hs = Some finals ->
  forallb (fun b => passes call Pre b update) before = true ->
  raises_stop call Pre i update = true ->
  let applicable_in l :=
    map func (List.filter (fun x => applicable call x update) l) in
  let evs := fst (snapshot_worker call true hs update) in
  called Pre evs = applicable_in (before ++ [i]) /\
  called Main evs = [] /\
  (forallb (fun f => passes call Post f update) finals = true ->
     called Post evs = applicable_in finals /\
     snd (snapshot_worker call true hs update) = None) /\
  (forall fb f fa,
     finals = fb ++ f :: fa ->
     forallb (fun x => passes call Post x update) fb = true ->
     passes call Post f update = false ->
     called Post evs = applicable_in (fb ++ [f])).
Proof.
  intros Hty Hecho Hi Hm Hf Hbefore Hstop applicable_in evs.
  pose proof (worker_called call hs update ty _ Hty Hm Hecho) as Hc.
  unfold snapshot_initializers, snapshot_handlers, snapshot_finalizers in Hc.
  rewrite Hi, Hf in Hc.
  destruct (snapshot_list_stops call Pre before i after update Hbefore
              (raises_stop_not_passes call _ _ _ Hstop)) as [I1 I2].
  assert (Hr : exists e, snd (snapshot_one call Pre i update) = Some e /\
                         is_StopHandlers e = true).
  { unfold raises_stop in Hstop.
    destruct (snd (snapshot_one call Pre i update)) as [e|]; [eauto | done]. }
  destruct Hr as (e & He & Hse). rewrite He in I1. rewrite I1 in Hc.
  split; [|split; [|split]].
  - unfold evs.
    rewrite Hc, I2, (called_other_phase call Post Pre) by done.
    cbn. by rewrite app_nil_r.
  - unfold evs.
    by rewrite Hc, I2, (called_other_phase call Post Main) by done.
  - intros Hfinals.
    destruct (snapshot_list_all_pass call Post finals update Hfinals) as [F1 F2].
    split; [unfold evs; by rewrite Hc, I2, F2|].
    unfold snapshot_worker.
    rewrite Hty. cbn [type_registered]. rewrite Hm.
    rewrite bool_decide_eq_true_2 by eauto. rewrite Hecho.
    unfold snapshot_initializers, snapshot_finalizers. rewrite Hi, Hf.
    destruct (snapshot_list call Pre (before ++ i :: after) update)
      as [evs1 r1].
    destruct (snapshot_list call Post finals update) as [evs3 r3].
    cbn in *. subst. by rewrite Hse.
  - intros fb f fa -> Hfb Hfail.
    destruct (snapshot_list_stops call Post fb f fa update Hfb Hfail) as [_ F2].
    unfold evs. by rewrite Hc, I2, F2.
Qed.

Lemma callbacks_called_in_list_order_snapshot (is_running : bool) (hs : handlers)
    (update : dict) (ph : phase) :
  called ph (fst (snapshot_worker call is_running hs update))
  `sublist_of` map func (handlers_of ph hs update) /\
  (forall f, has_callback f hs = false ->
             f ∉ called ph (fst (snapshot_worker call is_running hs update))).
Proof.
  assert (Hsub : called ph (fst (snapshot_worker call is_running hs update))
                 `sublist_of` map func (handlers_of ph hs update));
    [|split; [exact Hsub|]].
  2:{ intros f Hf Hin. eapply elem_of_sublist in Hin; [|exact Hsub].
      apply list_elem_of_fmap in Hin as (h & -> & Hh).
      assert (Hl : forall k, h ∈ default [] (get k hs) -> False).
      { intros k Hk. destruct (get k hs) as [l|] eqn:E; cbn in Hk.
        - pose proof (RegistryFacts.has_callback_get _ _ _ _ Hf E) as Hall.
          rewrite Forall_forall in Hall. by apply (Hall h Hk).
        - by apply elem_of_nil in Hk. }
      destruct ph; cbn [handlers_of] in Hh; try (by eapply Hl).
      destruct (update !! "@type") as [[| | |ty| |]|];
        try (by apply elem_of_nil in Hh).
      by eapply Hl. }
  unfold snapshot_worker. destruct is_running; [|apply sublist_nil_l].
  rewrite called_except.
  destruct (update !! "@type") as [ty|] eqn:Hty; [|apply sublist_nil_l].
  destruct (type_registered ty hs) as [e|[]]; try apply sublist_nil_l.
  destruct (is_local_echo update) as [e|[]]; try apply sublist_nil_l.
  destruct (called_phases_sublist hs update ph) as (P1 & P2 & P3).
  destruct (snapshot_initializers call hs update) as [evs1 r1].
  destruct (snapshot_finalizers call hs update) as [evs3 r3].
  assert (P2' : called ph (fst match r1 with
                               | None => snapshot_handlers call hs update
                               | Some e => ([], Some e)
                               end)
                `sublist_of` (if phase_eqb ph Main
                              then map func (handlers_of Main hs update)
                              else [])).
  { destruct r1; [apply sublist_nil_l | exact P2]. }
  destruct (match r1 with
            | None => snapshot_handlers call hs update
            | Some e => ([], Some e)
            end) as [evs2 r2].
  cbn [fst] in *. rewrite !called_app.
  destruct ph; cbn [phase_eqb] in *;
    repeat match goal with
           | H : _ `sublist_of` [] |- _ => apply sublist_nil_r in H; rewrite H
           end;
    rewrite ?app_nil_r; cbn [app]; assumption.
Qed.

End SnapshotWorker.

(** *** The code against the snapshot *)

Section Refinement.
Context (call : nat -> dict -> handlers -> effect).
Hypothesis Hquiet : quiet call.

(** An iteration with callables that leave the registry and the update
    alone. *)
Lemma run_one_quiet ph h update hs :
  run_one call ph h update hs
  = (snapshot_one (at_registry call hs) ph h update, hs, update).
Proof.
  unfold run_one, snapshot_one, at_registry, after. cbv zeta.
  destruct (Hquiet (func h) update hs) as [Hops Hupdate].
  destruct (filter_ h) as [flt|].
  - destruct (Hquiet (filter_func flt) update hs) as [Hops' Hupdate'].
    rewrite Hops', Hupdate'. cbn [foldl]. rewrite Hops, Hupdate. cbn [foldl].
    destruct (returned (call (filter_func flt) update hs)) as [e|v].
    + destruct (is_StopHandlers e); [done|]. by destruct (is_Exception e).
    + destruct (truthy v); [|done].
      destruct (returned (call (func h) update hs)) as [e|w]; [|done].
      destruct (is_StopHandlers e); [done|]. by destruct (is_Exception e).
  - rewrite Hops, Hupdate. cbn [foldl].
    destruct (returned (call (func h) update hs)) as [e|w]; [|done].
    destruct (is_StopHandlers e); [done|]. by destruct (is_Exception e).
Qed.

(** The loop, from the index [i] on, is the walk over the rest of the
    list as it was found, as soon as the fuel covers that rest. *)
Lemma run_list_quiet ph key update hs : forall s i fuel,
  drop i (default [] (get key hs)) = s ->
  length s < fuel ->
  run_list call fuel ph key i update hs
  = Some (snapshot_list (at_registry call hs) ph s update, hs, update).
Proof.
  induction s as [|h s IH]; intros i [|fuel] Hdrop Hlen;
    try (cbn in Hlen; lia); cbn [run_list snapshot_list].
  - rewrite lookup_ge_None_2; [done|].
    apply (f_equal length) in Hdrop. rewrite length_drop in Hdrop.
    cbn in Hdrop. lia.
  - assert (Hi : default [] (get key hs) !! i = Some h).
    { rewrite <- (Nat.add_0_r i), <- lookup_drop, Hdrop. done. }
    rewrite Hi, run_one_quiet.
    destruct (snapshot_one (at_registry call hs) ph h update) as [evs [e|]];
      [done|].
    rewrite (IH (S i) fuel).
    + by destruct (snapshot_list (at_registry call hs) ph s update).
    + rewrite <- (Nat.add_1_r i), <- drop_drop, Hdrop. done.
    + cbn in Hlen. lia.
Qed.

Lemma run_initializers_quiet fuel hs update :
  handler_count hs < fuel ->
  __run_initializers call fuel hs update
  = Some (snapshot_initializers (at_registry call hs) hs update, hs, update).
Proof.
  intros Hfuel. unfold __run_initializers, snapshot_initializers.
  destruct (get "initializer" hs) as [l|] eqn:E; [|done].
  apply run_list_quiet; [by rewrite E|].
  pose proof (RegistryFacts.length_get_le _ _ _ E). lia.
Qed.

Lemma run_handlers_quiet fuel hs update :
  handler_count hs < fuel ->
  __run_handlers call fuel hs update
  = Some (snapshot_handlers (at_registry call hs) hs update, hs, update).
Proof.
  intros Hfuel. unfold __run_handlers, snapshot_handlers.
  destruct (update !! "@type") as [[| | |ty| |]|]; try done.
  destruct (get ty hs) as [l|] eqn:E; [|done].
  apply run_list_quiet; [by rewrite E|].
  pose proof (RegistryFacts.length_get_le _ _ _ E). lia.
Qed.

Lemma run_finalizers_quiet fuel hs update :
  handler_count hs < fuel ->
  __run_finalizers call fuel hs update
  = Some (snapshot_finalizers (at_registry call hs) hs update, hs, update).
Proof.
  intros Hfuel. unfold __run_finalizers, snapshot_finalizers.
  destruct (get "finalizer" hs) as [l|] eqn:E; [|done].
  apply run_list_quiet; [by rewrite E|].
  pose proof (RegistryFacts.length_get_le _ _ _ E). lia.
Qed.

(** With callables that leave the registry and the update alone the
    worker is the chain over a snapshot, and the registry and the update
    are what they were. *)
Lemma worker_quiet fuel is_running hs update :
  handler_count hs < fuel ->
  _update_worker call fuel is_running hs update
  = Some (snapshot_worker (at_registry call hs) is_running hs update, hs,
          update).
Proof.
  intros Hfuel. unfold _update_worker, snapshot_worker.
  destruct is_running; [|done].
  destruct (update !! "@type") as [ty|]; [|done].
  destruct (type_registered ty hs) as [e|[]]; [by destruct (is_Exception e)| |done].
  destruct (is_local_echo update) as [e|[]];
    [by destruct (is_Exception e)|done|].
  unfold run_phases.
  rewrite run_initializers_quiet by done.
  destruct (snapshot_initializers (at_registry call hs) hs update)
    as [evs1 [e1|]].
  - rewrite run_finalizers_quiet by done.
    destruct (snapshot_finalizers (at_registry call hs) hs update)
      as [evs3 [e3|]].
    + by destruct (is_Exception e3).
    + destruct (is_StopHandlers e1); [done|]. by destruct (is_Exception e1).
  - rewrite run_handlers_quiet by done.
    destruct (snapshot_handlers (at_registry call hs) hs update)
      as [evs2 r2].
    rewrite run_finalizers_quiet by done.
    destruct (snapshot_finalizers (at_registry call hs) hs update)
      as [evs3 [e3|]].
    + by destruct (is_Exception e3).
    + destruct r2 as [e2|]; [|done].
      destruct (is_StopHandlers e2); [done|]. by destruct (is_Exception e2).
Qed.

End Refinement.

(** *** What the loops let through *)

Section Raised.
Context (call : nat -> dict -> handlers -> effect).

Lemma run_one_raised ph h update hs e :
  snd (fst (fst (run_one call ph h update hs))) = Some e ->
  (exists f update' hs', returned (call f update' hs') = inl e) /\
  (is_StopHandlers e = true \/ is_Exception e = false).
Proof.
  unfold run_one. cbv zeta.
  assert (H : forall evs (r : exn + json) (hs' : handlers) (update' : dict),
             (forall e', r = inl e' ->
                         exists f u hs'', returned (call f u hs'') = inl e') ->
             snd (fst (fst match r with
                           | inr _ => (evs, None, hs', update')
                           | inl e' =>
                               if is_StopHandlers e'
                               then (evs, Some e', hs', update')
                               else if is_Exception e'
                                    then (evs ++ [LoggedFailure ph h], None,
                                          hs', update')
                                    else (evs, Some e', hs', update')
                           end)) = Some e ->
             (exists f u hs'', returned (call f u hs'') = inl e) /\
             (is_StopHandlers e = true \/ is_Exception e = false)).
  { intros evs [e'|v] hs' update' Hr; [|done].
    destruct (is_StopHandlers e') eqn:E1; cbn.
    - intros [= <-]. split; [by apply Hr | by left].
    - destruct (is_Exception e') eqn:E2; cbn; [done|].
      intros [= <-]. split; [by apply Hr | by right]. }
  destruct (filter_ h) as [flt|].
  - destruct (returned (call (filter_func flt) update hs)) as [e'|v] eqn:E.
    + apply (H [] (inl e')). intros ? [= <-]. eauto.
    + destruct (truthy v).
      * apply H. intros e' He'. eauto.
      * done.
  - apply H. intros e' He'. eauto.
Qed.

Lemma run_list_raised ph key : forall fuel i update hs evs e hs' update',
  run_list call fuel ph key i update hs = Some (evs, Some e, hs', update') ->
  (exists f u hs'', returned (call f u hs'') = inl e) /\
  (is_StopHandlers e = true \/ is_Exception e = false).
Proof.
  induction fuel as [|fuel IH]; intros i update hs evs e hs' update';
    cbn [run_list]; [done|].
  destruct (default [] (get key hs) !! i) as [h|]; [|done].
  pose proof (run_one_raised ph h update hs) as Hh.
  destruct (run_one call ph h update hs) as [[[evs1 [e1|]] hs1] update1];
    cbn in Hh.
  - intros [= _ <- _ _]. by apply Hh.
  - destruct (run_list call fuel ph key (S i) update1 hs1)
      as [[[[evs2 r2] hs2] update2]|] eqn:E; [|done].
    intros [= _ -> _ _]. eapply IH, E.
Qed.

Lemma run_phases_raised fuel hs update evs r hs' update' :
  run_phases call fuel hs update = Some (evs, r, hs', update') ->
  caught_or_raised call r.
Proof.
  assert (HI : forall hs0 u0 evs0 r0 hs0' u0',
             __run_initializers call fuel hs0 u0
             = Some (evs0, r0, hs0', u0') ->
             caught_or_raised call r0).
  { unfold __run_initializers. intros hs0 u0 evs0 r0 hs0' u0'.
    destruct (get "initializer" hs0).
    - destruct r0 as [e|]; [|done].
      intros E%run_list_raised e' [= <-]. right. by destruct E.
    - intros [= _ <- _ _] e [= <-]. by left. }
  assert (HM : forall hs0 u0 evs0 r0 hs0' u0',
             __run_handlers call fuel hs0 u0 = Some (evs0, r0, hs0', u0') ->
             caught_or_raised call r0).
  { unfold __run_handlers. intros hs0 u0 evs0 r0 hs0' u0'.
    destruct (u0 !! "@type") as [[| | |ty| |]|];
      try (intros [= _ <- _ _] e [= <-]; by left).
    destruct (get ty hs0).
    - destruct r0 as [e|]; [|done].
      intros E%run_list_raised e' [= <-]. right. by destruct E.
    - intros [= _ <- _ _] e [= <-]. by left. }
  assert (HF : forall hs0 u0 evs0 r0 hs0' u0',
             __run_finalizers call fuel hs0 u0 = Some (evs0, r0, hs0', u0') ->
             caught_or_raised call r0).
  { unfold __run_finalizers. intros hs0 u0 evs0 r0 hs0' u0'.
    destruct (get "finalizer" hs0).
    - destruct r0 as [e|]; [|done].
      intros E%run_list_raised e' [= <-]. right. by destruct E.
    - intros [= _ <- _ _] e [= <-]. by left. }
  unfold run_phases.
  destruct (__run_initializers call fuel hs update)
    as [[[[evs1 r1] hs1] u1]|] eqn:E1; [|done].
  pose proof (HI _ _ _ _ _ _ E1) as P1.
  destruct r1 as [e1|].
  - destruct (__run_finalizers call fuel hs1 u1)
      as [[[[evs3 r3] hs3] u3]|] eqn:E3; [|done].
    pose proof (HF _ _ _ _ _ _ E3) as P3.
    intros [= _ <- _ _]. destruct r3 as [e3|]; [exact P3|].
    destruct (is_StopHandlers e1); [done | exact P1].
  - destruct (__run_handlers call fuel hs1 u1)
      as [[[[evs2 r2] hs2] u2]|] eqn:E2; [|done].
    pose proof (HM _ _ _ _ _ _ E2) as P2.
    destruct (__run_finalizers call fuel hs2 u2)
      as [[[[evs3 r3] hs3] u3]|] eqn:E3; [|done].
    pose proof (HF _ _ _ _ _ _ E3) as P3.
    intros [= _ <- _ _]. destruct r3 as [e3|]; [exact P3|].
    destruct r2 as [e2|]; [|done].
    destruct (is_StopHandlers e2); [done | exact P2].
Qed.

End Raised.

(** *** The worker *)




(** C7.  A "new message" event whose message is outgoing and still carries
    a [sending_state] leaves the worker before any loop: nothing is
    called, in no phase, nothing is logged, and the registry and the
    update are not touched. *)
Theorem local_echo_skips_the_chain
    (call : nat -> dict -> handlers -> effect) (fuel : nat)
    (is_running : bool) (hs : handlers) (update message : dict)
    (is_outgoing : json) :
  update !! "@type" = Some (JStr "updateNewMessage") ->
  update !! "message" = Some (JObj message) ->
  message !! "is_outgoing" = Some is_outgoing ->
  truthy is_outgoing = true ->
  is_Some (message !! "sending_state") ->
  _update_worker call fuel is_running hs update
  = Some ([], None, hs, update) /\
  forall ph,
    called ph (events (_update_worker call fuel is_running hs update)) = [].
Proof.
  intros Hty Hmsg Hout Htrue Hstate.
  assert (E : _update_worker call fuel is_running hs update
              = Some ([], None, hs, update)).
  { unfold _update_worker. destruct is_running; [|done].
    rewrite Hty. cbn [type_registered].
    destruct (bool_decide _); [|done].
    unfold is_local_echo, getitem. rewrite Hty, Hmsg. cbn.
    unfold getitem. rewrite Hout. cbn. rewrite Htrue.
    by rewrite bool_decide_eq_true_2. }
  split; [exact E|]. intros ph. by rewrite E.
Qed.

(** C7 at work on an outgoing message that is still being sent. *)
Lemma local_echo_skips_the_chain_witness :
  let hs := run [Add "updateNewMessage" 1 None None;
                 Add "initializer" 2 None None;
                 Add "finalizer" 3 None None] in
  local_echo !! "@type" = Some (JStr "updateNewMessage") /\
  (exists message,
     local_echo !! "message" = Some (JObj message) /\
     message !! "is_outgoing" = Some (JBool true) /\
     is_Some (message !! "sending_state")) /\
  _update_worker (quietly stop_in_1) 10 true hs local_echo
  = Some ([], None, hs, local_echo).
Proof.
  intros hs.
  set (message := ({["is_outgoing" := JBool true;
                     "sending_state" := JObj ∅]} : dict)).
  assert (H1 : local_echo !! "@type" = Some (JStr "updateNewMessage")) by done.
  assert (H2 : local_echo !! "message" = Some (JObj message)) by done.
  assert (H3 : message !! "is_outgoing" = Some (JBool true)) by done.
  assert (H4 : is_Some (message !! "sending_state")) by (by eexists).
  split; [exact H1|]. split; [by exists message|].
  exact (proj1 (local_echo_skips_the_chain (quietly stop_in_1) 10 true hs
                  local_echo message (JBool true) H1 H2 H3 eq_refl H4)).
Defined.

(** X8.  An ordinary exception never stops the chain.  When no callback
    and no predicate changes the registry or the update, or raises
    anything but
    [Exception]s other than the stop signal on an event, every applicable
    handler of every phase is called, once and in the order of its list:
    the pre-phase handlers, the handlers of the event's type, the
    post-phase handlers; and the worker returns normally. *)
Theorem failures_do_not_stop_the_chain
    (call : nat -> dict -> handlers -> effect) (fuel : nat)
    (hs : handlers) (update : dict) (ty : string)
    (inits mains finals : list Handler) :
  quiet call ->
  handler_count hs < fuel ->
  update !! "@type" = Some (JStr ty) ->
  is_local_echo update = inr false ->
  get "initializer" hs = Some inits ->
  get ty hs = Some mains ->
  get "finalizer" hs = Some finals ->
  (forall f e, returned (call f update hs) = inl e ->
               is_Exception e = true /\ is_StopHandlers e = false) ->
  let applicable_in l :=
    map func
      (List.filter (fun x => applicable (at_registry call hs) x update) l) in
  exists evs,
    _update_worker call fuel true hs update
    = Some (evs, None, hs, update) /\
    called Pre evs = applicable_in inits /\
    called Main evs = applicable_in mains /\
    called Post evs = applicable_in finals.
Proof.
  intros Hq Hfuel Hty Hecho Hi Hm Hf Hcall applicable_in.
  rewrite (worker_quiet call Hq fuel true hs update Hfuel).
  pose proof (failures_do_not_stop_the_chain_snapshot (at_registry call hs)
                hs update ty inits mains finals Hty Hecho Hi Hm Hf Hcall)
    as H.
  cbv zeta in H.
  destruct (snapshot_worker (at_registry call hs) true hs update) as [evs r].
  cbn [fst snd] in H. destruct H as [-> H].
  exists evs. split; [reflexivity | exact H].
Qed.

(** X8 at work: the pre-phase handler 1 raises a [ValueError]; the
    pre-phase handler 2, the handler 3 of the event's type and the
    post-phase handler 4 are called all the same. *)
Lemma failures_do_not_stop_the_chain_witness :
  let hs := two_initializers in
  let call := quietly value_error_in_1 in
  returned (call 1 update_user hs) = inl (ValueError "invalid literal") /\
  exists evs,
    _update_worker call 10 true hs update_user
    = Some (evs, None, hs, update_user) /\
    called Pre evs = [1; 2] /\ called Main evs = [3] /\ called Post evs = [4].
Proof.
  intros hs call. split; [reflexivity|].
  apply (failures_do_not_stop_the_chain call 10 hs update_user "updateUser"
           [handler "initializer" 1; handler "initializer" 2]
           [handler "updateUser" 3] [handler "finalizer" 4]);
    try done.
  - vm_compute. lia.
  - intros [|[|f]] e; cbn; try done. by intros [= <-].
Defined.

(** X9.  The stop signal in the pre-phase skips the main phase altogether.
    When no callback and no predicate changes the registry or the update
    and a pre-phase handler raises the stop signal, the pre-phase callbacks called are
    those of the applicable handlers up to and including that one, no
    handler of the event's type is called, and the post-phase still runs:
    when no post-phase handler lets an exception through, every applicable
    one is called and the worker returns normally; when one does, the
    applicable ones up to and including that one are called. *)
Theorem stop_in_pre_phase
    (call : nat -> dict -> handlers -> effect) (fuel : nat)
    (hs : handlers) (update : dict) (ty : string)
    (before after mains finals : list Handler) (i : Handler) :
  quiet call ->
  handler_count hs < fuel ->
  update !! "@type" = Some (JStr ty) ->
  is_local_echo update = inr false ->
  get "initializer" hs = Some (before ++ i :: after) ->
  get ty hs = Some mains ->
  get "finalizer" hs = Some finals ->
  forallb (fun b => passes (at_registry call hs) Pre b update) before = true ->
  raises_stop (at_registry call hs) Pre i update = true ->
  let applicable_in l :=
    map func
      (List.filter (fun x => applicable (at_registry call hs) x update) l) in
  exists evs r,
    _update_worker call fuel true hs update
    = Some (evs, r, hs, update) /\
    called Pre evs = applicable_in (before ++ [i]) /\
    called Main evs = [] /\
    (forallb (fun f => passes (at_registry call hs) Post f update) finals
     = true ->
     called Post evs = applicable_in finals /\ r = None) /\
    (forall fb f fa,
       finals = fb ++ f :: fa ->
       forallb (fun x => passes (at_registry call hs) Post x update) fb
       = true ->
       passes (at_registry call hs) Post f update = false ->
       called Post evs = applicable_in (fb ++ [f])).
Proof.
  intros Hq Hfuel Hty Hecho Hi Hm Hf Hbefore Hstop applicable_in.
  rewrite (worker_quiet call Hq fuel true hs update Hfuel).
  pose proof (stop_in_pre_phase_snapshot (at_registry call hs) hs update ty
                before after mains finals i Hty Hecho Hi Hm Hf Hbefore Hstop)
    as H.
  cbv zeta in H.
  destruct (snapshot_worker (at_registry call hs) true hs update) as [evs r].
  exists evs, r. split; [reflexivity | exact H].
Qed.

(** X9 at work: the pre-phase handler 1 raises the stop signal; the
    pre-phase handler 2 and the handler 3 of the event's type are not
    called, the post-phase handler 4 is. *)
Lemma stop_in_pre_phase_witness :
  let hs := two_initializers in
  let call := quietly stop_in_1 in
  raises_stop (at_registry call hs) Pre (handler "initializer" 1) update_user
  = true /\
  exists evs,
    _update_worker call 10 true hs update_user
    = Some (evs, None, hs, update_user) /\
    called Pre evs = [1] /\ called Main evs = [] /\ called Post evs = [4].
Proof.
  intros hs call. split; [reflexivity|].
  destruct (stop_in_pre_phase call 10 hs update_user "updateUser"
              [] [handler "initializer" 2] [handler "updateUser" 3]
              [handler "finalizer" 4] (handler "initializer" 1))
    as (evs & r & E & Hpre & Hmain & Hpost & _); try done.
  { vm_compute. lia. }
  destruct (Hpost eq_refl) as [Hp ->].
  exists evs. split; [exact E|]. split; [exact Hpre|].
  split; [exact Hmain | exact Hp].
Defined.

(** X10.  Nothing but a bare [BaseException] raised by a callback or a
    predicate leaves the worker: whatever the callables do to the registry
    and to the update, whatever the registry, the update and the running
    flag, every [Exception], the stop signal of a post-phase handler and
    the [KeyError] of a malformed event included, is caught and logged.
    (The worker ends whenever the callables leave the registry and the
    update alone; then it is on the update itself that the callable
    raised.) *)
Theorem worker_catches_exceptions
    (call : nat -> dict -> handlers -> effect) (fuel : nat)
    (is_running : bool) (hs : handlers) (update : dict) :
  match _update_worker call fuel is_running hs update with
  | Some (_, Some e, _, _) =>
      is_Exception e = false /\
      exists f update' hs', returned (call f update' hs') = inl e
  | _ => True
  end /\
  (quiet call -> handler_count hs < fuel ->
   exists evs r,
     _update_worker call fuel is_running hs update
     = Some (evs, r, hs, update) /\
     forall e, r = Some e ->
               is_Exception e = false /\
               exists f, returned (call f update hs) = inl e).
Proof.
  split.
  2:{ intros Hq Hfuel. rewrite worker_quiet by done.
      pose proof (snapshot_worker_raised (at_registry call hs) is_running hs
                    update) as H.
      destruct (snapshot_worker (at_registry call hs) is_running hs update)
        as [evs r].
      exists evs, r. split; [reflexivity|]. intros e ->. by apply H. }
  unfold _update_worker. destruct is_running; [|done].
  destruct (update !! "@type") as [ty|]; [|done].
  destruct (type_registered ty hs) as [e|[]] eqn:Hreg; [| |done].
  { by rewrite (type_registered_error _ _ _ Hreg). }
  destruct (is_local_echo update) as [e|[]] eqn:Hecho; [|done|].
  { by rewrite (is_local_echo_error _ _ Hecho). }
  destruct (run_phases call fuel hs update) as [[[[evs r] hs'] update']|]
    eqn:E; [|done].
  pose proof (run_phases_raised call _ _ _ _ _ _ _ E) as P.
  destruct r as [e|]; [|done].
  destruct (is_Exception e) eqn:Ee; [done|]. split; [done|].
  destruct (P e eq_refl); [congruence | done].
Qed.

(** X11.  When no callback and no predicate changes the registry or the
    update, every callback is called at most once per registration for an event, and in
    the order of its list: what the worker calls in a phase is, in order,
    part of the callbacks of the list of that phase.  A callback that no
    handler of the registry has, one that was removed before the event
    for instance, is not called. *)
Theorem callbacks_called_in_list_order
    (call : nat -> dict -> handlers -> effect) (fuel : nat)
    (is_running : bool) (hs : handlers) (update : dict) (ph : phase) :
  quiet call ->
  handler_count hs < fuel ->
  exists evs r,
    _update_worker call fuel is_running hs update
    = Some (evs, r, hs, update) /\
    called ph evs `sublist_of` map func (handlers_of ph hs update) /\
    (forall f, has_callback f hs = false -> f ∉ called ph evs).
Proof.
  intros Hq Hfuel.
  rewrite (worker_quiet call Hq fuel is_running hs update Hfuel).
  pose proof (callbacks_called_in_list_order_snapshot (at_registry call hs)
                is_running hs update ph) as H.
  destruct (snapshot_worker (at_registry call hs) is_running hs update)
    as [evs r].
  exists evs, r. split; [reflexivity | exact H].
Qed.

(** X11 at work on the post-phase of a chain that the main-phase handler 1
    stops. *)
Lemma callbacks_called_in_list_order_witness :
  let hs := one_main_two_finalizers in
  exists evs r,
    _update_worker (quietly stop_in_1) 10 true hs update_user
    = Some (evs, r, hs, update_user) /\
    called Post evs `sublist_of` [2; 3] /\
    (forall f, has_callback f hs = false -> f ∉ called Post evs).
Proof.
  intros hs.
  apply (callbacks_called_in_list_order (quietly stop_in_1) 10 true hs
           update_user Post).
  - intros f u hs'. by split.
  - vm_compute. lia.
Defined.

(** X12.  An event whose type no [add_handler] call ever named runs
    nothing at all: not the pre-phase handlers, not the post-phase
    handlers, and nothing is logged. *)
Theorem unregistered_type_runs_nothing
    (call : nat -> dict -> handlers -> effect) (fuel : nat)
    (is_running : bool) (ops : list op) (update : dict) (ty : string) :
  update !! "@type" = Some (JStr ty) ->
  ty ∉ "initializer" :: "finalizer" :: added_types ops ->
  _update_worker call fuel is_running (run ops) update
  = Some ([], None, run ops, update).
Proof.
  intros Hty Hnew. unfold _update_worker. destruct is_running; [|done].
  rewrite Hty. cbn [type_registered].
  rewrite bool_decide_eq_false_2; [done|].
  rewrite RegistryFacts.get_is_Some, RegistryFacts.run_keys. done.
Qed.

(** X12 at work: pre-phase and post-phase handlers are registered, and an
    event of a type without handlers passes by. *)
Lemma unregistered_type_runs_nothing_witness :
  get "initializer" two_initializers
  = Some [handler "initializer" 1; handler "initializer" 2] /\
  _update_worker (quietly stop_in_1) 10 true two_initializers
    update_chat_title
  = Some ([], None, two_initializers, update_chat_title).
Proof.
  split; [reflexivity|].
  apply (unregistered_type_runs_nothing (quietly stop_in_1) 10 true
           [Add "initializer" 1 None None; Add "initializer" 2 None None;
            Add "updateUser" 3 None None; Add "finalizer" 4 None None]
           update_chat_title "updateChatTitle"); [done|].
  cbn. intros H.
  repeat (apply elem_of_cons in H as [H|H]; [discriminate H|]).
  by apply elem_of_nil in H.
Defined.

(** X13.  A "new message" event that has no message, or whose message has
    no [is_outgoing] field, fails the local echo test with a [KeyError]:
    the worker logs it and calls no handler, though handlers are registered
    for new messages. *)
Theorem malformed_new_message
    (call : nat -> dict -> handlers -> effect) (fuel : nat)
    (hs : handlers) (update : dict) :
  update !! "@type" = Some (JStr "updateNewMessage") ->
  is_Some (get "updateNewMessage" hs) ->
  update !! "message" = None \/
  (exists message, update !! "message" = Some (JObj message) /\
                   message !! "is_outgoing" = None) ->
  exists k,
    _update_worker call fuel true hs update
    = Some ([LoggedWorkerException (KeyError k)], None, hs, update).
Proof.
  intros Hty Hreg Hmsg. unfold _update_worker.
  rewrite Hty. cbn [type_registered].
  rewrite bool_decide_eq_true_2 by done.
  unfold is_local_echo, getitem. rewrite Hty. cbn.
  destruct Hmsg as [Hmsg|(message & Hmsg & Hout)]; rewrite Hmsg; cbn.
  - by eexists.
  - unfold getitem. rewrite Hout. cbn. by eexists.
Qed.

(** X13 at work on an event that is nothing but its type. *)
Lemma malformed_new_message_witness :
  exists k,
    _update_worker (quietly stop_in_1) 10 true
      (run [Add "updateNewMessage" 1 None None])
      new_message_without_message
    = Some ([LoggedWorkerException (KeyError k)], None,
            run [Add "updateNewMessage" 1 None None],
            new_message_without_message).
Proof.
  apply (malformed_new_message (quietly stop_in_1) 10
           (run [Add "updateNewMessage" 1 None None])
           new_message_without_message).
  - reflexivity.
  - by eexists.
  - by left.
Defined.

End ChainFacts.

(** ** Calls *)
Module CallsFacts.
Import Py Runtime Calls PyFacts.

Lemma key_inj n m : key n = key m -> n = m.
Proof. unfold key. cbn. intros [= H]. exact (inj pretty _ _ H). Qed.

Lemma attach_attach k1 k2 d : attach k2 (attach k1 d) = attach k2 d.
Proof. unfold attach. apply insert_insert_eq. Qed.

Lemma attach_lookup_ne k d f : f <> "@extra" -> attach k d !! f = d !! f.
Proof. intros H. unfold attach. by rewrite lookup_insert_ne. Qed.

Lemma referenced_message_attach k d :
  referenced_message (attach k d) = referenced_message d.
Proof. unfold referenced_message. by rewrite !attach_lookup_ne. Qed.

(** *** Running the monad *)

Lemma run_bind {A B} (m : M A) (f : A -> M B) c :
  (m ≫= f) c = match m c with
               | (inl e, c') => (inl e, c')
               | (inr a, c') => f a c'
               end.
Proof. reflexivity. Qed.

Lemma run_exchange {A} r (k : Result -> M A) c :
  (register r ≫= fun _ => __send (request r) ≫= fun _ => wait r ≫= k) c
  = k (answered r c) (after_exchange r c).
Proof. reflexivity. Qed.

Lemma run_exchange_last r c :
  (register r ≫= fun _ => __send (request r) ≫= fun _ => wait r) c
  = (inr (answered r c), after_exchange r c).
Proof. reflexivity. Qed.

(** *** Frames *)

Ltac split_extends :=
  unfold extends; cbn;
  repeat match goal with |- _ /\ _ => split end;
  try reflexivity; try congruence; try lia.

Lemma extends_refl c : extends c c.
Proof. split_extends. exists []. by rewrite app_nil_r. Qed.

Lemma extends_trans c1 c2 c3 : extends c1 c2 -> extends c2 c3 -> extends c1 c3.
Proof.
  intros (?&?&?&?&?&?&?&evs&?) (?&?&?&?&?&?&?&evs'&?).
  split_extends.
  exists (evs ++ evs'). rewrite app_assoc. congruence.
Qed.

Lemma extends_emit ev c : extends c (emit ev c).
Proof. split_extends. by exists [ev]. Qed.

Lemma extends_with_results t c : extends c (with_results t c).
Proof. split_extends. exists []. by rewrite app_nil_r. Qed.

Lemma extends_with_next_id c : extends c (with_next_id (S (next_id c)) c).
Proof. split_extends. exists []. by rewrite app_nil_r. Qed.

Lemma extends_after_exchange r c : extends c (after_exchange r c).
Proof.
  unfold after_exchange.
  eapply extends_trans; [apply extends_emit | apply extends_with_results].
Qed.

Lemma framed_ret {A} (a : A) : framed (mret a).
Proof. intros c r c' [= _ <-]. apply extends_refl. Qed.

Lemma framed_raise {A} e : framed (raise (A:=A) e).
Proof. intros c r c' [= _ <-]. apply extends_refl. Qed.

Lemma framed_lift {A} (x : exn + A) : framed (lift x).
Proof. intros c r c' [= _ <-]. apply extends_refl. Qed.

Lemma framed_read {A} (f : Client -> A) : framed (read f).
Proof. intros c r c' [= _ <-]. apply extends_refl. Qed.

Lemma framed_tell ev : framed (tell ev).
Proof. intros c r c' [= _ <-]. apply extends_emit. Qed.

Lemma framed_send d : framed (__send d).
Proof. apply framed_tell. Qed.

Lemma framed_sleep n : framed (sleep n).
Proof. unfold sleep. destruct (n <? 0)%Z; [apply framed_raise | apply framed_tell]. Qed.

Lemma framed_new_Result d : framed (new_Result d).
Proof. intros c r c' [= _ <-]. apply extends_with_next_id. Qed.

Lemma framed_reset x : framed (reset x).
Proof. intros c r c' [= _ <-]. apply extends_with_next_id. Qed.

Lemma framed_register x : framed (register x).
Proof. intros c r c' [= _ <-]. apply extends_with_results. Qed.

Lemma framed_wait x : framed (wait x).
Proof. intros c r c' [= _ <-]. apply extends_with_results. Qed.

Lemma framed_bind {A B} (m : M A) (f : A -> M B) :
  framed m -> (forall a, framed (f a)) -> framed (m ≫= f).
Proof.
  intros Hm Hf c r c'. rewrite run_bind.
  destruct (m c) as [[e|a] c1] eqn:E.
  - intros [= _ <-]. eapply Hm, E.
  - intros H. eapply extends_trans; [eapply Hm, E | eapply Hf, H].
Qed.

Create HintDb framed.

#[local] Hint Resolve framed_ret framed_raise framed_lift framed_read
  framed_tell framed_send framed_sleep framed_new_Result framed_reset
  framed_register framed_wait : framed.

Ltac framed_step :=
  first
    [ apply framed_bind; [|intros ?]
    | solve [auto with framed]
    | match goal with
      | |- framed (match ?x with _ => _ end) => destruct x
      end ].

Lemma framed_invoke depth : forall payload, framed (invoke depth payload).
Proof.
  induction depth as [|depth IH]; intros payload; cbn [invoke].
  - apply framed_raise.
  - repeat framed_step.
Qed.


Lemma invoke_extends depth payload c r c' :
  invoke depth payload c = (r, c') -> extends c c'.
Proof. apply framed_invoke. Qed.

(** *** The retry policies *)

(** One step of a method: run the first action of a sequence. *)
Ltac step :=
  first
    [ rewrite run_exchange
    | rewrite run_exchange_last
    | rewrite run_bind;
      cbn [new_Result reset read lift tell raise mret M_ret sleep] ].

Ltac fields :=
  cbn [config _tdjson is_running is_authenticated _results
       authorization_state __authorization __login __is_closing
       workers_shutdown next_id trace
       after_exchange with_results emit with_next_id
       answered id request result].


Example retry_after_3 :
  get_retry_after_time "Too Many Requests: retry after 3" = 3%Z.
Proof. reflexivity. Qed.

Example retry_after_unparseable :
  get_retry_after_time "Too Many Requests: retry after a while" = 0%Z.
Proof. reflexivity. Qed.

Example retry_after_without_prefix : get_retry_after_time " 1_0 " = 10%Z.
Proof. reflexivity. Qed.

(** What [invoke] does when the answer to its first request is the error
    429. *)
Lemma invoke_rate_limited depth payload c message :
  _tdjson c (key (next_id c)) = Error 429 message ->
  invoke (S depth) payload c =
  let r0 := {| id := key (next_id c);
               request := attach (key (next_id c)) payload;
               result := None |} in
  let c0 := after_exchange r0 (with_next_id (S (next_id c)) c) in
  if (get_retry_after_time message <=? sleep_threshold (config c))%Z then
    let k2 := key (S (next_id c)) in
    let r1 := {| id := k2; request := attach k2 payload; result := None |} in
    match payload !! "@type" with
    | None => (inl (KeyError "@type"), with_next_id (S (S (next_id c))) c0)
    | Some caused_by =>
        if (get_retry_after_time message <? 0)%Z then
          (inl (ValueError "sleep length must be non-negative"),
           emit (Logged (Sleeping (get_retry_after_time message) caused_by))
             (with_next_id (S (S (next_id c))) c0))
        else
          let c1 := emit (Slept (get_retry_after_time message))
                      (emit (Logged (Sleeping (get_retry_after_time message)
                                       caused_by))
                         (with_next_id (S (S (next_id c))) c0)) in
          (inr (answered r1 c), after_exchange r1 c1)
    end
  else (inr (answered r0 c), c0).
Proof.
  intros Hsrv. cbn [invoke]. do 2 step.
  fields. rewrite Hsrv.
  do 2 step. fields. cbn [Z.eqb Pos.eqb].
  destruct (_ <=? _)%Z; [|reflexivity].
  do 2 step. fields. unfold getitem.
  rewrite attach_attach, attach_lookup_ne by done.
  destruct (payload !! "@type") as [caused_by|]; [|reflexivity].
  do 2 step. unfold sleep.
  destruct (_ <? 0)%Z; [reflexivity|]. cbn [tell].
  step. reflexivity.
Qed.


Lemma trace_after_issuing payload c :
  trace (after_issuing payload c)
  = trace c ++ [Sent (attach (key (next_id c)) payload)].
Proof. reflexivity. Qed.

Lemma invoke_stale_chat depth payload c chat_id :
  _tdjson c (key (next_id c)) = Error 400 "Chat not found" ->
  use_message_database (config c) = false ->
  payload !! "chat_id" = Some chat_id ->
  invoke (S depth) payload c =
  match getChat depth chat_id (after_issuing payload c) with
  | (inl e, c1) => (inl e, c1)
  | (inr load_chat, c1) =>
      if is_error load_chat then
        (inr (issued payload c), emit (Logged (CouldntLoadChat chat_id)) c1)
      else
        match gt_0 (referenced_message payload) with
        | inl e => (inl e, c1)
        | inr false => (inr (issued payload c1), after_issuing payload c1)
        | inr true =>
            match getMessage depth chat_id (referenced_message payload) c1 with
            | (inl e, c2) => (inl e, c2)
            | (inr _, c2) => (inr (issued payload c2), after_issuing payload c2)
            end
        end
  end.
Proof.
  intros Hsrv Hdb Hchat. cbn [invoke]. do 2 step.
  fields. rewrite Hsrv.
  do 2 step. fields. rewrite Hdb.
  cbn [Z.eqb Pos.eqb negb andb String.eqb Ascii.eqb Bool.eqb].
  rewrite attach_lookup_ne, Hchat by done.
  rewrite bool_decide_eq_true_2 by eauto.
  step. unfold getitem. rewrite attach_lookup_ne, Hchat by done.
  step. unfold getChat, after_issuing.
  destruct (invoke depth (getChat_data chat_id) _) as [[e|load_chat] c1];
    [reflexivity|].
  destruct (is_error load_chat); cbn [negb].
  - step. unfold mret, M_ret, issued, answered. fields. rewrite Hsrv.
    reflexivity.
  - step. rewrite referenced_message_attach.
    destruct (gt_0 (referenced_message payload)) as [e|[|]]; [reflexivity| |].
    + step. step. unfold getMessage.
      destruct (invoke depth (getMessage_data _ _) c1) as [[e|r] c2];
        [reflexivity|].
      unfold mret, M_ret. step. step. fields. rewrite attach_attach.
      reflexivity.
    + step. step. fields. rewrite attach_attach. reflexivity.
Qed.


Lemma after_issuing_extends payload c : extends c (after_issuing payload c).
Proof.
  unfold after_issuing.
  eapply extends_trans; [apply extends_with_next_id | apply extends_after_exchange].
Qed.

Lemma next_id_after_issuing payload c :
  next_id (after_issuing payload c) = S (next_id c).
Proof. reflexivity. Qed.



(** C1.  When the answer to a request issued through [invoke] is an error
    with code 429 whose message carries the retry-after value [N] (a
    number of seconds, so not negative): if [N] is at most the configured
    [sleep_threshold], the client sleeps [N] seconds, sends the same
    payload once more under a new correlation key, and the caller gets the
    answer to that second request, whatever it is; if [N] exceeds the
    threshold nothing more is sent and the caller gets the 429 error
    itself. *)
Theorem rate_limit_retry (depth : nat) (payload : dict) (c : Client)
    (message : string) (caused_by : json) :
  let k1 := key (next_id c) in
  let k2 := key (S (next_id c)) in
  let N := get_retry_after_time message in
  _tdjson c k1 = Error 429 message ->
  payload !! "@type" = Some caused_by ->
  (0 <= N)%Z ->
  k1 <> k2 /\
  ((N <= sleep_threshold (config c))%Z ->
     exists c',
       invoke (S depth) payload c =
         (inr {| id := k2; request := attach k2 payload;
                 result := Some (_tdjson c k2) |}, c') /\
       trace c' = trace c ++ [Sent (attach k1 payload);
                              Logged (Sleeping N caused_by);
                              Slept N;
                              Sent (attach k2 payload)]) /\
  ((sleep_threshold (config c) < N)%Z ->
     exists c',
       invoke (S depth) payload c =
         (inr {| id := k1; request := attach k1 payload;
                 result := Some (Error 429 message) |}, c') /\
       trace c' = trace c ++ [Sent (attach k1 payload)]).
Proof.
  intros k1 k2 N Hsrv Hty HN.
  split; [intros H; apply key_inj in H; lia|].
  pose proof (invoke_rate_limited depth payload c message Hsrv) as E.
  cbv zeta in E. fold N k1 k2 in E. rewrite Hty in E.
  split; intros HNt.
  - destruct (Z.leb_spec N (sleep_threshold (config c))); [|lia].
    destruct (Z.ltb_spec N 0); [lia|].
    eexists. split; [exact E|].
    cbn. rewrite <- !app_assoc. reflexivity.
  - destruct (Z.leb_spec N (sleep_threshold (config c))); [lia|].
    eexists. split; [rewrite E; unfold answered; cbn; by rewrite Hsrv|].
    reflexivity.
Qed.

(** C1 at work: rate-limited for 3 seconds under a threshold of 5, the
    request is sent twice and the caller gets the second answer. *)
Lemma rate_limit_retry_witness :
  let c := example_client 5 flood_then_ok in
  let message := "Too Many Requests: retry after 3" in
  _tdjson c (key 0) = Error 429 message /\
  send_message !! "@type" = Some (JStr "sendMessage") /\
  (0 <= get_retry_after_time message)%Z /\
  exists c',
    invoke 1 send_message c =
      (inr {| id := key 1; request := attach (key 1) send_message;
              result := Some (Success ∅) |}, c') /\
    trace c' = [Sent (attach (key 0) send_message);
                Logged (Sleeping 3 (JStr "sendMessage"));
                Slept 3;
                Sent (attach (key 1) send_message)].
Proof.
  intros c message.
  assert (H1 : _tdjson c (key (next_id c)) = Error 429 message) by reflexivity.
  assert (H2 : send_message !! "@type" = Some (JStr "sendMessage"))
    by reflexivity.
  assert (H3 : (0 <= get_retry_after_time message)%Z) by (by vm_compute).
  split; [exact H1|]. split; [exact H2|]. split; [exact H3|].
  destruct (rate_limit_retry 0 send_message c message (JStr "sendMessage")
              H1 H2 H3) as (_ & Hretry & _).
  apply Hretry. by vm_compute.
Defined.


(** The stale-chat policy when the lookups return.  Message-database
    caching is disabled, the answer to a request that carries a [chat_id]
    is the error 400 "Chat not found": the client issues the chat lookup
    [getChat].  If the lookup returns an error, the caller gets the
    original error and nothing else is sent.  If it returns a chat, the
    message loaded is the request's [reply_to_message_id] when it has that
    key, else its [message_id]: when that id is greater than 0 the client
    issues [getMessage] for it, otherwise no message lookup; then the
    request is sent once more, under a new key, and the caller gets the
    answer to it. *)
Lemma stale_chat_recovery (depth : nat) (payload : dict) (c : Client)
    (chat_id : json) (load_chat : Result) (c1 : Client) :
  let k1 := key (next_id c) in
  use_message_database (config c) = false ->
  _tdjson c k1 = Error 400 "Chat not found" ->
  payload !! "chat_id" = Some chat_id ->
  getChat depth chat_id (after_issuing payload c) = (inr load_chat, c1) ->
  trace (after_issuing payload c) = trace c ++ [Sent (attach k1 payload)] /\
  (is_error load_chat = true ->
     exists c',
       invoke (S depth) payload c =
         (inr {| id := k1; request := attach k1 payload;
                 result := Some (Error 400 "Chat not found") |}, c') /\
       trace c' = trace c1 ++ [Logged (CouldntLoadChat chat_id)]) /\
  (is_error load_chat = false ->
     forall m : Z, referenced_message payload = JInt m ->
       ((m <= 0)%Z ->
          let k2 := key (next_id c1) in
          k2 <> k1 /\
          exists c',
            invoke (S depth) payload c =
              (inr {| id := k2; request := attach k2 payload;
                      result := Some (_tdjson c k2) |}, c') /\
            trace c' = trace c1 ++ [Sent (attach k2 payload)]) /\
       ((0 < m)%Z ->
          forall r c2,
            getMessage depth chat_id (JInt m) c1 = (inr r, c2) ->
            let k2 := key (next_id c2) in
            k2 <> k1 /\
            exists c',
              invoke (S depth) payload c =
                (inr {| id := k2; request := attach k2 payload;
                        result := Some (_tdjson c k2) |}, c') /\
              trace c' = trace c2 ++ [Sent (attach k2 payload)])).
Proof.
  intros k1 Hdb Hsrv Hchat Hlookup.
  pose proof (invoke_stale_chat depth payload c chat_id Hsrv Hdb Hchat) as E.
  rewrite Hlookup in E.
  assert (X1 : extends c c1).
  { eapply extends_trans; [apply (after_issuing_extends payload)|].
    eapply invoke_extends, Hlookup. }
  assert (N1 : (S (next_id c) <= next_id c1)%nat).
  { apply invoke_extends in Hlookup.
    destruct Hlookup as (_&_&_&_&_&_&Hn&_). exact Hn. }
  split; [reflexivity|]. split.
  - intros Herr. rewrite Herr in E. eexists. split.
    + rewrite E. unfold issued. fold k1. by rewrite Hsrv.
    + reflexivity.
  - intros Herr m Hm. rewrite Herr, Hm in E. cbn [gt_0] in E. split.
    + intros Hle. destruct (Z.ltb_spec 0 m); [lia|].
      split; [intros H'; apply key_inj in H'; lia|].
      eexists. split; [|apply trace_after_issuing].
      rewrite E. unfold issued.
      destruct X1 as (_&->&_). reflexivity.
    + intros Hlt r c2 Hmsg. destruct (Z.ltb_spec 0 m); [|lia].
      rewrite Hmsg in E.
      assert (X2 : extends c1 c2) by (eapply invoke_extends, Hmsg).
      split.
      { intros H'. apply key_inj in H'.
        destruct X2 as (_&_&_&_&_&_&Hn&_). lia. }
      eexists. split; [|apply trace_after_issuing].
      rewrite E. unfold issued.
      destruct X2 as (_&->&_). destruct X1 as (_&->&_). reflexivity.
Qed.

(** The policy at work: the chat is loaded, then the message 7 the request
    refers to, then the request is sent again. *)
Lemma stale_chat_recovery_example :
  let c := example_client 0 stale_then_ok in
  let c0 := after_issuing edit_message c in
  let chat := getChat_data (JInt 42) in
  let c1 := after_issuing chat c0 in
  let msg := getMessage_data (JInt 42) (JInt 7) in
  let c2 := after_issuing msg c1 in
  use_message_database (config c) = false /\
  _tdjson c (key 0) = Error 400 "Chat not found" /\
  edit_message !! "chat_id" = Some (JInt 42) /\
  getChat 1 (JInt 42) c0 = (inr (issued chat c0), c1) /\
  is_error (issued chat c0) = false /\
  referenced_message edit_message = JInt 7 /\
  getMessage 1 (JInt 42) (JInt 7) c1 = (inr (issued msg c1), c2) /\
  exists c',
    invoke 2 edit_message c =
      (inr {| id := key 3; request := attach (key 3) edit_message;
              result := Some (Success ∅) |}, c') /\
    trace c' = [Sent (attach (key 0) edit_message);
                Sent (attach (key 1) chat);
                Sent (attach (key 2) msg);
                Sent (attach (key 3) edit_message)].
Proof.
  intros c c0 chat c1 msg c2.
  assert (H1 : use_message_database (config c) = false) by reflexivity.
  assert (H2 : _tdjson c (key (next_id c)) = Error 400 "Chat not found")
    by reflexivity.
  assert (H3 : edit_message !! "chat_id" = Some (JInt 42)) by reflexivity.
  assert (H4 : getChat 1 (JInt 42) c0 = (inr (issued chat c0), c1))
    by reflexivity.
  assert (H5 : is_error (issued chat c0) = false) by reflexivity.
  assert (H6 : referenced_message edit_message = JInt 7) by reflexivity.
  assert (H7 : getMessage 1 (JInt 42) (JInt 7) c1 = (inr (issued msg c1), c2))
    by reflexivity.
  repeat (split; [assumption|]).
  destruct (stale_chat_recovery 1 edit_message c (JInt 42) (issued chat c0) c1
              H1 H2 H3 H4) as (_ & _ & Hok).
  destruct (Hok H5 7%Z H6) as (_ & Hpos).
  destruct (Hpos ltac:(done) (issued msg c1) c2 H7) as (_ & c' & E & T).
  exists c'. split; [exact E|]. rewrite T. reflexivity.
Defined.

(** On a request that carries both ids, with [reply_to_message_id] 0 and
    [message_id] 7, the chat lookup succeeds and the request is sent again,
    but no message lookup is issued: the policy reads [message_id] only
    when the request has no [reply_to_message_id]. *)
Lemma stale_chat_reads_one_id :
  let c := example_client 0 stale_then_ok in
  use_message_database (config c) = false /\
  _tdjson c (key 0) = Error 400 "Chat not found" /\
  forward_message !! "chat_id" = Some (JInt 42) /\
  (exists m, forward_message !! "message_id" = Some (JInt m) /\ (0 < m)%Z) /\
  sent_for "getChat" (trace (snd (invoke 2 forward_message c)))
    = [attach (key 1) (getChat_data (JInt 42))] /\
  _tdjson c (key 1) = Success ∅ /\
  sent_for "forwardMessage" (trace (snd (invoke 2 forward_message c)))
    = [attach (key 0) forward_message; attach (key 2) forward_message] /\
  sent_for "getMessage" (trace (snd (invoke 2 forward_message c))) = [].
Proof.
  intros c. repeat split; try (by vm_compute).
  exists 7%Z. split; [by vm_compute | lia].
Qed.

(** X14.  The lookup [getChat] carries a [chat_id] itself and goes through
    [invoke]: when TDLib answers every request with "Chat not found", each
    lookup starts another one and [invoke] ends in [RecursionError]
    however deep the interpreter lets it go. *)
Lemma unknown_chat_exhausts_the_stack (depth : nat) :
  forall (payload : dict) (c : Client) (chat_id : json),
    (forall k, _tdjson c k = Error 400 "Chat not found") ->
    use_message_database (config c) = false ->
    payload !! "chat_id" = Some chat_id ->
    exists c', invoke depth payload c = (inl RecursionError, c').
Proof.
  induction depth as [|depth IH]; intros payload c chat_id Hsrv Hdb Hchat.
  - eexists. reflexivity.
  - rewrite (invoke_stale_chat depth payload c chat_id (Hsrv _) Hdb Hchat).
    unfold getChat.
    destruct (IH (getChat_data chat_id) (after_issuing payload c) chat_id)
      as [c' E]; [exact Hsrv | exact Hdb | reflexivity |].
    rewrite E. eauto.
Qed.

(** *** Answers that start no retry *)

Lemma invoke_plain depth payload c :
  is_rate_limit (_tdjson c (key (next_id c))) = false ->
  is_stale_chat (config c) payload (_tdjson c (key (next_id c))) = false ->
  invoke (S depth) payload c = (inr (issued payload c), after_issuing payload c).
Proof.
  intros Hrl Hst. cbn [invoke]. do 2 step. fields. unfold issued.
  destruct (_tdjson c (key (next_id c))) as [p|code message] eqn:Hsrv.
  - unfold mret, M_ret, answered. fields. by rewrite Hsrv.
  - do 2 step. fields. cbn [is_rate_limit is_stale_chat] in Hrl, Hst.
    rewrite Hrl, attach_lookup_ne, Hst by done.
    unfold mret, M_ret, answered. fields. by rewrite Hsrv.
Qed.

(** *** The pending table *)

Lemma results_after_issuing payload c :
  _results c !! key (next_id c) = None ->
  _results (after_issuing payload c) = _results c.
Proof.
  intros H. unfold after_issuing, after_exchange. cbn.
  by rewrite delete_insert_id.
Qed.

Lemma fresh_extends c c' :
  fresh c -> extends c c' -> _results c' = _results c -> fresh c'.
Proof.
  intros Hf (_&_&_&_&_&_&Hn&_) Hr n Hle. rewrite Hr. apply Hf. lia.
Qed.

Lemma is_stale_chat_true cfg payload code message :
  is_stale_chat cfg payload (Error code message) = true ->
  use_message_database cfg = false /\ code = 400%Z /\
  message = "Chat not found" /\ exists chat_id, payload !! "chat_id" = Some chat_id.
Proof.
  cbn. rewrite !andb_true_iff, negb_true_iff, Z.eqb_eq, String.eqb_eq,
    bool_decide_eq_true.
  intros (? & (? & ?) & [chat_id ?]). eauto.
Qed.

Lemma invoke_results depth : forall payload c r c',
  fresh c -> invoke depth payload c = (r, c') -> _results c' = _results c.
Proof.
  induction depth as [|depth IH]; intros payload c r c' Hf.
  { by intros [= _ <-]. }
  assert (H0 : _results (after_issuing payload c) = _results c)
    by (apply results_after_issuing, Hf; lia).
  assert (F0 : fresh (after_issuing payload c))
    by (eapply fresh_extends; eauto using after_issuing_extends).
  destruct (is_rate_limit (_tdjson c (key (next_id c)))) eqn:Hrl.
  - destruct (_tdjson c (key (next_id c))) as [|code message] eqn:Hsrv;
      [done|].
    cbn in Hrl. apply Z.eqb_eq in Hrl as ->.
    rewrite (invoke_rate_limited depth payload c message Hsrv). cbv zeta.
    assert (H1 : _results c !! key (next_id c) = None) by (apply Hf; lia).
    assert (H2 : _results c !! key (S (next_id c)) = None) by (apply Hf; lia).
    destruct (_ <=? _)%Z; [destruct (payload !! "@type");
                           [destruct (_ <? 0)%Z|]|];
      intros [= _ <-]; cbn;
      by rewrite !(delete_insert_id (_results c)).
  - destruct (is_stale_chat (config c) payload (_tdjson c (key (next_id c))))
      eqn:Hst.
    + destruct (_tdjson c (key (next_id c))) as [|code message] eqn:Hsrv;
        [done|].
      apply is_stale_chat_true in Hst as (Hdb & -> & -> & chat_id & Hchat).
      rewrite (invoke_stale_chat depth payload c chat_id Hsrv Hdb Hchat).
      unfold getChat, getMessage.
      destruct (invoke depth (getChat_data chat_id) (after_issuing payload c))
        as [[e|load_chat] c1] eqn:E1.
      { intros [= _ <-]. by rewrite (IH _ _ _ _ F0 E1). }
      assert (R1 : _results c1 = _results c)
        by (by rewrite (IH _ _ _ _ F0 E1)).
      assert (F1 : fresh c1).
      { eapply fresh_extends; [exact Hf| |exact R1].
        eapply extends_trans; [apply (after_issuing_extends payload)|].
        eapply invoke_extends, E1. }
      destruct (is_error load_chat); [by intros [= _ <-]|].
      destruct (gt_0 (referenced_message payload)) as [e|[|]].
      * by intros [= _ <-].
      * destruct (invoke depth (getMessage_data _ _) c1)
          as [[e|r2] c2] eqn:E2.
        { intros [= _ <-]. by rewrite (IH _ _ _ _ F1 E2). }
        assert (R2 : _results c2 = _results c1) by (by apply (IH _ _ _ _ F1 E2)).
        assert (F2 : fresh c2).
        { eapply fresh_extends; [exact F1| |exact R2].
          eapply invoke_extends, E2. }
        intros [= _ <-]. rewrite results_after_issuing by (apply F2; lia).
        congruence.
      * intros [= _ <-]. rewrite results_after_issuing by (apply F1; lia).
        done.
    + rewrite invoke_plain by done. by intros [= _ <-].
Qed.

(** C2.  The failed lookup.  Message-database caching is disabled and
    the answer to a request that carries a [chat_id] is the error 400
    "Chat not found", so the client issues the chat lookup [getChat].
    When TDLib fails the lookup with an error of another kind (not 429,
    not "Chat not found"), the caller gets the original error, as the
    spec has it: two requests are sent and the failure is logged.  But the
    lookup goes through [invoke] and carries a [chat_id] itself: when
    TDLib fails it with "Chat not found" too, as it does for a chat it
    does not know, the lookup starts a lookup of its own, and so on; the
    caller never gets the original error, [invoke] ends in
    [RecursionError] however deep the interpreter lets it go. *)
Theorem stale_chat_failed_lookup (depth : nat) (payload : dict) (c : Client)
    (chat_id : json) :
  let k0 := key (next_id c) in
  let k1 := key (S (next_id c)) in
  use_message_database (config c) = false ->
  payload !! "chat_id" = Some chat_id ->
  _tdjson c k0 = Error 400 "Chat not found" ->
  (forall code message,
   _tdjson c k1 = Error code message ->
   code <> 429%Z ->
   code <> 400%Z \/ message <> "Chat not found" ->
   exists c',
     invoke (S (S depth)) payload c
     = (inr {| id := k0; request := attach k0 payload;
               result := Some (Error 400 "Chat not found") |}, c') /\
     trace c' = trace c ++ [Sent (attach k0 payload);
                            Sent (attach k1 (getChat_data chat_id));
                            Logged (CouldntLoadChat chat_id)]) /\
  ((forall n, (next_id c <= n)%nat ->
              _tdjson c (key n) = Error 400 "Chat not found") ->
   exists c',
     invoke depth payload c = (inl RecursionError, c') /\
     (depth <> 0 ->
      exists rest,
        trace c' = trace c ++ Sent (attach k0 payload) :: rest /\
        Logged (CouldntLoadChat chat_id) ∉ rest)).
Proof.
  intros k0 k1 Hdb Hchat Hsrv. split.
  - intros code message Hlookup Hcode Hother.
    assert (Hrl : is_rate_limit (_tdjson c k1) = false).
    { rewrite Hlookup. cbn. by apply Z.eqb_neq. }
    assert (Hst : is_stale_chat (config c) (getChat_data chat_id)
                    (_tdjson c k1) = false).
    { rewrite Hlookup. cbn [is_stale_chat]. rewrite Hdb.
      destruct Hother as [H|H].
      - apply Z.eqb_neq in H. by rewrite H.
      - apply String.eqb_neq in H. by rewrite H, andb_false_r. }
    assert (Herr : is_error (issued (getChat_data chat_id)
                               (after_issuing payload c)) = true).
    { unfold is_error, issued. cbn [result].
      change (_tdjson (after_issuing payload c)
                (key (next_id (after_issuing payload c))))
        with (_tdjson c k1).
      by rewrite Hlookup. }
    rewrite (invoke_stale_chat (S depth) payload c chat_id Hsrv Hdb Hchat).
    unfold getChat.
    rewrite (invoke_plain depth (getChat_data chat_id)
               (after_issuing payload c) Hrl Hst).
    rewrite Herr. eexists. split.
    + unfold issued. fold k0. by rewrite Hsrv.
    + cbn [trace emit]. rewrite !trace_after_issuing.
      by rewrite <- !app_assoc.
  - clear Hsrv. revert payload c chat_id k0 k1 Hdb Hchat.
    induction depth as [|depth IH];
      intros payload c chat_id k0 k1 Hdb Hchat Hall.
    { eexists. split; [reflexivity | done]. }
    rewrite (invoke_stale_chat depth payload c chat_id
               (Hall _ (Nat.le_refl _)) Hdb Hchat).
    unfold getChat.
    destruct (IH (getChat_data chat_id) (after_issuing payload c) chat_id
                Hdb eq_refl) as (c' & E & Htrace).
    { intros n Hn. apply Hall. rewrite next_id_after_issuing in Hn. lia. }
    rewrite E. exists c'. split; [reflexivity|]. intros _.
    destruct depth as [|depth].
    + injection E as <-. exists []. split; [apply trace_after_issuing|].
      apply not_elem_of_nil.
    + destruct (Htrace ltac:(done)) as (rest & -> & Hrest).
      rewrite trace_after_issuing, <- app_assoc. eexists. split; [done|].
      intros Hin. apply elem_of_cons in Hin as [Hin|Hin]; [done|].
      apply Hrest. exact Hin.
Qed.

(** C2 at work.  A request for chat 42, which TDLib does not know: when
    TDLib fails the lookup with an error of its own the caller gets the
    original error; when it fails the lookup with "Chat not found" the
    caller gets [RecursionError]. *)
Lemma stale_chat_failed_lookup_witness :
  (exists c',
     invoke 3 send_message (example_client 0 stale_then_refused)
     = (inr {| id := key 0; request := attach (key 0) send_message;
               result := Some (Error 400 "Chat not found") |}, c')) /\
  (exists c',
     invoke 3 send_message (example_client 0 always_stale)
     = (inl RecursionError, c')).
Proof.
  split.
  - destruct (stale_chat_failed_lookup 1 send_message
                (example_client 0 stale_then_refused) (JInt 42)
                eq_refl eq_refl eq_refl) as [H _].
    destruct (H 500%Z "Internal Server Error" eq_refl) as (c' & E & _);
      [done | by left |].
    exists c'. exact E.
  - destruct (stale_chat_failed_lookup 3 send_message
                (example_client 0 always_stale) (JInt 42)
                eq_refl eq_refl eq_refl) as [_ H].
    destruct (H (fun n _ => eq_refl)) as (c' & E & _).
    exists c'. exact E.
Defined.

(** X15.  [int] reads what [str] writes as long as the number has no
    more than 4300 digits, the most [int] accepts: for every integer [z]
    below [10 ^ 4300] in absolute value, the retry-after value of the
    message TDLib sends for a wait of [z] seconds is [z]; for every other
    integer [int] raises and the retry-after value is 0. *)
Theorem retry_after_round_trip (z : Z) :
  ((Z.abs z < 10 ^ 4300)%Z ->
   int (pretty z) = Some z /\
   get_retry_after_time (_retry_after_prefex +:+ pretty z) = z) /\
  ((10 ^ 4300 <= Z.abs z)%Z ->
   int (pretty z) = None /\
   get_retry_after_time (_retry_after_prefex +:+ pretty z) = 0%Z).
Proof.
  unfold get_retry_after_time. rewrite removeprefix_present.
  split; intros Hz.
  - by rewrite (int_pretty z Hz).
  - by rewrite (int_pretty_large z Hz).
Qed.

(** X15 at work: a wait of 30 seconds, and the negative number of 4301
    digits that is nearest to 0. *)
Lemma retry_after_round_trip_witness :
  get_retry_after_time "Too Many Requests: retry after 30" = 30%Z /\
  int (pretty (- 10 ^ 4300)%Z) = None.
Proof.
  assert (Hsmall : (Z.abs 30 < 10 ^ 4300)%Z).
  { apply Z.lt_trans with 4300%Z; [done|]. by apply Z.pow_gt_lin_r. }
  assert (Hlarge : (10 ^ 4300 <= Z.abs (- 10 ^ 4300))%Z).
  { generalize (10 ^ 4300)%Z. lia. }
  split.
  - exact (proj2 (proj1 (retry_after_round_trip 30) Hsmall)).
  - exact (proj1 (proj2 (retry_after_round_trip (- 10 ^ 4300)%Z) Hlarge)).
Defined.

(** X16.  An answer that is neither the error 429 nor the error 400 "Chat
    not found" to a request with a [chat_id] while message-database caching
    is off, starts nothing: a success, any other error, and "Chat not
    found" itself when caching is on or the request names no chat.  The
    request is sent once and the caller gets that answer. *)
Theorem other_answers_are_returned (depth : nat) (payload : dict)
    (c : Client) :
  let k := key (next_id c) in
  is_rate_limit (_tdjson c k) = false ->
  is_stale_chat (config c) payload (_tdjson c k) = false ->
  exists c',
    invoke (S depth) payload c
    = (inr {| id := k; request := attach k payload;
              result := Some (_tdjson c k) |}, c') /\
    trace c' = trace c ++ [Sent (attach k payload)] /\
    next_id c' = S (next_id c).
Proof.
  intros k Hrl Hst. exists (after_issuing payload c).
  split; [by apply invoke_plain|]. split; reflexivity.
Qed.

(** X16 at work on an internal error. *)
Lemma other_answers_are_returned_witness :
  exists c',
    invoke 1 send_message (example_client 0 always_failing)
    = (inr {| id := key 0; request := attach (key 0) send_message;
              result := Some (Error 500 "Internal Server Error") |}, c') /\
    trace c' = [Sent (attach (key 0) send_message)] /\
    next_id c' = 1.
Proof.
  exact (other_answers_are_returned 0 send_message
           (example_client 0 always_failing) eq_refl eq_refl).
Defined.

(** X17.  [invoke] leaves nothing behind in the pending table: when no key
    the client has yet to generate is pending, the table after a call is
    the table before it, whether the call returns or raises, through every
    retry and every nested lookup; and the same holds for the call after
    it. *)
Theorem invoke_leaves_nothing_pending (depth : nat) (payload : dict)
    (c : Client) (r : exn + Result) (c' : Client) :
  fresh c ->
  invoke depth payload c = (r, c') ->
  _results c' = _results c /\ fresh c'.
Proof.
  intros Hf E.
  assert (R : _results c' = _results c) by (eapply invoke_results; eauto).
  split; [exact R|].
  eapply fresh_extends; [exact Hf | eapply invoke_extends, E | exact R].
Qed.

(** X17 at work on the recovery of a stale chat, which issues four
    requests. *)
Lemma invoke_leaves_nothing_pending_witness :
  let c := example_client 0 stale_then_ok in
  _results (snd (invoke 2 edit_message c)) = ∅ /\
  fresh (snd (invoke 2 edit_message c)).
Proof.
  intros c.
  apply (invoke_leaves_nothing_pending 2 edit_message c
           (fst (invoke 2 edit_message c))).
  - intros n _. apply lookup_empty.
  - by destruct (invoke 2 edit_message c).
Defined.

(** X18.  The stale-chat policy compares the id of the message the request
    refers to with 0.  When that id is no number ([None], a string), the
    comparison raises [TypeError] after the chat was looked up with
    success: the caller gets the exception, and the request is not sent
    again. *)
Theorem message_id_that_is_no_number (depth : nat) (payload : dict)
    (c : Client) (chat_id : json) (load_chat : Result) (c1 : Client) :
  use_message_database (config c) = false ->
  _tdjson c (key (next_id c)) = Error 400 "Chat not found" ->
  payload !! "chat_id" = Some chat_id ->
  getChat depth chat_id (after_issuing payload c) = (inr load_chat, c1) ->
  is_error load_chat = false ->
  match referenced_message payload with
  | JInt _ | JBool _ => False
  | _ => True
  end ->
  invoke (S depth) payload c = (inl (TypeError "'>' not supported"), c1).
Proof.
  intros Hdb Hsrv Hchat Hlookup Hok Hid.
  rewrite (invoke_stale_chat depth payload c chat_id Hsrv Hdb Hchat).
  rewrite Hlookup, Hok.
  by destruct (referenced_message payload).
Qed.

(** X18 at work on a message sent with [reply_to_message_id=None]. *)
Lemma message_id_that_is_no_number_witness :
  let c := example_client 0 stale_then_ok in
  let c0 := after_issuing reply_to_none c in
  let chat := getChat_data (JInt 42) in
  referenced_message reply_to_none = JNull /\
  invoke 2 reply_to_none c
  = (inl (TypeError "'>' not supported"), after_issuing chat c0) /\
  sent_for "sendMessage" (trace (after_issuing chat c0))
  = [attach (key 0) reply_to_none].
Proof.
  intros c c0 chat. split; [reflexivity|]. split; [|reflexivity].
  apply (message_id_that_is_no_number 1 reply_to_none c (JInt 42)
           (issued chat c0) (after_issuing chat c0)); reflexivity.
Defined.

(** X14 at work: [unknown_chat_exhausts_the_stack] on a client whose TDLib
    knows no chat. *)
Lemma unknown_chat_exhausts_the_stack_witness :
  exists c',
    invoke 5 send_message (example_client 0 always_stale)
    = (inl RecursionError, c').
Proof.
  apply (unknown_chat_exhausts_the_stack 5 send_message
           (example_client 0 always_stale) (JInt 42)).
  - intros k. reflexivity.
  - reflexivity.
  - reflexivity.
Defined.

End CallsFacts.

(** ** The authorization state machine *)
Module AuthFacts.
Import Py Runtime Calls Auth.

(** The dispatch of [__handle_authorization_state] on a well-formed
    update: the state and the payload are recorded, the change is logged,
    and the step of the new state is chosen when login is in progress. *)
Lemma handle_authorization_state_eq (depth : nat) (update payload : dict)
    (s : string) (lines : list string) (c : Client) :
  update !! "@type" = Some (JStr "updateAuthorizationState") ->
  update !! "authorization_state" = Some (JObj payload) ->
  payload !! "@type" = Some (JStr s) ->
  __handle_authorization_state depth update lines c =
  let state := JStr s in
  let c' := emit (Logged (AuthorizationStateChanged
                            (removeprefix s "authorizationState")))
              (with_authorization state (JObj payload) c) in
  if __login c then
    if eq_str state "authorizationStateWaitTdlibParameters" then
      no_input (_set_options;; set_td_paramaters depth) lines c'
    else if eq_str state "authorizationStateWaitPhoneNumber" then
      __handle_authorization_state_wait_phone_number depth lines
        (emit (Printed Welcome) c')
    else if eq_str state "authorizationStateWaitEmailAddress" then
      __handle_authorization_state_wait_email_address depth lines c'
    else if eq_str state "authorizationStateWaitEmailCode" then
      __handle_authorization_state_wait_email_code depth lines c'
    else if eq_str state "authorizationStateWaitCode" then
      __handle_authorization_state_wait_code depth lines c'
    else if eq_str state "authorizationStateWaitRegistration" then
      __handle_authorization_state_wait_registration depth lines c'
    else if negb (eq_str (authorization_state c)
                    "authorizationStateWaitPassword")
            && eq_str state "authorizationStateWaitPassword" then
      __handle_authorization_state_wait_password depth lines c'
    else if eq_str state "authorizationStateClosed"
            && negb (__is_closing c) then
      (inr tt, __stop_client c', lines)
    else (inr tt, c', lines)
  else (inr tt, c', lines).
Proof.
  intros Hty Hpayload Hstate.
  unfold __handle_authorization_state, getitem.
  rewrite Hty. cbn [eq_str String.eqb Ascii.eqb Bool.eqb].
  rewrite Hpayload. unfold mbind, exn_bind, mret, exn_ret, subscript, getitem.
  rewrite Hstate. reflexivity.
Qed.

(** C3, as amended.  An authorization-state update whose new state is
    WaitPassword and that arrives when the previous state is WaitPassword
    already records the state and the payload and does nothing else: the
    operator is not asked anything, nothing is sent and no line is read.
    When it arrives from any other previous state while login is in
    progress, the wait-password step is run, with the new state and
    payload. *)
Theorem wait_password_transition (depth : nat) (update payload : dict)
    (lines : list string) (c : Client) :
  update !! "@type" = Some (JStr "updateAuthorizationState") ->
  update !! "authorization_state" = Some (JObj payload) ->
  payload !! "@type" = Some (JStr "authorizationStateWaitPassword") ->
  let c' := emit (Logged (AuthorizationStateChanged "WaitPassword"))
              (with_authorization (JStr "authorizationStateWaitPassword")
                 (JObj payload) c) in
  (authorization_state c = JStr "authorizationStateWaitPassword" ->
     __handle_authorization_state depth update lines c = (inr tt, c', lines)) /\
  (eq_str (authorization_state c) "authorizationStateWaitPassword" = false ->
     __login c = true ->
     __handle_authorization_state depth update lines c
     = __handle_authorization_state_wait_password depth lines c').
Proof.
  intros Hty Hpayload Hstate c'.
  rewrite (handle_authorization_state_eq depth update payload _ lines c
             Hty Hpayload Hstate).
  cbv zeta.
  change (removeprefix "authorizationStateWaitPassword" "authorizationState")
    with "WaitPassword". fold c'.
  cbn [eq_str String.eqb Ascii.eqb Bool.eqb andb].
  split.
  - intros Hold. rewrite Hold.
    cbn [eq_str String.eqb Ascii.eqb Bool.eqb andb negb].
    by destruct (__login c).
  - intros Hold Hlogin. rewrite Hold, Hlogin. reflexivity.
Qed.

(** C3 at work: WaitPassword after WaitPassword asks nothing and sends
    nothing. *)
Lemma wait_password_transition_witness :
  let update := authorization_update "authorizationStateWaitPassword"
                  password_fields in
  let payload :=
    <["@type" := JStr "authorizationStateWaitPassword"]> password_fields in
  let c := client_in (JStr "authorizationStateWaitPassword") in
  update !! "@type" = Some (JStr "updateAuthorizationState") /\
  update !! "authorization_state" = Some (JObj payload) /\
  payload !! "@type" = Some (JStr "authorizationStateWaitPassword") /\
  authorization_state c = JStr "authorizationStateWaitPassword" /\
  exists c',
    __handle_authorization_state 1 update ["secret"] c
    = (inr tt, c', ["secret"]) /\
    asked (trace c') = [] /\ sent (trace c') = [].
Proof.
  intros update payload c.
  assert (H1 : update !! "@type" = Some (JStr "updateAuthorizationState"))
    by done.
  assert (H2 : update !! "authorization_state" = Some (JObj payload)) by done.
  assert (H3 : payload !! "@type"
               = Some (JStr "authorizationStateWaitPassword")) by done.
  assert (H4 : authorization_state c = JStr "authorizationStateWaitPassword")
    by done.
  repeat (split; [assumption|]).
  eexists. split.
  - exact (proj1 (wait_password_transition 1 update payload ["secret"] c
                    H1 H2 H3) H4).
  - split; reflexivity.
Defined.

(** C3 as stated fails: coming from WaitCode, an update to WaitPassword
    makes the client ask for the password and submit it. *)
Lemma wait_password_from_wait_code_counterexample :
  let update := authorization_update "authorizationStateWaitPassword"
                  password_fields in
  let c := client_in (JStr "authorizationStateWaitCode") in
  let out := __handle_authorization_state 1 update ["secret"] c in
  authorization_state c <> JStr "authorizationStateWaitPassword" /\
  fst (fst out) = inr tt /\
  snd out = [] /\
  asked (trace (snd (fst out))) = [Password false] /\
  sent (trace (snd (fst out)))
  = [attach (key 0) (checkAuthenticationPassword_data (JArr [JStr "secret"]))].
Proof. intros update c out. repeat split; by vm_compute. Qed.

(** C4 fails on the code.  With login in progress, an update to
    WaitEmailAddress records the state and returns: the guard of the email
    address step is inverted with respect to the guards of the other
    steps, so the operator is not asked for an address and nothing is
    submitted.  The step does ask and submit in every other state. *)
Theorem wait_email_address_does_nothing (depth : nat) (update payload : dict)
    (lines : list string) (c : Client) :
  update !! "@type" = Some (JStr "updateAuthorizationState") ->
  update !! "authorization_state" = Some (JObj payload) ->
  payload !! "@type" = Some (JStr "authorizationStateWaitEmailAddress") ->
  __login c = true ->
  let c' := emit (Logged (AuthorizationStateChanged "WaitEmailAddress"))
              (with_authorization (JStr "authorizationStateWaitEmailAddress")
                 (JObj payload) c) in
  __handle_authorization_state depth update lines c = (inr tt, c', lines) /\
  asked (trace c') = asked (trace c) /\
  sent (trace c') = sent (trace c) /\
  (forall c0,
     eq_str (authorization_state c0) "authorizationStateWaitEmailAddress"
     = false ->
     __handle_authorization_state_wait_email_address depth lines c0
     = ask_and_submit depth EmailAddress setAuthenticationEmailAddress_data
         lines c0).
Proof.
  intros Hty Hpayload Hstate Hlogin c'.
  split; [|split; [|split]].
  - rewrite (handle_authorization_state_eq depth update payload _ lines c
               Hty Hpayload Hstate).
    cbv zeta.
    change (removeprefix "authorizationStateWaitEmailAddress"
              "authorizationState") with "WaitEmailAddress". fold c'.
    rewrite Hlogin. reflexivity.
  - unfold asked. cbn. rewrite omap_app. cbn. by rewrite app_nil_r.
  - unfold sent. cbn. rewrite omap_app. cbn. by rewrite app_nil_r.
  - intros c0 H. unfold __handle_authorization_state_wait_email_address.
    by rewrite H.
Qed.

(** C4 at work: the address typed by the operator is never read. *)
Lemma wait_email_address_does_nothing_witness :
  let update := authorization_update "authorizationStateWaitEmailAddress" ∅ in
  let payload :=
    (<["@type" := JStr "authorizationStateWaitEmailAddress"]> ∅ : dict) in
  let c := client_in (JStr "authorizationStateWaitPhoneNumber") in
  update !! "@type" = Some (JStr "updateAuthorizationState") /\
  update !! "authorization_state" = Some (JObj payload) /\
  payload !! "@type" = Some (JStr "authorizationStateWaitEmailAddress") /\
  __login c = true /\
  exists c',
    __handle_authorization_state 1 update ["me@example.org"] c
    = (inr tt, c', ["me@example.org"]) /\
    asked (trace c') = [] /\ sent (trace c') = [].
Proof.
  intros update payload c.
  assert (H1 : update !! "@type" = Some (JStr "updateAuthorizationState"))
    by done.
  assert (H2 : update !! "authorization_state" = Some (JObj payload)) by done.
  assert (H3 : payload !! "@type"
               = Some (JStr "authorizationStateWaitEmailAddress")) by done.
  assert (H4 : __login c = true) by done.
  repeat (split; [assumption|]).
  eexists. split.
  - exact (proj1 (wait_email_address_does_nothing 1 update payload
                    ["me@example.org"] c H1 H2 H3 H4)).
  - split; reflexivity.
Defined.

(** The sibling step for WaitEmailCode, whose guard is the right way
    round, asks and submits. *)
Lemma wait_email_code_asks :
  let update := authorization_update "authorizationStateWaitEmailCode" ∅ in
  let c := client_in (JStr "authorizationStateWaitEmailAddress") in
  let out := __handle_authorization_state 1 update ["12345"] c in
  fst (fst out) = inr tt /\
  snd out = [] /\
  asked (trace (snd (fst out))) = [EmailCode] /\
  sent (trace (snd (fst out)))
  = [attach (key 0) (checkAuthenticationEmailCode_data "12345")].
Proof. intros update c out. repeat split; by vm_compute. Qed.

(** *** What the steps leave on the terminal and on the wire *)

Lemma asked_app evs evs' : asked (evs ++ evs') = asked evs ++ asked evs'.
Proof. apply omap_app. Qed.

Lemma sent_app evs evs' : sent (evs ++ evs') = sent evs ++ sent evs'.
Proof. apply omap_app. Qed.

Lemma printed_on_app evs evs' :
  printed_on (evs ++ evs') = printed_on evs ++ printed_on evs'.
Proof. apply omap_app. Qed.

Lemma sent_map_Sent l : sent (map Sent l) = l.
Proof.
  induction l as [|r l IH]; [done|].
  change (r :: sent (map Sent l) = r :: l). by rewrite IH.
Qed.

Lemma authorization_print_error res c :
  __authorization (print_error res c) = __authorization c.
Proof. unfold print_error. by destruct (result res) as [[|]|]. Qed.

(** A submission that carries no [chat_id] and is not rate-limited is one
    request. *)
Lemma submission_plain d (data : dict) c :
  data !! "chat_id" = None ->
  is_rate_limit (_tdjson c (key (next_id c))) = false ->
  invoke (S d) data c = (inr (issued data c), after_issuing data c).
Proof.
  intros Hchat Hrl. apply CallsFacts.invoke_plain; [done|].
  unfold is_stale_chat. destruct (_tdjson c (key (next_id c))); [done|].
  rewrite Hchat, bool_decide_eq_false_2 by (by intros [? ?]).
  by rewrite !andb_false_r.
Qed.

(** *** The options *)

Lemma send_options_supported ok : forall rest c,
  Forall (fun kv => is_Some (option_value_type (snd kv))) ok ->
  send_options (ok ++ rest) c
  = send_options rest (foldl (fun c r => emit (Sent r) c) c (option_requests ok)).
Proof.
  induction ok as [|[k v] ok IH]; intros rest c Hok; [done|].
  apply Forall_cons in Hok as [[ty Hty] Hok]. cbn [snd] in Hty.
  change (option_requests ((k, v) :: ok))
    with (match setOption_request k v <$> option_value_type v with
          | Some r => r :: option_requests ok
          | None => option_requests ok
          end).
  rewrite Hty. cbn [app send_options fmap option_fmap option_map foldl].
  rewrite <- (IH rest _ Hok).
  destruct v; cbn in Hty; try discriminate; injection Hty as <-; reflexivity.
Qed.

Lemma trace_foldl_sent reqs : forall c,
  trace (foldl (fun c r => emit (Sent r) c) c reqs)
  = trace c ++ map Sent reqs /\
  _results (foldl (fun c r => emit (Sent r) c) c reqs) = _results c /\
  next_id (foldl (fun c r => emit (Sent r) c) c reqs) = next_id c.
Proof.
  induction reqs as [|r reqs IH]; intros c; cbn [foldl map].
  - by rewrite app_nil_r.
  - destruct (IH (emit (Sent r) c)) as (-> & -> & ->). cbn.
    by rewrite <- app_assoc.
Qed.

Lemma config_foldl_sent reqs : forall c,
  config (foldl (fun c r => emit (Sent r) c) c reqs) = config c /\
  _tdjson (foldl (fun c r => emit (Sent r) c) c reqs) = _tdjson c.
Proof.
  induction reqs as [|r reqs IH]; intros c; cbn [foldl]; [done|].
  by destruct (IH (emit (Sent r) c)) as (-> & ->).
Qed.

Lemma set_options_eq ok rest c :
  td_options (config c) = Some (ok ++ rest) ->
  Forall (fun kv => is_Some (option_value_type (snd kv))) ok ->
  match rest with
  | [] => True
  | (_, v) :: _ => option_value_type v = None
  end ->
  _set_options c
  = (match rest with
     | [] => inr tt
     | _ :: _ => inl (ValueError "unsupported option type")
     end, foldl (fun c r => emit (Sent r) c) c (option_requests ok)).
Proof.
  intros Hopts Hok Hrest.
  unfold _set_options. rewrite CallsFacts.run_bind. cbn [read].
  rewrite Hopts, send_options_supported by done.
  destruct rest as [|[k v] rest]; [done|].
  cbn [send_options]. rewrite CallsFacts.run_bind.
  by destruct v.
Qed.

(** *** The password loop *)

Lemma password_loop_submits d v : forall lines c,
  subscript (__authorization c) "has_recovery_email_address" = inr v ->
  password_loop d lines c
  = ask_and_submit d (Password (truthy v))
      (fun line => checkAuthenticationPassword_data (JArr [JStr line]))
      lines c.
Proof.
  induction lines as [|line lines IH]; intros c Hv;
    cbn [password_loop ask_and_submit]; rewrite Hv; [done|].
  cbv zeta. cbn [eq_str].
  destruct (is_running c); [|done].
  destruct (invoke d _ (emit _ c)) as [[e|res] c2] eqn:E; [done|].
  destruct (is_error res); [|done].
  apply IH. rewrite authorization_print_error.
  apply CallsFacts.invoke_extends in E as (_&_&_&_&->&_). exact Hv.
Qed.

(** X19.  With a token given to the constructor, the WaitPhoneNumber step
    asks the operator nothing and reads no line: it submits the token, as
    a bot token when it contains a colon and as a phone number otherwise.
    When TDLib's answer is not a rate limit (the error 429, which [invoke]
    may answer by sending the request again), the token is sent once, and
    an answer that is an error becomes an [AuthorizationError] with TDLib's
    message. *)
Theorem configured_token_is_submitted (d : nat) (tk : string)
    (lines : list string) (c : Client) :
  authorization_state c = JStr "authorizationStateWaitPhoneNumber" ->
  token (config c) = Some tk ->
  is_rate_limit (_tdjson c (key (next_id c))) = false ->
  let data := if is_substring ":" tk
              then checkAuthenticationBotToken_data tk
              else setAuthenticationPhoneNumber_data tk in
  let c' := after_issuing data c in
  __handle_authorization_state_wait_phone_number (S d) lines c
  = (match _tdjson c (key (next_id c)) with
     | Error _ message => inl (AuthorizationError message)
     | Success _ => inr tt
     end, c', lines) /\
  trace c' = trace c ++ [Sent (attach (key (next_id c)) data)] /\
  asked (trace c') = asked (trace c).
Proof.
  intros Hstate Htk Hrl data c'.
  split; [|split; [reflexivity|]].
  - unfold __handle_authorization_state_wait_phone_number.
    rewrite Hstate, Htk. cbn [eq_str String.eqb Ascii.eqb Bool.eqb negb].
    unfold submit_phone_or_token. fold data.
    assert (E : invoke (S d) data c = (inr (issued data c), c')).
    { apply submission_plain; [|done].
      unfold data. by destruct (is_substring ":" tk). }
    assert (E' : (if is_substring ":" tk
                  then invoke (S d) (checkAuthenticationBotToken_data tk)
                  else invoke (S d) (setAuthenticationPhoneNumber_data tk)) c
                 = (inr (issued data c), c')).
    { rewrite <- E. unfold data. by destruct (is_substring ":" tk). }
    rewrite E'. unfold is_error, error_message, issued. cbn [result].
    by destruct (_tdjson c (key (next_id c))).
  - unfold c'. rewrite CallsFacts.trace_after_issuing, asked_app. cbn.
    by rewrite app_nil_r.
Qed.

(** X19 at work: a bot token that TDLib refuses. *)
Lemma configured_token_is_submitted_witness :
  let c := configured (Some "123456:secret") None
             (logging_in "authorizationStateWaitPhoneNumber" ∅ refusing) in
  __handle_authorization_state_wait_phone_number 1 ["unread"] c
  = (inl (AuthorizationError "Unauthorized"),
     after_issuing (checkAuthenticationBotToken_data "123456:secret") c,
     ["unread"]).
Proof.
  intros c.
  exact (proj1 (configured_token_is_submitted 0 "123456:secret" ["unread"] c
                  eq_refl eq_refl eq_refl)).
Defined.

(** X20.  The loop of the email address, email code and login code steps
    asks again after every submission TDLib rejects.  When TDLib rejects
    the first lines with an error (other than a rate limit) and accepts
    the next one, the step reads exactly those lines and leaves the rest,
    asks once per line read, sends one request per line, each under a key
    of its own, prints TDLib's message once per rejection, and returns. *)
Theorem rejected_then_accepted (d : nat) (p : prompt) (data : string -> dict)
    (rejected : list string) (accepted : string) (rest : list string)
    (code : Z) (message : string) (payload : dict) (c : Client) :
  is_running c = true ->
  (forall line, data line !! "chat_id" = None) ->
  code <> 429%Z ->
  (forall i, i < length rejected ->
             _tdjson c (key (next_id c + i)) = Error code message) ->
  _tdjson c (key (next_id c + length rejected)) = Success payload ->
  exists c',
    ask_and_submit (S d) p data (rejected ++ accepted :: rest) c
    = (inr tt, c', rest) /\
    asked (trace c') = asked (trace c) ++ replicate (S (length rejected)) p /\
    sent (trace c')
    = sent (trace c)
      ++ imap (fun i line => attach (key (next_id c + i)) (data line))
           (rejected ++ [accepted]) /\
    printed_on (trace c')
    = printed_on (trace c)
      ++ replicate (length rejected) (ErrorMessage message).
Proof.
  intros Hrun Hdata Hcode. revert c Hrun.
  induction rejected as [|r rejected IH]; intros c Hrun Hrej Hacc.
  - cbn [app length] in *. rewrite Nat.add_0_r in Hacc.
    cbn [ask_and_submit]. rewrite Hrun.
    rewrite submission_plain by (done || (cbn; by rewrite Hacc)).
    unfold is_error, issued. cbn [result emit _tdjson next_id]. rewrite Hacc.
    eexists. split; [reflexivity|].
    cbn [after_issuing after_exchange emit with_results with_next_id trace
         imap replicate].
    rewrite Nat.add_0_r, !asked_app, !sent_app, !printed_on_app. cbn.
    by rewrite !app_nil_r.
  - pose proof (Hrej 0 ltac:(cbn; lia)) as H0. rewrite Nat.add_0_r in H0.
    cbn [app ask_and_submit]. rewrite Hrun.
    rewrite submission_plain
      by (done || (cbn; rewrite H0; cbn; by apply Z.eqb_neq)).
    unfold is_error, issued, print_error.
    cbn [result emit _tdjson next_id]. rewrite H0.
    set (c2 := emit (Printed (ErrorMessage message))
                 (after_issuing (data r) (emit (Asked p) c))).
    destruct (IH c2) as (c' & E & A & S' & P); try done.
    { intros i Hi. cbn. rewrite <- Nat.add_succ_r. apply Hrej. cbn. lia. }
    { cbn. rewrite <- Nat.add_succ_r. exact Hacc. }
    exists c'. split; [exact E|].
    rewrite A, S', P. subst c2.
    cbn [after_issuing after_exchange emit with_results with_next_id trace
         next_id length replicate imap].
    rewrite !asked_app, !sent_app, !printed_on_app. cbn.
    rewrite !app_nil_r, <- !app_assoc, Nat.add_0_r. cbn.
    repeat split; try done.
    do 2 f_equal. apply imap_ext. intros i x _. cbn.
    by rewrite Nat.add_succ_r.
Qed.

(** X20 at work on the login code: two wrong codes, then the right one. *)
Lemma rejected_then_accepted_witness :
  let c := logging_in "authorizationStateWaitCode" ∅ invalid_twice in
  exists c',
    ask_and_submit 1 (LoginCode (JStr "SMS")) checkAuthenticationCode_data
      (["11111"; "22222"] ++ "33333" :: ["unread"]) c
    = (inr tt, c', ["unread"]) /\
    asked (trace c') = replicate 3 (LoginCode (JStr "SMS")) /\
    sent (trace c')
    = [attach (key 0) (checkAuthenticationCode_data "11111");
       attach (key 1) (checkAuthenticationCode_data "22222");
       attach (key 2) (checkAuthenticationCode_data "33333")] /\
    printed_on (trace c')
    = replicate 2 (ErrorMessage "PHONE_CODE_INVALID").
Proof.
  intros c.
  apply (rejected_then_accepted 0 (LoginCode (JStr "SMS"))
           checkAuthenticationCode_data ["11111"; "22222"] "33333" ["unread"]
           400 "PHONE_CODE_INVALID" ∅ c).
  - reflexivity.
  - intros line. reflexivity.
  - lia.
  - intros [|[|i]] Hi; [reflexivity | reflexivity | cbn in Hi; lia].
  - reflexivity.
Defined.

(** X21.  [_set_options] sends one [setOption] request per option, in the
    order of the options, without a future: no key is consumed and the
    pending table is not touched.  It stops at the first option whose
    value is not a [str], an [int] or a [bool] with a [ValueError]; the
    options before that one have been sent by then, the options after it
    are not. *)
Theorem set_options_in_order (ok rest : list (string * json)) (c : Client) :
  td_options (config c) = Some (ok ++ rest) ->
  Forall (fun kv => is_Some (option_value_type (snd kv))) ok ->
  match rest with
  | [] => True
  | (_, v) :: _ => option_value_type v = None
  end ->
  exists c',
    _set_options c
    = (match rest with
       | [] => inr tt
       | _ :: _ => inl (ValueError "unsupported option type")
       end, c') /\
    trace c' = trace c ++ map Sent (option_requests ok) /\
    _results c' = _results c /\ next_id c' = next_id c.
Proof.
  intros Hopts Hok Hrest.
  exists (foldl (fun c r => emit (Sent r) c) c (option_requests ok)).
  split; [by apply set_options_eq | apply trace_foldl_sent].
Qed.

(** X21 at work: the second of three options has a value without a
    supported type. *)
Lemma set_options_in_order_witness :
  let options := [("online", JBool true); ("ignore_file_names", JNull);
                  ("language_pack_id", JStr "en")] in
  let c := configured None (Some options)
             (logging_in "authorizationStateWaitTdlibParameters" ∅ accepting) in
  exists c',
    _set_options c = (inl (ValueError "unsupported option type"), c') /\
    trace c'
    = [Sent (setOption_request "online" (JBool true) "optionValueBoolean")] /\
    _results c' = ∅ /\ next_id c' = 0.
Proof.
  intros options c.
  apply (set_options_in_order [("online", JBool true)]
           [("ignore_file_names", JNull); ("language_pack_id", JStr "en")] c).
  - reflexivity.
  - repeat constructor. by eexists.
  - reflexivity.
Defined.

(** X22.  The Closed state stops the client only from a login the client
    did not close itself.  While login is in progress and [stop] is not
    waiting for TDLib, an update to Closed marks the client as not running
    and not authenticated and shuts the worker pool down; while [stop] is
    waiting, or when no login was started, the update is recorded and
    nothing is stopped.  No line is read in either case. *)
Theorem closed_stops_the_client (d : nat) (update payload : dict)
    (lines : list string) (c : Client) :
  update !! "@type" = Some (JStr "updateAuthorizationState") ->
  update !! "authorization_state" = Some (JObj payload) ->
  payload !! "@type" = Some (JStr "authorizationStateClosed") ->
  exists c',
    __handle_authorization_state d update lines c = (inr tt, c', lines) /\
    authorization_state c' = JStr "authorizationStateClosed" /\
    if __login c && negb (__is_closing c)
    then is_running c' = false /\ is_authenticated c' = false /\
         workers_shutdown c' = true
    else is_running c' = is_running c /\
         is_authenticated c' = is_authenticated c /\
         workers_shutdown c' = workers_shutdown c.
Proof.
  intros Hty Hpayload Hstate.
  rewrite (handle_authorization_state_eq d update payload _ lines c
             Hty Hpayload Hstate).
  cbv zeta. cbn [eq_str String.eqb Ascii.eqb Bool.eqb andb negb].
  rewrite andb_false_r.
  destruct (__login c); cbn [andb]; [|by eexists].
  destruct (__is_closing c); cbn [andb negb]; by eexists.
Qed.

(** X22 at work on a client that is logging in. *)
Lemma closed_stops_the_client_witness :
  let update := authorization_update "authorizationStateClosed" ∅ in
  let c := client_in (JStr "authorizationStateReady") in
  is_running c = true /\
  exists c',
    __handle_authorization_state 1 update ["unread"] c
    = (inr tt, c', ["unread"]) /\
    authorization_state c' = JStr "authorizationStateClosed" /\
    is_running c' = false /\ is_authenticated c' = false /\
    workers_shutdown c' = true.
Proof.
  intros update c. split; [reflexivity|].
  apply (closed_stops_the_client 1 update
           (<["@type" := JStr "authorizationStateClosed"]> ∅) ["unread"] c);
    done.
Defined.

(** X23.  The password step cannot start the recovery of the password.
    What the operator types is wrapped in a one-element tuple before it is
    compared with the empty string, so the comparison never holds: whatever
    is typed, the empty line included, is submitted with
    [checkAuthenticationPassword] as a one-element array, and the step is
    the ask-and-submit loop of the other steps.  The confirmation and the
    recovery code are never asked for. *)
Theorem password_step_never_recovers (d : nat) (lines : list string)
    (c : Client) (hint can_recover : json) :
  authorization_state c = JStr "authorizationStateWaitPassword" ->
  subscript (__authorization c) "password_hint" = inr hint ->
  subscript (__authorization c) "has_recovery_email_address"
  = inr can_recover ->
  __handle_authorization_state_wait_password d lines c
  = ask_and_submit d (Password (truthy can_recover))
      (fun line => checkAuthenticationPassword_data (JArr [JStr line]))
      lines
      (if truthy hint then emit (Printed (PasswordHint hint)) c else c).
Proof.
  intros Hstate Hhint Hrec.
  unfold __handle_authorization_state_wait_password.
  rewrite Hstate, Hhint. cbn [eq_str String.eqb Ascii.eqb Bool.eqb negb].
  apply password_loop_submits. by destruct (truthy hint).
Qed.

(** X23 at work: the account has a recovery email address and the
    operator leaves the password empty, to recover it. *)
Lemma password_step_never_recovers_witness :
  let c := logging_in "authorizationStateWaitPassword"
             recoverable_password_fields accepting in
  let c' := snd (fst (__handle_authorization_state_wait_password 1
                        [EmptyString; "y"] c)) in
  asked (trace c') = [Password true] /\
  sent (trace c')
  = [attach (key 0)
       (checkAuthenticationPassword_data (JArr [JStr EmptyString]))].
Proof.
  intros c c'. subst c'.
  rewrite (password_step_never_recovers 1 [EmptyString; "y"] c
             (JStr EmptyString) (JBool true) eq_refl eq_refl eq_refl).
  split; reflexivity.
Defined.

(** X24.  In the WaitTdlibParameters state the client sends the options
    first and the parameters after them.  With every option supported, the
    [setOption] requests go out in order and then the [setTdlibParameters]
    request that carries [use_message_database]: when TDLib's answer to it
    is not a rate limit (the error 429, which [invoke] may answer by
    sending the request again), it is sent once, and an answer that is an
    error becomes an [AuthorizationError] with TDLib's message.  An option
    whose value has no supported type raises [ValueError] before the
    parameters are sent: they never are, and the login cannot go on.  (The
    parameters given to the constructor have no [chat_id] field.) *)
Theorem options_before_parameters (d : nat) (update payload : dict)
    (lines : list string) (c : Client) (ok rest : list (string * json)) :
  update !! "@type" = Some (JStr "updateAuthorizationState") ->
  update !! "authorization_state" = Some (JObj payload) ->
  payload !! "@type" = Some (JStr "authorizationStateWaitTdlibParameters") ->
  __login c = true ->
  td_options (config c) = Some (ok ++ rest) ->
  Forall (fun kv => is_Some (option_value_type (snd kv))) ok ->
  match rest with
  | [] => is_rate_limit (_tdjson c (key (next_id c))) = false
  | (_, v) :: _ => option_value_type v = None
  end ->
  tdlib_parameters (config c) !! "chat_id" = None ->
  let parameters :=
    <["@type" := JStr "setTdlibParameters"]>
      (<["use_message_database" := JBool (use_message_database (config c))]>
         (tdlib_parameters (config c))) in
  exists c',
    __handle_authorization_state (S d) update lines c
    = (match rest with
       | [] => match _tdjson c (key (next_id c)) with
               | Error _ message => inl (AuthorizationError message)
               | Success _ => inr tt
               end
       | _ :: _ => inl (ValueError "unsupported option type")
       end, c', lines) /\
    sent (trace c')
    = sent (trace c) ++ option_requests ok
      ++ match rest with
         | [] => [attach (key (next_id c)) parameters]
         | _ :: _ => []
         end.
Proof.
  intros Hty Hpayload Hstate Hlogin Hopts Hok Hrest Hchat parameters.
  assert (Hrest' : match rest with
                   | [] => True
                   | (_, v) :: _ => option_value_type v = None
                   end) by (by destruct rest as [|[? ?] ?]).
  rewrite (handle_authorization_state_eq (S d) update payload _ lines c
             Hty Hpayload Hstate).
  cbv zeta. rewrite Hlogin. cbn [eq_str String.eqb Ascii.eqb Bool.eqb].
  set (c0 := emit _ (with_authorization _ _ c)).
  set (c1 := foldl (fun c r => emit (Sent r) c) c0 (option_requests ok)).
  assert (Hsent : sent (trace c1) = sent (trace c) ++ option_requests ok).
  { unfold c1. destruct (trace_foldl_sent (option_requests ok) c0) as (-> & _).
    rewrite sent_app. unfold c0. cbn [trace emit with_authorization].
    rewrite sent_app. cbn. by rewrite app_nil_r, sent_map_Sent. }
  unfold no_input. rewrite CallsFacts.run_bind.
  rewrite (set_options_eq ok rest c0) by done. fold c1.
  destruct rest as [|kv rest].
  - rename Hrest into Hrl.
    unfold set_td_paramaters. rewrite CallsFacts.run_bind. cbn [read].
    destruct (config_foldl_sent (option_requests ok) c0) as [Hcfg Htd].
    destruct (trace_foldl_sent (option_requests ok) c0) as (_ & _ & Hn).
    fold c1 in Hcfg, Htd, Hn. cbn in Hcfg, Htd, Hn.
    rewrite CallsFacts.run_bind, Hcfg. fold parameters.
    rewrite submission_plain.
    2:{ unfold parameters. by rewrite !lookup_insert_ne. }
    2:{ by rewrite Htd, Hn. }
    unfold is_error, error_message, issued. cbn [result]. rewrite Htd, Hn.
    exists (match _tdjson c (key (next_id c)) with
            | Error _ _ | Success _ => after_issuing parameters c1
            end).
    destruct (_tdjson c (key (next_id c))); (split; [reflexivity|]);
      rewrite CallsFacts.trace_after_issuing, sent_app, Hsent, Hn; cbn;
      by rewrite <- app_assoc.
  - exists c1. split; [reflexivity|]. by rewrite Hsent, app_nil_r.
Qed.

(** X24 at work.  With a supported option, the option is sent, then the
    parameters, which TDLib refuses; when a second option has a value
    without a supported type, the parameters are never sent. *)
Lemma options_before_parameters_witness :
  let update := authorization_update "authorizationStateWaitTdlibParameters"
                  ∅ in
  let online := setOption_request "online" (JBool true) "optionValueBoolean" in
  (let c := configured None (Some [("online", JBool true)])
              (logging_in "authorizationStateWaitTdlibParameters" ∅ refusing) in
   exists c',
     __handle_authorization_state 1 update [] c
     = (inl (AuthorizationError "Unauthorized"), c', []) /\
     sent (trace c')
     = [online;
        attach (key 0)
          {["@type" := JStr "setTdlibParameters";
            "use_message_database" := JBool false]}]) /\
  (let c := configured None
              (Some [("online", JBool true); ("ignore_file_names", JNull)])
              (client_in JNull) in
   exists c',
     __handle_authorization_state 1 update [] c
     = (inl (ValueError "unsupported option type"), c', []) /\
     sent (trace c') = [online]).
Proof.
  intros update online. split; intros c.
  - apply (options_before_parameters 0 update
             (<["@type" := JStr "authorizationStateWaitTdlibParameters"]> ∅)
             [] c [("online", JBool true)] []);
      try done.
    repeat constructor. by eexists.
  - apply (options_before_parameters 0 update
             (<["@type" := JStr "authorizationStateWaitTdlibParameters"]> ∅)
             [] c [("online", JBool true)] [("ignore_file_names", JNull)]);
      try done.
    repeat constructor. by eexists.
Defined.

End AuthFacts.

(** ** The dispatcher *)
Module DispatchFacts.
Import Py Runtime Dispatch.

(** C9.  A message without "@type" is logged and dropped: [_process_update]
    returns without raising, the pending table is what it was (so no Call
    Future is resolved, even one whose key the message echoes), nothing is
    handed to the worker pool, no in-line handler is run, and the receiver
    loop goes on with the next message. *)
Theorem untyped_message_is_dropped (inline : inline_handler -> dict -> M unit)
    (update : dict) (c : Client) :
  update !! "@type" = None ->
  let c' := emit (Logged (UnexpectedUpdate (delete "@client_id" update))) c in
  _process_update inline update c = (inr tt, c') /\
  _results c' = _results c /\
  resolved (trace c') = resolved (trace c) /\
  submitted (trace c') = submitted (trace c) /\
  (forall incoming,
     is_running c = true ->
     listen inline (Some update :: incoming) c = listen inline incoming c').
Proof.
  intros Hty c'.
  assert (E : _process_update inline update c = (inr tt, c')).
  { unfold _process_update.
    assert (Hd : (if bool_decide (is_Some (update !! "@client_id"))
                  then delete "@client_id" update else update)
                 = delete "@client_id" update).
    { case_bool_decide as H; [done|].
      symmetry. apply delete_id. by apply eq_None_not_Some. }
    rewrite Hd. rewrite lookup_delete_ne by done. rewrite Hty. reflexivity. }
  split; [exact E|]. split; [reflexivity|].
  split; [unfold resolved; cbn; rewrite omap_app; cbn; by rewrite app_nil_r|].
  split; [unfold submitted; cbn; rewrite omap_app; cbn; by rewrite app_nil_r|].
  intros incoming Hrun. cbn [listen]. rewrite Hrun, E. reflexivity.
Qed.

(** C9 at work: the pending call whose key the message echoes stays
    pending. *)
Lemma untyped_message_is_dropped_witness :
  let c := client_with_pending_call in
  untyped_message !! "@type" = None /\
  _results c !! key 0 = Some pending_call /\
  exists c',
    _process_update idle_handlers untyped_message c = (inr tt, c') /\
    _results c' !! key 0 = Some pending_call /\
    resolved (trace c') = [] /\ submitted (trace c') = [].
Proof.
  intros c.
  assert (H : untyped_message !! "@type" = None) by done.
  split; [exact H|]. split; [done|].
  destruct (untyped_message_is_dropped idle_handlers untyped_message c H)
    as (E & R & _).
  eexists. split; [exact E|]. split; [by rewrite R|]. split; reflexivity.
Defined.

(** *** The dispatcher, case by case *)

Lemma resolved_app evs evs' :
  resolved (evs ++ evs') = resolved evs ++ resolved evs'.
Proof. apply omap_app. Qed.

Lemma submitted_app evs evs' :
  submitted (evs ++ evs') = submitted evs ++ submitted evs'.
Proof. apply omap_app. Qed.

(** [del update["@client_id"]] when the key is there. *)
Lemma without_client_id (update : dict) :
  (if bool_decide (is_Some (update !! "@client_id"))
   then delete "@client_id" update else update)
  = delete "@client_id" update.
Proof.
  case_bool_decide as H; [done|].
  symmetry. apply delete_id. by apply eq_None_not_Some.
Qed.

(** A message that answers a request. *)
Lemma process_response inline (update : dict) ty extra c :
  update !! "@type" = Some ty ->
  update !! "@extra" = Some extra ->
  _process_update inline update c
  = let u := delete "@client_id" update in
    match subscript extra "id" with
    | inl e => (inl e, c)
    | inr key =>
        match pending key (_results c) with
        | inl e => (inl e, c)
        | inr found =>
            match found, key with
            | Some r, JStr k =>
                (inr tt, emit (Resolved (set_result u r))
                           (with_results (delete k (_results c)) c))
            | _, _ =>
                if eq_str ty "error" then
                  match contains extra "option" with
                  | inl e => (inl e, c)
                  | inr true =>
                      match subscript extra "option" with
                      | inl e => (inl e, c)
                      | inr option =>
                          match getitem u "message" with
                          | inl e => (inl e, c)
                          | inr message =>
                              (inr tt,
                               emit (Logged (OptionError option message)) c)
                          end
                      end
                  | inr false => (inr tt, c)
                  end
                else (inr tt, c)
            end
        end
    end.
Proof.
  intros Hty Hextra. unfold _process_update.
  rewrite without_client_id, !lookup_delete_ne, Hty, Hextra by done.
  cbv zeta. unfold lift, read.
  rewrite CallsFacts.run_bind.
  destruct (subscript extra "id") as [e|key]; [done|].
  rewrite !CallsFacts.run_bind.
  destruct (pending key (_results c)) as [e|found]; [done|].
  assert (Hrest :
    (if eq_str ty "error"
     then is_option ← (fun c0 : Client => (contains extra "option", c0));
          (if is_option : bool
           then option ← (fun c0 : Client => (subscript extra "option", c0));
                message ← (fun c0 : Client =>
                             (getitem (delete "@client_id" update) "message",
                              c0));
                tell (Logged (OptionError option message))
           else mret tt)
     else mret tt) c
    = if eq_str ty "error" then
        match contains extra "option" with
        | inl e => (inl e, c)
        | inr true =>
            match subscript extra "option" with
            | inl e => (inl e, c)
            | inr option =>
                match getitem (delete "@client_id" update) "message" with
                | inl e => (inl e, c)
                | inr message =>
                    (inr tt, emit (Logged (OptionError option message)) c)
                end
            end
        | inr false => (inr tt, c)
        end
      else (inr tt, c)).
  { destruct (eq_str ty "error"); [|done].
    rewrite CallsFacts.run_bind.
    destruct (contains extra "option") as [e|[|]]; [done| |done].
    rewrite CallsFacts.run_bind.
    destruct (subscript extra "option") as [e|option]; [done|].
    rewrite CallsFacts.run_bind.
    by destruct (getitem (delete "@client_id" update) "message"). }
  destruct found as [r|]; [destruct key|]; try exact Hrest. reflexivity.
Qed.

(** An update, which answers nothing. *)
Lemma process_unsolicited inline (update : dict) ty c :
  update !! "@type" = Some ty ->
  update !! "@extra" = None ->
  has_inline ty = false ->
  _process_update inline update c
  = let u := delete "@client_id" update in
    if workers_shutdown c then (inl (Exception "RuntimeError"), c)
    else if eq_str ty "updateAuthorizationState"
         then (inr tt, emit (Submitted (UpdateWorker u))
                         (emit (Submitted (HandleAuthorizationState u)) c))
         else (inr tt, emit (Submitted (UpdateWorker u)) c).
Proof.
  intros Hty Hextra Hinline. unfold _process_update.
  rewrite without_client_id, !lookup_delete_ne, Hty, Hextra by done.
  cbv zeta. unfold has_inline in Hinline.
  repeat (apply orb_false_iff in Hinline as [Hinline ?]).
  rewrite CallsFacts.run_bind.
  destruct (eq_str ty "updateAuthorizationState").
  - unfold submit. destruct (workers_shutdown c) eqn:E; [done|].
    cbn. by rewrite E.
  - repeat match goal with H : eq_str ty _ = false |- _ => rewrite H; clear H end.
    unfold submit, mret, M_ret. by destruct (workers_shutdown c).
Qed.

(** X25.  A message that carries the key of a pending call resolves that
    call and no other: the future gets the message (without its
    "@client_id") as its outcome, an "error" message as a failure and any
    other one as a success; its key leaves the pending table, every other
    pending call stays, and nothing is handed to the worker pool. *)
Theorem response_resolves_its_call (inline : inline_handler -> dict -> M unit)
    (update extra : dict) (ty : json) (k : string) (r : Result) (c : Client) :
  update !! "@type" = Some ty ->
  update !! "@extra" = Some (JObj extra) ->
  extra !! "id" = Some (JStr k) ->
  _results c !! k = Some r ->
  let u := delete "@client_id" update in
  exists c',
    _process_update inline update c = (inr tt, c') /\
    resolved (trace c')
    = resolved (trace c)
      ++ [{| id := id r; request := request r;
             result := Some (outcome_of u) |}] /\
    _results c' !! k = None /\
    (forall k', k' <> k -> _results c' !! k' = _results c !! k') /\
    submitted (trace c') = submitted (trace c).
Proof.
  intros Hty Hextra Hid Hr u.
  rewrite (process_response inline update ty (JObj extra) c Hty Hextra).
  cbv zeta. unfold subscript, getitem. rewrite Hid.
  cbn [pending]. rewrite Hr.
  eexists. split; [reflexivity|]. cbn.
  rewrite resolved_app, submitted_app. cbn. rewrite app_nil_r.
  repeat split.
  - apply lookup_delete_eq.
  - intros k' Hne. by apply lookup_delete_ne.
Qed.

(** X25 at work on the answer to the pending call. *)
Lemma response_resolves_its_call_witness :
  let c := client_with_pending_call in
  exists c',
    _process_update idle_handlers response c = (inr tt, c') /\
    resolved (trace c')
    = [{| id := key 0; request := request pending_call;
          result := Some (Success (delete "@client_id" response)) |}] /\
    _results c' !! key 0 = None.
Proof.
  intros c.
  destruct (response_resolves_its_call idle_handlers response
              {["id" := JStr (key 0)]} (JStr "message") (key 0) pending_call c)
    as (c' & E & R & P & _); try done.
  exists c'. split; [exact E|]. split; [exact R | exact P].
Defined.

(** X26.  A message that carries a key no pending call has resolves
    nothing and is handed to nobody.  It leaves no trace at all, unless it
    is an "error" whose "@extra" names an option, as the answers to the
    requests of [_set_options] do: then the option and the error message
    are logged. *)
Theorem unmatched_response (inline : inline_handler -> dict -> M unit)
    (update extra : dict) (ty : json) (k : string) (c : Client) :
  update !! "@type" = Some ty ->
  update !! "@extra" = Some (JObj extra) ->
  extra !! "id" = Some (JStr k) ->
  _results c !! k = None ->
  (eq_str ty "error" = false \/ extra !! "option" = None ->
   _process_update inline update c = (inr tt, c)) /\
  (forall option message,
     eq_str ty "error" = true ->
     extra !! "option" = Some option ->
     update !! "message" = Some message ->
     _process_update inline update c
     = (inr tt, emit (Logged (OptionError option message)) c)).
Proof.
  intros Hty Hextra Hid Hr.
  rewrite (process_response inline update ty (JObj extra) c Hty Hextra).
  cbv zeta. unfold subscript, getitem. rewrite Hid.
  cbn [pending]. rewrite Hr. split.
  - intros [->|Hopt]; [done|].
    destruct (eq_str ty "error"); [|done].
    cbn [contains]. rewrite Hopt.
    by rewrite bool_decide_eq_false_2 by (by intros [? ?]).
  - intros option message -> Hopt Hmsg.
    cbn [contains]. rewrite Hopt.
    rewrite bool_decide_eq_true_2 by (by eexists).
    by rewrite lookup_delete_ne, Hmsg.
Qed.

(** X26 at work on the error TDLib answers to an option. *)
Lemma unmatched_response_witness :
  _process_update idle_handlers option_error client_with_pending_call
  = (inr tt,
     emit (Logged (OptionError (JStr "online") (JStr "Option can't be set")))
       client_with_pending_call).
Proof.
  apply (unmatched_response idle_handlers option_error
           {["option" := JStr "online"; "value" := JBool true;
             "id" := JStr EmptyString]}
           (JStr "error") EmptyString client_with_pending_call);
    reflexivity.
Defined.

(** X27.  An update that answers nothing and has no in-line handler is
    handed to the worker pool, once, as a task for [_update_worker]; an
    authorization-state update is handed over twice, first to
    [__handle_authorization_state] and then to [_update_worker].  The
    pending table is not touched. *)
Theorem update_goes_to_the_pool (inline : inline_handler -> dict -> M unit)
    (update : dict) (ty : json) (c : Client) :
  update !! "@type" = Some ty ->
  update !! "@extra" = None ->
  has_inline ty = false ->
  workers_shutdown c = false ->
  let u := delete "@client_id" update in
  exists c',
    _process_update inline update c = (inr tt, c') /\
    submitted (trace c')
    = submitted (trace c)
      ++ (if eq_str ty "updateAuthorizationState"
          then [HandleAuthorizationState u; UpdateWorker u]
          else [UpdateWorker u]) /\
    _results c' = _results c /\
    resolved (trace c') = resolved (trace c).
Proof.
  intros Hty Hextra Hinline Hpool u.
  rewrite (process_unsolicited inline update ty c Hty Hextra Hinline).
  cbv zeta. rewrite Hpool.
  destruct (eq_str ty "updateAuthorizationState");
    (eexists; split; [reflexivity|]); cbn;
    rewrite !submitted_app, !resolved_app; cbn;
    by rewrite ?app_nil_r, <- ?app_assoc.
Qed.

(** X27 at work on a new chat. *)
Lemma update_goes_to_the_pool_witness :
  exists c',
    _process_update idle_handlers update_new_chat client_with_pending_call
    = (inr tt, c') /\
    submitted (trace c') = [UpdateWorker update_new_chat] /\
    _results c' = _results client_with_pending_call /\
    resolved (trace c') = [].
Proof.
  exact (update_goes_to_the_pool idle_handlers update_new_chat
           (JStr "updateNewChat") client_with_pending_call
           eq_refl eq_refl eq_refl eq_refl).
Defined.

(** X28.  A client that was stopped cannot be started again.
    [__stop_client] shuts the worker pool down and nothing creates a new
    one, so when the receiver loop is started again, the first update that
    has to be handed to the pool, the authorization-state update TDLib
    opens with for instance, raises [RuntimeError]: the loop logs it and
    ends, the client is not running, and the messages behind that update
    are never processed. *)
Theorem restart_after_stop (inline : inline_handler -> dict -> M unit)
    (update : dict) (ty : json) (incoming : list (option dict)) (c : Client) :
  update !! "@type" = Some ty ->
  update !! "@extra" = None ->
  has_inline ty = false ->
  exists c',
    __listen_loop inline (Some update :: incoming) (__stop_client c)
    = (false, c') /\
    is_running c' = false /\
    trace c'
    = trace c ++ [WorkersShutdown;
                  Logged (ListenLoopException (Exception "RuntimeError"))] /\
    _results c' = _results c.
Proof.
  intros Hty Hextra Hinline. unfold __listen_loop. cbn [listen is_running
    with_is_running].
  rewrite (process_unsolicited inline update ty _ Hty Hextra Hinline).
  cbv zeta. cbn [workers_shutdown with_is_running __stop_client is_Exception].
  eexists. split; [reflexivity|]. cbn. by rewrite <- app_assoc.
Qed.

(** X28 at work: the authorization-state update TDLib opens with, and an
    answer behind it that is never looked at. *)
Lemma restart_after_stop_witness :
  let update := Auth.authorization_update
                  "authorizationStateWaitTdlibParameters" ∅ in
  exists c',
    __listen_loop idle_handlers [Some update; Some response]
      (__stop_client client_with_pending_call)
    = (false, c') /\
    is_running c' = false /\
    trace c'
    = [WorkersShutdown;
       Logged (ListenLoopException (Exception "RuntimeError"))] /\
    _results c' = _results client_with_pending_call.
Proof.
  intros update.
  exact (restart_after_stop idle_handlers update
           (JStr "updateAuthorizationState") [Some response]
           client_with_pending_call eq_refl eq_refl eq_refl).
Defined.

(** X29.  A message with "@extra" but no key in it ends the receiver
    loop: the [KeyError] of the missing "id" comes out of
    [_process_update], the loop logs it and stops, the client is not
    running any more, and the messages behind it are never processed. *)
Theorem response_without_key_ends_the_loop
    (inline : inline_handler -> dict -> M unit) (update extra : dict)
    (ty : json) (incoming : list (option dict)) (c : Client) :
  is_running c = true ->
  update !! "@type" = Some ty ->
  update !! "@extra" = Some (JObj extra) ->
  extra !! "id" = None ->
  listen inline (Some update :: incoming) c
  = (false,
     with_is_running false (emit (Logged (ListenLoopException (KeyError "id")))
                              c)).
Proof.
  intros Hrun Hty Hextra Hid. cbn [listen]. rewrite Hrun.
  rewrite (process_response inline update ty (JObj extra) c Hty Hextra).
  cbv zeta. unfold subscript, getitem. by rewrite Hid.
Qed.

(** X29 at work: the pending call behind the message is never resolved. *)
Lemma response_without_key_ends_the_loop_witness :
  let c := client_with_pending_call in
  listen idle_handlers [Some response_without_id; Some response] c
  = (false,
     with_is_running false (emit (Logged (ListenLoopException (KeyError "id")))
                              c)).
Proof.
  intros c.
  exact (response_without_key_ends_the_loop idle_handlers response_without_id
           ∅ (JStr "ok") [Some response] c eq_refl eq_refl eq_refl eq_refl).
Defined.

End DispatchFacts.
